(** * PM assistant: ticket graph crawler, chat parsers, correlation, history

    A shallow embedding of the data-assembly core of the PM assistant
    ([youtrack.js], and the Azure DevOps variant [server.js]) together with
    the properties its specification states about it.

    Conventions of the embedding:
    - a JavaScript string is a [string] of code units below 256;
    - a value that may be [undefined]/[null] is an [option]; JavaScript
      truthiness of such a value is [truthy] (absent and empty strings are
      falsy);
    - a JavaScript object used as a dictionary is the [gmap string _] of
      its own properties, read and written through [JS.absent],
      [JS.assign], [JS.push_to] and [JS.increment], which let a key that
      names a member of [Object.prototype] find that member; a [Set] of
      strings is a [gset string];
    - every network call is a field of an explicit environment record, whose
      answer is either a thrown error or the response body;
    - [async] functions are sequential (each call is awaited before the next
      one starts), so they are embedded as pure functions of the
      environment. *)

From Stdlib Require Import Ascii String List Bool Arith Lia ZArith.
From stdpp Require Import base option list strings gmap pretty.
Import ListNotations.

Local Open Scope string_scope.
Local Open Scope list_scope.
Local Open Scope nat_scope.

(** ** JavaScript values *)

Module JS.

(** [x || d] for a possibly absent string [x] and a string default [d]. *)
Definition truthy (x : option string) : bool :=
  match x with
  | Some s => negb (String.eqb s "")
  | None => false
  end.

Definition or_default (x : option string) (d : string) : string :=
  match x with
  | Some s => if String.eqb s "" then d else s
  | None => d
  end.

(** [x || y] where both sides may be absent. *)
Definition or_opt (x y : option string) : option string :=
  if truthy x then x else y.

(** The outcome of [await axios.get(url)]: the call throws, or it returns
    a response whose [data] may be empty. *)
Inductive response (A : Type) : Type :=
| Threw (message : string)
| Data (d : option A).
Arguments Threw {A} message.
Arguments Data {A} d.

(** The outcome of a function that may [throw].  The message of an error
    that the program creates is its text; a [TypeError] raised by the
    engine, whose wording is the engine's, is written "TypeError". *)
Inductive result (A : Type) : Type :=
| Throw (message : string)
| Return (a : A).
Arguments Throw {A} message.
Arguments Return {A} a.

(** Character classes of the regular expressions: [\d], [\w], [\s]. *)
Definition is_digit (a : ascii) : bool :=
  let n := nat_of_ascii a in (48 <=? n) && (n <=? 57).

Definition is_upper (a : ascii) : bool :=
  let n := nat_of_ascii a in (65 <=? n) && (n <=? 90).

Definition is_lower (a : ascii) : bool :=
  let n := nat_of_ascii a in (97 <=? n) && (n <=? 122).

Definition is_word (a : ascii) : bool :=
  is_digit a || is_upper a || is_lower a || (nat_of_ascii a =? 95).

(** White space and line terminators among the code units below 256:
    tab, line feed, vertical tab, form feed, carriage return, space,
    no-break space. *)
Definition is_space (a : ascii) : bool :=
  let n := nat_of_ascii a in
  ((9 <=? n) && (n <=? 13)) || (n =? 32) || (n =? 160).

(** [.] matches everything but a line terminator. *)
Definition is_dot (a : ascii) : bool :=
  let n := nat_of_ascii a in negb ((n =? 10) || (n =? 13)).

Fixpoint drop_space (l : list ascii) : list ascii :=
  match l with
  | a :: t => if is_space a then drop_space t else l
  | [] => []
  end.

(** [s.trim()] *)
Definition trim (s : string) : string :=
  string_of_list_ascii
    (rev (drop_space (rev (drop_space (list_ascii_of_string s))))).

(** [s.split('\n')]: never empty, the empty string splits to [[""]]. *)
Fixpoint split_lines_aux (cur : list ascii) (l : list ascii) : list string :=
  match l with
  | [] => [string_of_list_ascii (rev cur)]
  | a :: t =>
      if (nat_of_ascii a =? 10)
      then string_of_list_ascii (rev cur) :: split_lines_aux [] t
      else split_lines_aux (a :: cur) t
  end.

Definition split_lines (s : string) : list string :=
  split_lines_aux [] (list_ascii_of_string s).

(** [s.replace(/suffix$/, '')] for a literal suffix. *)
Fixpoint is_prefix (p l : list ascii) : bool :=
  match p, l with
  | [], _ => true
  | a :: p', b :: l' => Ascii.eqb a b && is_prefix p' l'
  | _ :: _, [] => false
  end.

(** *** Plain objects used as dictionaries

    An object created by [{}] is the [gmap] of its own properties.  A
    read [o[k]] of a key that is no own property finds the member of
    [Object.prototype] of that name, if there is one: a function (an
    object for ["__proto__"]), which is truthy. *)

(** The properties of [Object.prototype], each with the text that [+]
    makes of it. *)
Definition prototype_members : list (string * string) :=
  [("constructor", "function Object() { [native code] }");
   ("__defineGetter__", "function __defineGetter__() { [native code] }");
   ("__defineSetter__", "function __defineSetter__() { [native code] }");
   ("hasOwnProperty", "function hasOwnProperty() { [native code] }");
   ("__lookupGetter__", "function __lookupGetter__() { [native code] }");
   ("__lookupSetter__", "function __lookupSetter__() { [native code] }");
   ("isPrototypeOf", "function isPrototypeOf() { [native code] }");
   ("propertyIsEnumerable",
    "function propertyIsEnumerable() { [native code] }");
   ("toString", "function toString() { [native code] }");
   ("valueOf", "function valueOf() { [native code] }");
   ("__proto__", "[object Object]");
   ("toLocaleString", "function toLocaleString() { [native code] }")].

Definition inherited (k : string) : option string :=
  snd <$> find (fun kv => String.eqb (fst kv) k) prototype_members.

Definition on_prototype (k : string) : bool :=
  match inherited k with
  | Some _ => true
  | None => false
  end.

(** [!o[k]], the own values of [o] being arrays. *)
Definition absent {V : Type} (o : gmap string V) (k : string) : bool :=
  match o !! k with
  | Some _ => false
  | None => negb (on_prototype k)
  end.

(** [o[k] = v]: an own property, except that ["__proto__"] is the
    accessor of the prototype and leaves the own properties as they
    are. *)
Definition assign {V : Type} (o : gmap string V) (k : string) (v : V)
    : gmap string V :=
  if String.eqb k "__proto__" then o else <[k := v]> o.

(** [if (!o[k]) o[k] = []; o[k].push(x)]: [None] when it throws, which
    it does when [o[k]] is a member of [Object.prototype], none of which
    has a [push]. *)
Definition push_to {V : Type} (o : gmap string (list V)) (k : string) (x : V)
    : option (gmap string (list V)) :=
  match o !! k with
  | Some l => Some (<[k := l ++ [x]]> o)
  | None => if on_prototype k then None else Some (<[k := [x]]> o)
  end.

(** The [forEach] that pushes every element of [l] into the bucket of
    its key, from the object [o] on: [None] when an iteration throws. *)
Fixpoint push_all {A V : Type} (key : A -> string) (val : A -> V)
    (o : gmap string (list V)) (l : list A)
    : option (gmap string (list V)) :=
  match l with
  | [] => Some o
  | x :: rest =>
      match push_to o (key x) (val x) with
      | Some o' => push_all key val o' rest
      | None => None
      end
  end.

(** A cell of an object used as a histogram: a count, or the text that
    [+] produced when the cell held no number. *)
Inductive tally : Type :=
| Count (n : nat)
| Text (s : string).

(** [o[k] = (o[k] || 0) + 1] *)
Definition increment (o : gmap string tally) (k : string)
    : gmap string tally :=
  match o !! k with
  | Some (Count n) => <[k := Count (n + 1)]> o
  | Some (Text s) =>
      <[k := if String.eqb s "" then Count 1 else Text (s +:+ "1")]> o
  | None =>
      match inherited k with
      | Some member => assign o k (Text (member +:+ "1"))
      | None => <[k := Count 1]> o
      end
  end.

Definition strip_suffix (suffix s : string) : string :=
  let rs := rev (list_ascii_of_string s) in
  let rp := rev (list_ascii_of_string suffix) in
  if is_prefix rp rs
  then string_of_list_ascii (rev (skipn (length rp) rs))
  else s.

End JS.

(** ** Regular expressions

    A backtracking matcher with the priorities of the JavaScript engine:
    alternatives left to right, greedy quantifiers longest first, lazy ones
    shortest first, an iteration of a quantifier that consumes nothing is
    rejected.  The patterns of the program have no capture group under a
    quantifier, so captures are never reset. *)

Module Regex.

Inductive re : Type :=
| Eps
| Chr (p : ascii -> bool)
| Seq (r1 r2 : re)
| Alt (r1 r2 : re)
| Star (greedy : bool) (r : re)
| Grp (n : nat) (r : re)
| Bol
| Eol
| WordB.

(** A position in the subject: the code unit before it, its index and the
    remaining input. *)
Record pos : Type := Pos {
  before : option ascii;
  idx : nat;
  rest : list ascii
}.

Definition caps : Type := list (nat * string).

Definition between (s e : pos) : string :=
  string_of_list_ascii (firstn (idx e - idx s) (rest s)).

Definition word_at (x : option ascii) : bool :=
  match x with
  | Some a => JS.is_word a
  | None => false
  end.

Fixpoint run (r : re) (s : pos) (c : caps)
    (k : pos -> caps -> option (pos * caps)) {struct r} : option (pos * caps) :=
  match r with
  | Eps => k s c
  | Chr p =>
      match rest s with
      | a :: t => if p a then k (Pos (Some a) (S (idx s)) t) c else None
      | [] => None
      end
  | Seq r1 r2 => run r1 s c (fun s' c' => run r2 s' c' k)
  | Alt r1 r2 =>
      match run r1 s c k with
      | Some x => Some x
      | None => run r2 s c k
      end
  | Star greedy r' =>
      (fix loop (n : nat) (s : pos) (c : caps) {struct n} : option (pos * caps) :=
         match n with
         | O => k s c
         | S n' =>
             if greedy then
               match run r' s c (fun s' c' =>
                       if idx s <? idx s' then loop n' s' c' else None) with
               | Some x => Some x
               | None => k s c
               end
             else
               match k s c with
               | Some x => Some x
               | None => run r' s c (fun s' c' =>
                       if idx s <? idx s' then loop n' s' c' else None)
               end
         end) (S (length (rest s))) s c
  | Grp n r' => run r' s c (fun s' c' => k s' ((n, between s s') :: c'))
  | Bol => if idx s =? 0 then k s c else None
  | Eol => match rest s with [] => k s c | _ :: _ => None end
  | WordB =>
      if xorb (word_at (before s)) (word_at (head (rest s)))
      then k s c else None
  end.

(** A successful match: where it starts and ends, and its groups. *)
Record found : Type := Found {
  f_start : nat;
  f_end : pos;
  f_caps : caps
}.

(** Try the start positions from the current one to the end of input. *)
Fixpoint search (r : re) (b : option ascii) (i : nat) (l : list ascii)
    : option found :=
  match run r (Pos b i l) [] (fun s c => Some (s, c)) with
  | Some (e, c) => Some (Found i e c)
  | None =>
      match l with
      | [] => None
      | a :: t => search r (Some a) (S i) t
      end
  end.

(** [str.match(r)] for a pattern without the [g] flag. *)
Definition exec (r : re) (s : string) : option caps :=
  f_caps <$> search r None 0 (list_ascii_of_string s).

(** [m[n]] of a match, the empty string when the group did not take part
    (the program only reads groups that always do). *)
Fixpoint group (n : nat) (c : caps) : string :=
  match c with
  | [] => ""
  | (i, s) :: t => if i =? n then s else group n t
  end.

(** [while ((m = r.exec(text)) !== null) out.push(m[1])] for a pattern
    with the [g] flag: each search resumes where the last match ended.
    Every match of the pattern it is used with consumes input, which
    [fuel] (the input length plus one) bounds. *)
Fixpoint exec_all_from (fuel : nat) (r : re) (p : pos) : list string :=
  match fuel with
  | O => []
  | S fuel' =>
      match search r (before p) (idx p) (rest p) with
      | Some f =>
          if idx p <? idx (f_end f)
          then group 1 (f_caps f) :: exec_all_from fuel' r (f_end f)
          else []
      | None => []
      end
  end.

Definition exec_all (r : re) (s : string) : list string :=
  let l := list_ascii_of_string s in
  exec_all_from (S (length l)) r (Pos None 0 l).

(** Derived forms. *)
Definition plus (r : re) : re := Seq r (Star true r).
Definition plus_lazy (r : re) : re := Seq r (Star false r).
Definition star (r : re) : re := Star true r.
Definition opt (r : re) : re := Alt r Eps.
Definition chr (a : ascii) : re := Chr (Ascii.eqb a).

Fixpoint lit_aux (l : list ascii) : re :=
  match l with
  | [] => Eps
  | [a] => chr a
  | a :: t => Seq (chr a) (lit_aux t)
  end.

Definition lit (s : string) : re := lit_aux (list_ascii_of_string s).

Fixpoint seqs (l : list re) : re :=
  match l with
  | [] => Eps
  | [r] => r
  | r :: t => Seq r (seqs t)
  end.

Fixpoint alts (l : list re) : re :=
  match l with
  | [] => Eps
  | [r] => r
  | r :: t => Alt r (alts t)
  end.

Definition d : re := Chr JS.is_digit.
Definition w : re := Chr JS.is_word.
Definition sp : re := Chr JS.is_space.
Definition d12 : re := Seq d (opt d).
Definition d2 : re := Seq d d.
Definition d4 : re := seqs [d; d; d; d].

End Regex.

(** ** Chat: API fetch, export parser, correlation ([youtrack.js]) *)

Module Chat.

Import Regex.

(** One record for the messages of both origins; a field the origin does
    not set is [None] (API messages carry [name], [createTime], [thread];
    exported ones carry [timestamp]). *)
Record ChatMessage : Type := {
  name : option string;
  sender : string;
  text : string;
  createTime : option string;
  timestamp : option string;
  thread : option string;
  ticketIds : list string;
  source : string
}.

(** An entry of [ticketMentions]: [{sender, text, createTime}] for the API
    variant, [{sender, text, timestamp}] for the export variant. *)
Record Mention : Type := {
  m_sender : string;
  m_text : string;
  m_createTime : option string;
  m_timestamp : option string
}.

Record ChatData : Type := {
  spaceId : string;
  messages : list ChatMessage;
  threads : gmap string (list ChatMessage);
  participants : list string;
  ticketMentions : gmap string (list Mention);
  totalMessages : nat;
  totalThreads : nat
}.

(** [/\b([A-Z]+-\d+)\b/g] *)
Definition ticketRegex : re :=
  seqs [WordB; Grp 1 (seqs [plus (Chr JS.is_upper); chr "-"; plus d]); WordB].

Definition ampm : re := alts [lit "AM"; lit "PM"; lit "am"; lit "pm"].

Definition not_comma (a : ascii) : bool := negb (Ascii.eqb a ",").

(** [/^([^,]+),\s+(\w+\s+\d{1,2}(?:,\s+\d{4})?,\s+\d{1,2}:\d{2}\s*(?:AM|PM|am|pm)?(?:,\s*Edited)?)\s*$/] *)
Definition timePattern : re :=
  seqs [Bol;
        Grp 1 (plus (Chr not_comma));
        chr ","; plus sp;
        Grp 2 (seqs [plus w; plus sp; d12;
                     opt (seqs [chr ","; plus sp; d4]);
                     chr ","; plus sp; d12; chr ":"; d2; star sp;
                     opt ampm;
                     opt (seqs [chr ","; star sp; lit "Edited"])]);
        star sp; Eol].

(** [/^(\d{1,2}:\d{2}\s*(?:AM|PM|am|pm)?|\w+\s+\d{1,2},\s+\d{4},?\s+\d{1,2}:\d{2}\s*(?:AM|PM|am|pm)?)\s+(.+?):\s*(.+)$/] *)
Definition legacyPattern : re :=
  seqs [Bol;
        Grp 1 (Alt (seqs [d12; chr ":"; d2; star sp; opt ampm])
                   (seqs [plus w; plus sp; d12; chr ","; plus sp; d4;
                          opt (chr ","); plus sp; d12; chr ":"; d2;
                          star sp; opt ampm]));
        plus sp;
        Grp 2 (plus_lazy (Chr JS.is_dot));
        chr ":"; star sp;
        Grp 3 (plus (Chr JS.is_dot));
        Eol].

(** [[...new Set(l)]]: first occurrences, in order. *)
Fixpoint distinct_aux (seen : gset string) (l : list string) : list string :=
  match l with
  | [] => []
  | x :: t =>
      if decide (x ∈ seen) then distinct_aux seen t
      else x :: distinct_aux ({[x]} ∪ seen) t
  end.

Definition distinct (l : list string) : list string := distinct_aux ∅ l.

(** [if (!tm[id]) tm[id] = []; tm[id].push(e)].  The ids are matches of
    [ticketRegex], which hold a hyphen: none names a member of
    [Object.prototype] (lemma [ticket_ids_own]), so the entry looked up is
    an own one. *)
Definition push_mention (tm : gmap string (list Mention))
    (ticketId : string) (e : Mention) : gmap string (list Mention) :=
  <[ticketId := default [] (tm !! ticketId) ++ [e]]> tm.

(** The two nested [forEach] that invert messages to mentions;
    [mk] builds the entry pushed for a message. *)
Definition build_mentions (mk : ChatMessage -> Mention)
    (msgs : list ChatMessage) : gmap string (list Mention) :=
  fold_left
    (fun tm msg =>
       fold_left (fun tm' ticketId => push_mention tm' ticketId (mk msg))
                 (ticketIds msg) tm)
    msgs ∅.

(** What the inversion is expected to hold for a ticket: one entry per
    occurrence of the ticket in the [ticketIds] of each message, in
    message order. *)
Definition occurrences (mk : ChatMessage -> Mention)
    (msgs : list ChatMessage) (ticketId : string) : list Mention :=
  flat_map
    (fun msg => repeat (mk msg) (count_occ string_dec (ticketIds msg) ticketId))
    msgs.

(** *** Export-text variant: [parseGoogleChatExport] *)

Record parser : Type := {
  p_messages : list ChatMessage;
  currentMessage : option ChatMessage
}.

Definition export_message (s t ts : string) (ids : list string) : ChatMessage :=
  {| name := None; sender := s; text := t; createTime := None;
     timestamp := Some ts; thread := None; ticketIds := ids;
     source := "google_chat_export" |}.

(** [if (!ids.includes(t)) ids.push(t)] for each match of a line. *)
Definition add_ids (ids found : list string) : list string :=
  fold_left
    (fun acc t => if existsb (String.eqb t) acc then acc else acc ++ [t])
    found ids.

Definition continue_message (cm : ChatMessage) (line : string) : ChatMessage :=
  {| name := name cm; sender := sender cm;
     text := if String.eqb (text cm) "" then line
             else text cm +:+ String "010" line;
     createTime := createTime cm; timestamp := timestamp cm;
     thread := thread cm;
     ticketIds := add_ids (ticketIds cm) (exec_all ticketRegex line);
     source := source cm |}.

(** The body of [lines.forEach(function(line) ...)]. *)
Definition parse_line (st : parser) (line0 : string) : parser :=
  let line := JS.trim line0 in
  if String.eqb line "" then st
  else
    match exec timePattern line with
    | Some m =>
        {| p_messages :=
             match currentMessage st with
             | Some cm =>
                 if negb (String.eqb (text cm) "")
                 then p_messages st ++ [cm] else p_messages st
             | None => p_messages st
             end;
           currentMessage :=
             Some (export_message
                     (JS.trim (group 1 m)) ""
                     (JS.trim (JS.strip_suffix ", Edited" (group 2 m))) []) |}
    | None =>
        match exec legacyPattern line with
        | Some m =>
            let t := JS.trim (group 3 m) in
            {| p_messages :=
                 match currentMessage st with
                 | Some cm => p_messages st ++ [cm]
                 | None => p_messages st
                 end;
               currentMessage :=
                 Some (export_message (JS.trim (group 2 m)) t (group 1 m)
                         (exec_all ticketRegex t)) |}
        | None =>
            match currentMessage st with
            | Some cm =>
                {| p_messages := p_messages st;
                   currentMessage := Some (continue_message cm line) |}
            | None => st
            end
        end
    end.

(** [if (currentMessage) messages.push(currentMessage)] after the loop. *)
Definition flush (st : parser) : list ChatMessage :=
  match currentMessage st with
  | Some cm => p_messages st ++ [cm]
  | None => p_messages st
  end.

(** The [forEach] over the lines, from the state [st] on. *)
Definition parse_from (st : parser) (lines : list string) : parser :=
  fold_left parse_line lines st.

Definition parse_lines (lines : list string) : parser :=
  parse_from {| p_messages := []; currentMessage := None |} lines.

Definition export_mention (msg : ChatMessage) : Mention :=
  {| m_sender := sender msg; m_text := text msg;
     m_createTime := None; m_timestamp := timestamp msg |}.

Definition parseGoogleChatExport (chatText : string) : ChatData :=
  let msgs := flush (parse_lines (JS.split_lines chatText)) in
  {| spaceId := "exported";
     messages := msgs;
     threads := {[ "main_thread" := msgs ]};
     participants := distinct (map sender msgs);
     ticketMentions := build_mentions export_mention msgs;
     totalMessages := length msgs;
     totalThreads := 1 |}.

(** *** API variant: [parseGoogleChatUrl], [fetchGoogleChatMessages] *)

(** What [new URL(url)] exposes to the program: the path and the two
    query parameters it reads. *)
Record URL : Type := {
  pathname : string;
  param_key : option string;
  param_token : option string
}.

Record ParsedChatUrl : Type := {
  pc_spaceId : string;
  apiKey : string;
  token : option string;
  pc_baseUrl : string
}.

(** A raw message of the chat service, with the fields the program reads:
    [name], [sender.displayName], [sender.name], [text], [createTime],
    [thread.name]. *)
Record RawMessage : Type := {
  raw_name : option string;
  raw_sender_displayName : option string;
  raw_sender_name : option string;
  raw_text : option string;
  raw_createTime : option string;
  raw_thread_name : option string
}.

(** [response.data] of one page. *)
Record Page : Type := {
  page_messages : option (list RawMessage);
  nextPageToken : option string
}.

(** The platform and the chat service.  [chat_get n url] is the answer to
    the [n]-th request (counted from 0), so the service may answer the
    same address differently over time. *)
Record ChatEnv : Type := {
  new_URL : string -> option URL;
  chat_get : nat -> string -> JS.response Page
}.

(** [/\/spaces\/([^\/]+)/] *)
Definition not_slash (a : ascii) : bool := negb (Ascii.eqb a "/").

Definition spacePattern : re :=
  seqs [lit "/spaces/"; Grp 1 (plus (Chr not_slash))].

(** [url.split('?')[0]] *)
Fixpoint before_query (s : string) : string :=
  match s with
  | EmptyString => EmptyString
  | String a t => if Ascii.eqb a "?" then EmptyString else String a (before_query t)
  end.

Definition parseGoogleChatUrl (env : ChatEnv) (url : string)
    : option ParsedChatUrl :=
  match new_URL env url with
  | None => None
  | Some urlObj =>
      match exec spacePattern (pathname urlObj) with
      | Some m =>
          if JS.truthy (param_key urlObj)
          then Some {| pc_spaceId := group 1 m;
                       apiKey := JS.or_default (param_key urlObj) "";
                       token := param_token urlObj;
                       pc_baseUrl := before_query url |}
          else None
      | None => None
      end
  end.

Definition maxPages : nat := 10.

Definition page_url (parsed : ParsedChatUrl) (pageToken : option string)
    : string :=
  let url := pc_baseUrl parsed +:+ "?key=" +:+ apiKey parsed in
  let url := if JS.truthy (token parsed)
             then url +:+ "&token=" +:+ JS.or_default (token parsed) ""
             else url in
  let url := if JS.truthy pageToken
             then url +:+ "&pageToken=" +:+ JS.or_default pageToken ""
             else url in
  url +:+ "&pageSize=100".

(** The state of the [do ... while (pageToken)] loop, with the log of the
    addresses requested so far. *)
Record fetcher : Type := {
  f_messages : list RawMessage;
  pageToken : option string;
  pageCount : nat;
  requested : list string
}.

(** The loop.  [None] means the fuel ran out before the loop ended;
    [Some (Throw _, _)] that the body raised (caught by the enclosing
    [try]); [Some (Return _, _)] that the loop ended. *)
Fixpoint fetch_pages (fuel : nat) (env : ChatEnv) (parsed : ParsedChatUrl)
    (st : fetcher) : option (JS.result (list RawMessage) * list string) :=
  match fuel with
  | O => None
  | S fuel' =>
      let url := page_url parsed (pageToken st) in
      let log := requested st ++ [url] in
      match chat_get env (pageCount st) url with
      | JS.Threw e => Some (JS.Throw e, log)
      | JS.Data None => Some (JS.Throw "TypeError", log)
      | JS.Data (Some page) =>
          let msgs :=
            match page_messages page with
            | Some ms => f_messages st ++ ms
            | None => f_messages st
            end in
          let count := S (pageCount st) in
          if maxPages <=? count then Some (JS.Return msgs, log)
          else if JS.truthy (nextPageToken page)
               then fetch_pages fuel' env parsed
                      {| f_messages := msgs;
                         pageToken := nextPageToken page;
                         pageCount := count;
                         requested := log |}
               else Some (JS.Return msgs, log)
      end
  end.

Definition fetcher0 : fetcher :=
  {| f_messages := []; pageToken := None; pageCount := 0; requested := [] |}.

(** The callback of [messages.map(...)]. *)
Definition parse_message (msg : RawMessage) : ChatMessage :=
  let t := JS.or_default (raw_text msg) "" in
  {| name := raw_name msg;
     sender := JS.or_default
                 (JS.or_opt (raw_sender_displayName msg) (raw_sender_name msg))
                 "Unknown";
     text := t;
     createTime := JS.or_opt (raw_createTime msg) None;
     timestamp := None;
     thread := JS.or_opt (raw_thread_name msg) None;
     ticketIds := exec_all ticketRegex t;
     source := "google_chat" |}.

(** [msg.thread || 'no_thread'] *)
Definition threadId (msg : ChatMessage) : string :=
  JS.or_default (thread msg) "no_thread".

(** The [forEach] that groups by thread, each iteration being
    [if (!threads[threadId]) threads[threadId] = [];
     threads[threadId].push(msg)]: [None] when one throws. *)
Definition group_threads (msgs : list ChatMessage)
    : option (gmap string (list ChatMessage)) :=
  JS.push_all threadId id ∅ msgs.

Definition api_mention (msg : ChatMessage) : Mention :=
  {| m_sender := sender msg; m_text := text msg;
     m_createTime := createTime msg; m_timestamp := None |}.

(** Everything after the loop: [None] when the grouping by thread
    throws, which the enclosing [try] turns into [null]. *)
Definition assemble (parsed : ParsedChatUrl) (raw : list RawMessage)
    : option ChatData :=
  let parsedMessages := map parse_message raw in
  match group_threads parsedMessages with
  | None => None
  | Some ths =>
      Some {| spaceId := pc_spaceId parsed;
              messages := parsedMessages;
              threads := ths;
              participants := distinct (map sender parsedMessages);
              ticketMentions := build_mentions api_mention parsedMessages;
              totalMessages := length parsedMessages;
              totalThreads := size ths |}
  end.

(** [fetchGoogleChatMessages]: [None] when the fuel does not suffice,
    otherwise the returned value ([null] is the inner [None]) and the
    addresses requested. *)
Definition fetchGoogleChatMessages (fuel : nat) (env : ChatEnv)
    (chatUrl : string) : option (option ChatData * list string) :=
  match parseGoogleChatUrl env chatUrl with
  | None => Some (None, [])
  | Some parsed =>
      match fetch_pages fuel env parsed fetcher0 with
      | None => None
      | Some (JS.Throw _, log) => Some (None, log)
      | Some (JS.Return raw, log) => Some (assemble parsed raw, log)
      end
  end.

(** Every answer of the service carries a continuation token. *)
Definition always_more (env : ChatEnv) : Prop :=
  forall n url, exists page,
    chat_get env n url = JS.Data (Some page)
    /\ JS.truthy (nextPageToken page) = true.

(** *** Correlation: [correlateChatsWithTickets] *)

Record Correlations : Type := {
  ticketToChats : gmap string (list Mention);
  chatToTickets : gmap string (list string);
  unlinkedChats : list ChatMessage
}.

(** [msg.name || msg.timestamp] *)
Definition stable_key (msg : ChatMessage) : option string :=
  JS.or_opt (name msg) (JS.or_opt (timestamp msg) None).

(** [msg.name || msg.timestamp || Math.random().toString()], where
    [fresh] is what the random call returns if it is reached. *)
Definition msgId (msg : ChatMessage) (fresh : string) : string :=
  JS.or_default (stable_key msg) fresh.

(** The state of the [forEach] over the messages: the two outputs under
    construction and the number of random tokens drawn so far. *)
Record correlator : Type := {
  c_chatToTickets : gmap string (list string);
  c_unlinkedChats : list ChatMessage;
  drawn : nat
}.

Definition correlate_message (random : nat -> string)
    (st : correlator) (msg : ChatMessage) : correlator :=
  match ticketIds msg with
  | _ :: _ =>
      let key := msgId msg (random (drawn st)) in
      {| c_chatToTickets :=
           if JS.absent (c_chatToTickets st) key
           then <[key := ticketIds msg]> (c_chatToTickets st)
           else c_chatToTickets st;
         c_unlinkedChats := c_unlinkedChats st;
         drawn := if JS.truthy (stable_key msg) then drawn st
                  else S (drawn st) |}
  | [] =>
      {| c_chatToTickets := c_chatToTickets st;
         c_unlinkedChats := c_unlinkedChats st ++ [msg];
         drawn := drawn st |}
  end.

(** [Object.keys(tm).forEach(function(id) { out[id] = tm[id]; })] *)
Definition copy_mentions (tm : gmap string (list Mention))
    : gmap string (list Mention) :=
  fold_left (fun out id => JS.assign out id (default [] (tm !! id)))
            (map fst (map_to_list tm)) ∅.

(** [random n] is the string of the [n]-th call of
    [Math.random().toString()]; [ticketData] is only passed along. *)
Definition correlateChatsWithTickets {T : Type} (random : nat -> string)
    (ticketData : T) (chatData : option ChatData) : option Correlations :=
  match chatData with
  | None => None
  | Some cd =>
      let st := fold_left (correlate_message random) (messages cd)
                  {| c_chatToTickets := ∅; c_unlinkedChats := []; drawn := 0 |} in
      Some {| ticketToChats := copy_mentions (ticketMentions cd);
              chatToTickets := c_chatToTickets st;
              unlinkedChats := c_unlinkedChats st |}
  end.

(** [msg.ticketIds.length > 0] fails. *)
Definition no_mentions (msg : ChatMessage) : bool :=
  match ticketIds msg with
  | [] => true
  | _ :: _ => false
  end.

(** The messages paired with the key the loop uses for each: a message
    with mentions is recorded under [msgId], drawing a random token when
    it has neither [name] nor [timestamp]; a message without mentions
    computes no key, the key it could be looked up under is its [name]
    or [timestamp], if any.  [n] is the number of tokens drawn before. *)
Fixpoint keyed (random : nat -> string) (n : nat)
    (msgs : list ChatMessage) : list (ChatMessage * option string) :=
  match msgs with
  | [] => []
  | msg :: t =>
      match ticketIds msg with
      | _ :: _ =>
          (msg, Some (msgId msg (random n)))
          :: keyed random (if JS.truthy (stable_key msg) then n else S n) t
      | [] => (msg, stable_key msg) :: keyed random n t
      end
  end.

End Chat.

(** ** YouTrack: fetcher, normalizer, crawler ([youtrack.js])

    Field names follow the source; where two records of the source share a
    field name the projections carry a prefix ([c_] comment, [l_] link
    reference, [t_] ticket, [g_] graph, [s_] stats). *)

Module YouTrack.

(** *** Payloads of the tracker *)

Record RawAuthor : Type := {
  fullName : option string;
  login : option string
}.

Record RawComment : Type := {
  rc_id : string;
  rc_text : option string;
  rc_author : option RawAuthor;
  rc_created : option nat;
  rc_updated : option nat;
  deleted : bool
}.

(** [issues(id,idReadable,summary,state(name),assignee(fullName))] *)
Record RawLinkedIssue : Type := {
  li_idReadable : string;
  li_id : string;
  li_summary : string;
  li_state_name : option string;
  li_assignee_fullName : option string
}.

(** [linkType(name,sourceToTarget,targetToSource)] *)
Record RawLinkType : Type := {
  lt_name : option string;
  sourceToTarget : option string;
  targetToSource : option string
}.

Record RawLink : Type := {
  direction : string;
  linkType : option RawLinkType;
  issues : list RawLinkedIssue
}.

(** The issue payload, with the attributes the crawler and its statistics
    read.  The custom-field table is represented by the lookups the
    normalizer makes into it after flattening: [cf_State] stands for
    [stateFromCustomFields || customFields['State']], [cf_Assignee] for
    [assigneeFromCustomFields || customFields['Assignee']], [cf_Type] and
    [cf_Priority] for [customFields['Type']] and
    [customFields['Priority']]. *)
Record RawIssue : Type := {
  idReadable : string;
  ri_id : string;
  summary : string;
  description : option string;
  state_name : option string;
  priority_name : option string;
  type_name : option string;
  assignee_fullName : option string;
  project_shortName : option string;
  cf_State : option string;
  cf_Assignee : option string;
  cf_Type : option string;
  cf_Priority : option string;
  links : list RawLink
}.

(** The tracker's read interface: the two [axios.get] calls, by base
    address and issue identifier.  Its answers do not change during one
    crawl. *)
Record Tracker : Type := {
  get_issue : string -> string -> JS.response RawIssue;
  get_comments : string -> string -> JS.response (list RawComment)
}.

(** *** Canonical model *)

Record Comment : Type := {
  c_id : string;
  c_text : string;
  c_author : option string;
  createdDate : option nat;
  modifiedDate : option nat
}.

Record LinkRef : Type := {
  l_id : string;
  l_internalId : string;
  l_title : string;
  l_state : string;
  l_assignee : string;
  l_linkType : string;
  l_direction : string;
  dependencyType : option string;
  relationType : option string;
  sourceIssue : option string
}.

Record Ticket : Type := {
  t_id : string;
  t_internalId : string;
  t_type : string;
  t_title : string;
  t_description : string;
  t_state : string;
  t_priority : string;
  t_assignee : string;
  projectKey : string;
  comments : list Comment;
  children : list LinkRef;
  parents : list LinkRef;
  relatedItems : list LinkRef;
  dependencies : list LinkRef;
  linkTypeToParent : option string
}.

(** An entry of [allComments]. *)
Record IssueComments : Type := {
  issueId : string;
  issueTitle : string;
  ic_comments : list Comment
}.

Record Stats : Type := {
  totalChildren : nat;
  totalRelated : nat;
  totalDependencies : nat;
  totalComments : nat;
  childrenByState : gmap string JS.tally;
  childrenByType : gmap string JS.tally;
  childrenByAssignee : gmap string JS.tally;
  totalChatMessages : option nat;
  chatParticipants : option nat;
  ticketMentionsInChat : option nat
}.

Record ProjectGraph : Type := {
  baseUrl : string;
  g_projectKey : string;
  parent : Ticket;
  g_children : list Ticket;
  g_relatedItems : list LinkRef;
  g_dependencies : list LinkRef;
  allComments : list IssueComments;
  stats : Stats
}.

(** *** [fetchIssue], [fetchComments] *)

Definition fetchIssue (env : Tracker) (base issue : string)
    : option RawIssue :=
  match get_issue env base issue with
  | JS.Threw _ => None
  | JS.Data d => d
  end.

Definition comment_of (c : RawComment) : Comment :=
  {| c_id := rc_id c;
     c_text := JS.or_default (rc_text c) "";
     c_author := match rc_author c with
                 | Some a => JS.or_opt (fullName a) (login a)
                 | None => Some "Unknown"
                 end;
     createdDate := rc_created c;
     modifiedDate := rc_updated c |}.

Definition fetchComments (env : Tracker) (base issue : string)
    : list Comment :=
  match get_comments env base issue with
  | JS.Threw _ => []
  | JS.Data d =>
      map comment_of (List.filter (fun c => negb (deleted c)) (default [] d))
  end.

(** *** [parseIssueData] *)

Inductive bucket : Type := Child | Parent | Related | Dependency.

Definition bucket_eqb (a b : bucket) : bool :=
  match a, b with
  | Child, Child | Parent, Parent | Related, Related
  | Dependency, Dependency => true
  | _, _ => false
  end.

(** The body of the inner [forEach] over the issues of one link: the
    item built and the list it is pushed to. *)
Definition link_item (link : RawLink) (linkedIssue : RawLinkedIssue)
    : bucket * LinkRef :=
  let lt := JS.or_default (linkType link ≫= lt_name) "Related" in
  let item b dep rel :=
    (b, {| l_id := li_idReadable linkedIssue;
           l_internalId := li_id linkedIssue;
           l_title := li_summary linkedIssue;
           l_state := JS.or_default (li_state_name linkedIssue) "Unknown";
           l_assignee := JS.or_default (li_assignee_fullName linkedIssue)
                           "Unassigned";
           l_linkType := lt;
           l_direction := direction link;
           dependencyType := dep;
           relationType := rel;
           sourceIssue := None |}) in
  if String.eqb lt "Subtask" then
    if String.eqb (direction link) "OUTWARD"
    then item Child None None else item Parent None None
  else if String.eqb lt "Depend" then
    item Dependency
      (Some (if String.eqb (direction link) "OUTWARD"
             then "Depends on" else "Required for")) None
  else
    item Related None
      (Some (if String.eqb (direction link) "OUTWARD"
             then JS.or_default (linkType link ≫= sourceToTarget) lt
             else JS.or_default (linkType link ≫= targetToSource) lt)).

Definition link_items (ls : list RawLink) : list (bucket * LinkRef) :=
  flat_map (fun link => map (link_item link) (issues link)) ls.

Definition pushed_to (b : bucket) (items : list (bucket * LinkRef))
    : list LinkRef :=
  map snd (List.filter (fun x => bucket_eqb (fst x) b) items).

Definition parseIssueData (issue : option RawIssue)
    (cs : list Comment) : option Ticket :=
  match issue with
  | None => None
  | Some i =>
      let items := link_items (links i) in
      Some {| t_id := idReadable i;
              t_internalId := ri_id i;
              t_type := JS.or_default (JS.or_opt (type_name i) (cf_Type i))
                          "Issue";
              t_title := summary i;
              t_description := JS.or_default (description i) "";
              t_state := JS.or_default
                           (JS.or_opt (state_name i) (cf_State i)) "Unknown";
              t_priority := JS.or_default
                              (JS.or_opt (priority_name i) (cf_Priority i))
                              "Normal";
              t_assignee := JS.or_default
                              (JS.or_opt (assignee_fullName i) (cf_Assignee i))
                              "Unassigned";
              projectKey := JS.or_default (project_shortName i) "";
              comments := cs;
              children := pushed_to Child items;
              parents := pushed_to Parent items;
              relatedItems := pushed_to Related items;
              dependencies := pushed_to Dependency items;
              linkTypeToParent := None |}
  end.

(** *** [crawlYouTrack] *)

(** [Object.assign({}, r, { linkType: lt })] *)
Definition with_linkType (r : LinkRef) (lt : string) : LinkRef :=
  {| l_id := l_id r; l_internalId := l_internalId r; l_title := l_title r;
     l_state := l_state r; l_assignee := l_assignee r; l_linkType := lt;
     l_direction := l_direction r; dependencyType := dependencyType r;
     relationType := relationType r; sourceIssue := sourceIssue r |}.

(** [dep.sourceIssue = linked.id] *)
Definition with_sourceIssue (r : LinkRef) (src : string) : LinkRef :=
  {| l_id := l_id r; l_internalId := l_internalId r; l_title := l_title r;
     l_state := l_state r; l_assignee := l_assignee r;
     l_linkType := l_linkType r; l_direction := l_direction r;
     dependencyType := dependencyType r; relationType := relationType r;
     sourceIssue := Some src |}.

Definition allLinkedItems (p : Ticket) : list LinkRef :=
  map (fun c => with_linkType c "Subtask") (children p)
  ++ map (fun r => with_linkType r (JS.or_default (relationType r) "Related"))
         (relatedItems p).

(** The [forEach] that fills [uniqueLinkedItems], with its [seenIds]. *)
Fixpoint unique_from (seenIds : gset string) (items : list LinkRef)
    : list LinkRef :=
  match items with
  | [] => []
  | item :: t =>
      if decide (l_id item ∈ seenIds) then unique_from seenIds t
      else item :: unique_from ({[l_id item]} ∪ seenIds) t
  end.

Definition uniqueLinkedItems (p : Ticket) : list LinkRef :=
  unique_from ∅ (allLinkedItems p).

(** [result.dependencies.find(function(d) { return d.id === dep.id; })] *)
Definition has_id (i : string) (l : list LinkRef) : bool :=
  existsb (fun d => String.eqb (l_id d) i) l.

(** [linked.dependencies.forEach(...)]: the graph-level list after the
    loop, and the dependencies of the linked ticket themselves (an entry
    that is pushed is the same object in both lists, so it carries its
    [sourceIssue] in both). *)
Fixpoint merge_dependencies (parentId linkedId : string)
    (deps acc : list LinkRef) : list LinkRef * list LinkRef :=
  match deps with
  | [] => (acc, [])
  | dep :: t =>
      if negb (has_id (l_id dep) acc) && negb (String.eqb (l_id dep) parentId)
      then
        let dep' := with_sourceIssue dep linkedId in
        let (acc', t') := merge_dependencies parentId linkedId t (acc ++ [dep']) in
        (acc', dep' :: t')
      else
        let (acc', t') := merge_dependencies parentId linkedId t acc in
        (acc', dep :: t')
  end.

(** The lists of [result] that the loop over the frontier extends. *)
Record crawl : Type := {
  cr_children : list Ticket;
  cr_dependencies : list LinkRef;
  cr_allComments : list IssueComments
}.

Definition push_comments (acc : list IssueComments) (t : Ticket)
    : list IssueComments :=
  match comments t with
  | [] => acc
  | _ :: _ =>
      acc ++ [{| issueId := t_id t; issueTitle := t_title t;
                 ic_comments := comments t |}]
  end.

Definition linked_ticket (t : Ticket) (lt : string) (deps : list LinkRef)
    : Ticket :=
  {| t_id := t_id t; t_internalId := t_internalId t; t_type := t_type t;
     t_title := t_title t; t_description := t_description t;
     t_state := t_state t; t_priority := t_priority t;
     t_assignee := t_assignee t; projectKey := projectKey t;
     comments := comments t; children := children t; parents := parents t;
     relatedItems := relatedItems t; dependencies := deps;
     linkTypeToParent := Some lt |}.

(** The body of [for (let i = 0; i < uniqueLinkedItems.length; i++)]. *)
Definition crawl_item (env : Tracker) (base : string) (parentId : string)
    (st : crawl) (linkedRef : LinkRef) : crawl :=
  match fetchIssue env base (l_id linkedRef) with
  | None => st
  | Some linkedIssue =>
      let linkedComments := fetchComments env base (l_id linkedRef) in
      match parseIssueData (Some linkedIssue) linkedComments with
      | None => st
      | Some linked =>
          let (deps, own) :=
            merge_dependencies parentId (t_id linked) (dependencies linked)
              (cr_dependencies st) in
          {| cr_children :=
               cr_children st
               ++ [linked_ticket linked (l_linkType linkedRef) own];
             cr_dependencies := deps;
             cr_allComments := push_comments (cr_allComments st) linked |}
      end
  end.

Definition crawl_items (env : Tracker) (base : string) (parentId : string)
    (frontier : list LinkRef) (st : crawl) : crawl :=
  fold_left (crawl_item env base parentId) frontier st.

(** One of the three histograms of the children: for each child
    [stats.h[key] = (stats.h[key] || 0) + 1], the key being a field of the
    child or its default. *)
Definition histogram (f : Ticket -> string) (dflt : string)
    (l : list Ticket) : gmap string JS.tally :=
  fold_left (fun m c => JS.increment m (JS.or_default (Some (f c)) dflt)) l ∅.

Definition with_dependencies (t : Ticket) (deps : list LinkRef) : Ticket :=
  {| t_id := t_id t; t_internalId := t_internalId t; t_type := t_type t;
     t_title := t_title t; t_description := t_description t;
     t_state := t_state t; t_priority := t_priority t;
     t_assignee := t_assignee t; projectKey := projectKey t;
     comments := comments t; children := children t; parents := parents t;
     relatedItems := relatedItems t; dependencies := deps;
     linkTypeToParent := linkTypeToParent t |}.

(** [crawlYouTrack].  [result.dependencies] is the very array
    [parent.dependencies], so the parent of the returned graph carries the
    merged list; [result.relatedItems] is re-assigned, which leaves
    [parent.relatedItems] as parsed. *)
Definition crawlYouTrack (env : Tracker) (base issue : string)
    : JS.result ProjectGraph :=
  match fetchIssue env base issue with
  | None => JS.Throw ("Could not fetch issue " +:+ issue)
  | Some mainIssue =>
      let mainComments := fetchComments env base issue in
      match parseIssueData (Some mainIssue) mainComments with
      | None => JS.Throw "TypeError"
      | Some p =>
          let st0 := {| cr_children := [];
                        cr_dependencies := dependencies p;
                        cr_allComments := push_comments [] p |} in
          let st := crawl_items env base (t_id p) (uniqueLinkedItems p) st0 in
          let cleared : list LinkRef := [] in
          JS.Return
            {| baseUrl := base;
               g_projectKey := projectKey p;
               parent := with_dependencies p (cr_dependencies st);
               g_children := cr_children st;
               g_relatedItems := cleared;
               g_dependencies := cr_dependencies st;
               allComments := cr_allComments st;
               stats :=
                 {| totalChildren := length (cr_children st);
                    totalRelated := length cleared;
                    totalDependencies := length (cr_dependencies st);
                    totalComments :=
                      fold_left (fun sum ic => sum + length (ic_comments ic))
                                (cr_allComments st) 0;
                    childrenByState :=
                      histogram t_state "Unknown" (cr_children st);
                    childrenByType :=
                      histogram t_type "Issue" (cr_children st);
                    childrenByAssignee :=
                      histogram t_assignee "Unassigned" (cr_children st);
                    totalChatMessages := None;
                    chatParticipants := None;
                    ticketMentionsInChat := None |} |}
      end
  end.

(** The parsed root of a crawl, before the crawl extends its dependency
    list. *)
Definition root_ticket (env : Tracker) (base issue : string)
    : option Ticket :=
  parseIssueData (fetchIssue env base issue) (fetchComments env base issue).

End YouTrack.

(** ** Azure DevOps variant: fetcher and crawler ([server.js]) *)

Module Ado.

(** A comment as the service returns it.  [isDeleted] is the deletion
    flag of the payload; the program reads [id], [text], [createdBy],
    [createdDate] and [modifiedDate] only. *)
Record RawComment : Type := {
  rc_id : nat;
  rc_text : option string;
  createdBy_displayName : option (option string);
  rc_createdDate : option string;
  rc_modifiedDate : option string;
  isDeleted : bool
}.

Record Comment : Type := {
  c_id : nat;
  c_text : option string;
  c_author : option string;
  createdDate : option string;
  modifiedDate : option string
}.

Record Relation : Type := {
  rel : string;
  url : string
}.

(** [item.id], the fields read from [item.fields], [item.relations]. *)
Record RawWorkItem : Type := {
  ri_id : string;
  WorkItemType : option string;
  Title : option string;
  State : option string;
  AssignedTo_displayName : option (option string);
  ri_relations : option (list Relation)
}.

(** An element of [relationTypes]: a string, or the member of
    [Object.prototype] that the lookup in [RELATION_TYPES] found. *)
Inductive relationName : Type :=
| Named (name : string)
| Member (key : string).

Record WorkItem : Type := {
  w_id : string;
  w_type : option string;
  w_title : option string;
  w_state : option string;
  w_assignee : option string;
  relations : list Relation;
  comments : list Comment;
  relationToParent : option (list relationName)
}.

(** The two [axios.get] calls, by [base] address and work-item id; the
    comments answer is [response.data], whose [comments] may be absent. *)
Record Service : Type := {
  get_workitem : string -> string -> JS.response RawWorkItem;
  get_comments : string -> string -> JS.response (option (list RawComment))
}.

Definition comment_of (c : RawComment) : Comment :=
  {| c_id := rc_id c;
     c_text := rc_text c;
     c_author := match createdBy_displayName c with
                 | Some n => n
                 | None => Some "Unknown"
                 end;
     createdDate := rc_createdDate c;
     modifiedDate := rc_modifiedDate c |}.

(** [fetchComments]: every comment of the answer is mapped. *)
Definition fetchComments (env : Service) (base workitemId : string)
    : list Comment :=
  match get_comments env base workitemId with
  | JS.Threw _ => []
  | JS.Data None => []
  | JS.Data (Some data) => map comment_of (default [] data)
  end.


Definition fetchWorkItem (env : Service) (base i : string)
    (includeComments : bool) : option WorkItem :=
  match get_workitem env base i with
  | JS.Threw _ => None
  | JS.Data None => None
  | JS.Data (Some item) =>
      Some {| w_id := ri_id item;
              w_type := WorkItemType item;
              w_title := Title item;
              w_state := State item;
              w_assignee := match AssignedTo_displayName item with
                            | Some n => n
                            | None => Some "Unassigned"
                            end;
              relations := default [] (ri_relations item);
              comments := if includeComments
                          then fetchComments env base i else [];
              relationToParent := None |}
  end.

(** [s.includes(sub)] *)
Fixpoint includes_at (sub : list ascii) (l : list ascii) : bool :=
  JS.is_prefix sub l
  || match l with
     | [] => false
     | _ :: t => includes_at sub t
     end.

Definition includes (s sub : string) : bool :=
  includes_at (list_ascii_of_string sub) (list_ascii_of_string s).

(** [r.url.split("/").pop()] *)
Fixpoint last_segment_aux (cur : string) (s : string) : string :=
  match s with
  | EmptyString => cur
  | String a t =>
      if Ascii.eqb a "/" then last_segment_aux EmptyString t
      else last_segment_aux (cur +:+ String a EmptyString) t
  end.

Definition last_segment (s : string) : string :=
  last_segment_aux EmptyString s.

(** The classification of one relation of the parent: pushed to
    [childIds], to [relatedIds], or to neither. *)
Definition is_child (r : Relation) : bool :=
  String.eqb (rel r) "System.LinkTypes.Hierarchy-Forward".

Definition is_related (r : Relation) : bool :=
  negb (is_child r)
  && negb (String.eqb (rel r) "System.LinkTypes.Hierarchy-Reverse")
  && negb (includes (rel r) "Hyperlink")
  && negb (includes (rel r) "AttachedFile")
  && negb (includes (rel r) "ArtifactLink").

Definition childIds (p : WorkItem) : list string :=
  map (fun r => last_segment (url r)) (List.filter is_child (relations p)).

Definition relatedIds (p : WorkItem) : list string :=
  map (fun r => last_segment (url r)) (List.filter is_related (relations p)).

(** [[...new Set(relatedIds)].filter(rid => !childIds.includes(rid))] *)
Definition uniqueRelatedIds (p : WorkItem) : list string :=
  List.filter (fun rid => negb (existsb (String.eqb rid) (childIds p)))
         (Chat.distinct (relatedIds p)).

Record WorkItemComments : Type := {
  workItemId : string;
  workItemTitle : option string;
  wc_comments : list Comment
}.

Record Graph : Type := {
  org : string;
  project : string;
  parent : WorkItem;
  children : list WorkItem;
  relatedItems : list WorkItem;
  allComments : list WorkItemComments;
  totalChildren : nat;
  totalRelated : nat;
  totalComments : nat
}.

Definition push_comments (acc : list WorkItemComments) (t : WorkItem)
    : list WorkItemComments :=
  match comments t with
  | [] => acc
  | _ :: _ =>
      acc ++ [{| workItemId := w_id t; workItemTitle := w_title t;
                 wc_comments := comments t |}]
  end.

Definition RELATION_TYPES : list (string * string) :=
  [("System.LinkTypes.Hierarchy-Forward", "Child");
   ("System.LinkTypes.Hierarchy-Reverse", "Parent");
   ("System.LinkTypes.Related", "Related");
   ("System.LinkTypes.Dependency-Forward", "Successor");
   ("System.LinkTypes.Dependency-Reverse", "Predecessor");
   ("Microsoft.VSTS.Common.Affects-Forward", "Affects");
   ("Microsoft.VSTS.Common.Affects-Reverse", "Affected By");
   ("System.LinkTypes.Duplicate-Forward", "Duplicate Of");
   ("System.LinkTypes.Duplicate-Reverse", "Duplicated By");
   ("Microsoft.VSTS.Common.TestedBy-Forward", "Tested By");
   ("Microsoft.VSTS.Common.TestedBy-Reverse", "Tests")].

(** [RELATION_TYPES[relType] || relType] *)
Definition friendlyType (relType : string) : relationName :=
  match find (fun kv => String.eqb (fst kv) relType) RELATION_TYPES with
  | Some kv => Named (snd kv)
  | None => if JS.on_prototype relType then Member relType else Named relType
  end.

(** The [forEach] over the relations of the parent, as far as
    [relationsMap] goes: under each target id the friendly names of the
    relations to it, in order ([if (!relationsMap[targetId]) ...;
    relationsMap[targetId].relationTypes.push(friendlyType)]); [None] when
    it throws. *)
Definition relationsMap (p : WorkItem)
    : option (gmap string (list relationName)) :=
  JS.push_all (fun r => last_segment (url r)) (fun r => friendlyType (rel r))
              ∅ (relations p).

(** [relationsMap[rid] ? relationsMap[rid].relationTypes : ["Related"]] *)
Definition relation_types (rmap : gmap string (list relationName))
    (rid : string) : option (list relationName) :=
  match rmap !! rid with
  | Some types => Some types
  | None => if JS.on_prototype rid then None else Some [Named "Related"]
  end.

Definition with_relation (t : WorkItem) (types : option (list relationName))
    : WorkItem :=
  {| w_id := w_id t; w_type := w_type t; w_title := w_title t;
     w_state := w_state t; w_assignee := w_assignee t;
     relations := relations t; comments := comments t;
     relationToParent := types |}.

(** [crawlAdo]; [base] is the address built from [org] and [project].
    The loop over the relations runs, and may throw, before any child is
    fetched.  Of the statistics the three totals are kept. *)
Definition crawlAdo (env : Service) (o p i : string) : JS.result Graph :=
  let base := "https://dev.azure.com/" +:+ o +:+ "/" +:+ p +:+ "/_apis/wit" in
  match fetchWorkItem env base i true with
  | None => JS.Throw ("Could not fetch work item " +:+ i)
  | Some par =>
      match relationsMap par with
      | None => JS.Throw "TypeError"
      | Some rmap =>
          let kids :=
            omap (fun cid => fetchWorkItem env base cid true) (childIds par) in
          let rels :=
            omap (fun rid =>
                    (fun r => with_relation r (relation_types rmap rid))
                    <$> fetchWorkItem env base rid false)
                 (uniqueRelatedIds par) in
          let cs := fold_left push_comments kids (push_comments [] par) in
          JS.Return
            {| org := o; project := p; parent := par;
               children := kids; relatedItems := rels; allComments := cs;
               totalChildren := length kids;
               totalRelated := length rels;
               totalComments :=
                 fold_left (fun sum wc => sum + length (wc_comments wc)) cs 0 |}
      end
  end.

End Ado.

(** ** History store (both servers) *)

Module History.

Definition MAX_HISTORY : nat := 50.

(** [analysisHistory.unshift(item);
     if (analysisHistory.length > MAX_HISTORY) analysisHistory.pop();] *)
Definition store {Item : Type} (item : Item) (analysisHistory : list Item)
    : list Item :=
  let h := item :: analysisHistory in
  if MAX_HISTORY <? length h then removelast h else h.

(** The parts of the model's answer that the history reads:
    [analysis.projectOverview?.name] and [?.status]. *)
Record Analysis : Type := {
  overview_name : option string;
  overview_status : option string
}.

(** The data handed to the history by the YouTrack server: the graph and
    the optional chat enrichment. *)
Record Data : Type := {
  graph : YouTrack.ProjectGraph;
  chatMessages : option Chat.ChatData;
  correlations : option Chat.Correlations
}.

Record HistoryItem : Type := {
  id : string;
  issueId : string;
  h_url : string;
  timestamp : string;
  projectName : string;
  status : string;
  totalTickets : nat;
  totalComments : nat;
  hasChatData : bool;
  data : Data;
  analysis : Analysis
}.

(** [const historyItem = {...}] of [youtrack.js]; [now] and [iso] are
    [Date.now().toString()] and [new Date().toISOString()]. *)
Definition historyItem (now iso : string) (issue u : string)
    (d : Data) (a : Analysis) : HistoryItem :=
  let g := graph d in
  {| id := now;
     issueId := issue;
     h_url := u;
     timestamp := iso;
     projectName :=
       JS.or_default
         (JS.or_opt (overview_name a)
                    (Some (YouTrack.t_title (YouTrack.parent g))))
         ("Issue " +:+ issue);
     status :=
       JS.or_default
         (JS.or_opt (overview_status a)
                    (Some (YouTrack.t_state (YouTrack.parent g))))
         "N/A";
     totalTickets := length (YouTrack.g_children g) + 1;
     totalComments := YouTrack.totalComments (YouTrack.stats g);
     hasChatData :=
       match chatMessages d with
       | Some cd => 0 <? length (Chat.messages cd)
       | None => false
       end;
     data := d;
     analysis := a |}.

(** [addToHistory] of [youtrack.js]: the new history and the identifier
    of the entry. *)
Definition addToHistory (now iso : string) (issue u : string)
    (d : Data) (a : Analysis) (analysisHistory : list HistoryItem)
    : list HistoryItem * string :=
  let item := historyItem now iso issue u d a in
  (store item analysisHistory, id item).

Record AdoHistoryItem : Type := {
  a_id : string;
  ticketId : string;
  a_url : string;
  a_timestamp : string;
  a_projectName : string;
  a_status : string;
  a_totalTickets : nat;
  a_totalComments : nat;
  a_data : Ado.Graph;
  a_analysis : Analysis
}.

Definition adoHistoryItem (now iso : string) (ticket u : string)
    (d : Ado.Graph) (a : Analysis) : AdoHistoryItem :=
  {| a_id := now;
     ticketId := ticket;
     a_url := u;
     a_timestamp := iso;
     a_projectName := JS.or_default (overview_name a) ("Ticket " +:+ ticket);
     a_status := JS.or_default (overview_status a) "N/A";
     a_totalTickets := length (Ado.children d) + 1;
     a_totalComments := Ado.totalComments d;
     a_data := d;
     a_analysis := a |}.

(** [addToHistory] of the Azure DevOps server. *)
Definition addToHistoryAdo (now iso : string) (ticket u : string)
    (d : Ado.Graph) (a : Analysis) (analysisHistory : list AdoHistoryItem)
    : list AdoHistoryItem * string :=
  let item := adoHistoryItem now iso ticket u d a in
  (store item analysisHistory, a_id item).

(** One call of [addToHistory]: its arguments and the clock readings. *)
Record call (D : Type) : Type := Call {
  at_now : string;
  at_iso : string;
  of_issue : string;
  of_url : string;
  of_data : D;
  of_analysis : Analysis
}.
Arguments Call {D}.
Arguments at_now {D}.
Arguments at_iso {D}.
Arguments of_issue {D}.
Arguments of_url {D}.
Arguments of_data {D}.
Arguments of_analysis {D}.

Definition item_of (c : call Data) : HistoryItem :=
  historyItem (at_now c) (at_iso c) (of_issue c) (of_url c)
              (of_data c) (of_analysis c).

Definition ado_item_of (c : call Ado.Graph) : AdoHistoryItem :=
  adoHistoryItem (at_now c) (at_iso c) (of_issue c) (of_url c)
                 (of_data c) (of_analysis c).

Definition add (h : list HistoryItem) (c : call Data) : list HistoryItem :=
  fst (addToHistory (at_now c) (at_iso c) (of_issue c) (of_url c)
                    (of_data c) (of_analysis c) h).

Definition add_ado (h : list AdoHistoryItem) (c : call Ado.Graph)
    : list AdoHistoryItem :=
  fst (addToHistoryAdo (at_now c) (at_iso c) (of_issue c) (of_url c)
                       (of_data c) (of_analysis c) h).

(** The history after a sequence of calls, starting from the empty one. *)
Definition after (calls : list (call Data)) : list HistoryItem :=
  fold_left add calls [].

Definition after_ado (calls : list (call Ado.Graph)) : list AdoHistoryItem :=
  fold_left add_ado calls [].

End History.

(** ** The analysis route of the YouTrack server ([POST /api/analyze]) *)

Module Server.

Import Regex.

Record ParsedUrl : Type := {
  p_baseUrl : string;
  p_issueId : string
}.

Definition is_letter (a : ascii) : bool := JS.is_upper a || JS.is_lower a.

(** One character of a literal under the [i] flag. *)
Definition either (lower upper : ascii) : re :=
  Chr (fun a => Ascii.eqb a lower || Ascii.eqb a upper).

(** [/([^\/]+)\/issue\/([A-Z]+-\d+)/i] *)
Definition issuePattern : re :=
  seqs [Grp 1 (plus (Chr Chat.not_slash));
        chr "/";
        either "i" "I"; either "s" "S"; either "s" "S"; either "u" "U";
        either "e" "E";
        chr "/";
        Grp 2 (seqs [plus (Chr is_letter); chr "-"; plus d])].

(** [url.indexOf(sub)] *)
Fixpoint index_from (sub l : list ascii) (i : nat) : option nat :=
  if JS.is_prefix sub l then Some i
  else match l with
       | [] => None
       | _ :: t => index_from sub t (S i)
       end.

(** [url.substring(0, url.indexOf(sub))]: a negative end counts as 0. *)
Definition up_to (sub url : string) : string :=
  match index_from (list_ascii_of_string sub) (list_ascii_of_string url) 0 with
  | Some i => string_of_list_ascii (firstn i (list_ascii_of_string url))
  | None => ""
  end.

Definition parseYouTrackUrl (url : string) : option ParsedUrl :=
  match exec issuePattern url with
  | Some m => Some {| p_baseUrl := up_to "/issue/" url;
                      p_issueId := group 2 m |}
  | None => None
  end.

(** [req.body] *)
Record Request : Type := {
  r_url : string;
  chatExport : option string;
  chatUrl : option string
}.

(** What the route answers: status 400, status 500, or the report. *)
Inductive Reply : Type :=
| BadRequest (error : string)
| ServerError (error : string)
| Report (tickets : History.Data) (analysis : History.Analysis)
         (historyId : string).

(** The collaborators of one request: the tracker, the chat service, the
    random source, the briefing service ([analyze], which may throw) and
    the clock. *)
Record Services : Type := {
  tracker : YouTrack.Tracker;
  chat : Chat.ChatEnv;
  random : nat -> string;
  analyze : History.Data -> JS.result History.Analysis;
  now : string;
  iso : string
}.

(** [data.chatMessages = chatData; data.correlations = ...;] and the three
    counts added to [data.stats]. *)
Definition with_chat (random : nat -> string) (g : YouTrack.ProjectGraph)
    (cd : Chat.ChatData) : History.Data :=
  let st := YouTrack.stats g in
  {| History.graph :=
       {| YouTrack.baseUrl := YouTrack.baseUrl g;
          YouTrack.g_projectKey := YouTrack.g_projectKey g;
          YouTrack.parent := YouTrack.parent g;
          YouTrack.g_children := YouTrack.g_children g;
          YouTrack.g_relatedItems := YouTrack.g_relatedItems g;
          YouTrack.g_dependencies := YouTrack.g_dependencies g;
          YouTrack.allComments := YouTrack.allComments g;
          YouTrack.stats :=
            {| YouTrack.totalChildren := YouTrack.totalChildren st;
               YouTrack.totalRelated := YouTrack.totalRelated st;
               YouTrack.totalDependencies := YouTrack.totalDependencies st;
               YouTrack.totalComments := YouTrack.totalComments st;
               YouTrack.childrenByState := YouTrack.childrenByState st;
               YouTrack.childrenByType := YouTrack.childrenByType st;
               YouTrack.childrenByAssignee := YouTrack.childrenByAssignee st;
               YouTrack.totalChatMessages := Some (Chat.totalMessages cd);
               YouTrack.chatParticipants :=
                 Some (length (Chat.participants cd));
               YouTrack.ticketMentionsInChat :=
                 Some (size (Chat.ticketMentions cd)) |} |};
     History.chatMessages := Some cd;
     History.correlations :=
       Chat.correlateChatsWithTickets random g (Some cd) |}.

Definition without_chat (g : YouTrack.ProjectGraph) : History.Data :=
  {| History.graph := g; History.chatMessages := None;
     History.correlations := None |}.

(** The chat input of a request: the export text when it is not blank,
    otherwise the chat address; the page loop runs with fuel for
    [maxPages] iterations. *)
Definition chat_of (sv : Services) (req : Request) : option Chat.ChatData :=
  if JS.truthy (chatExport req)
     && negb (String.eqb (JS.trim (JS.or_default (chatExport req) "")) "")
  then Some (Chat.parseGoogleChatExport (JS.or_default (chatExport req) ""))
  else if JS.truthy (chatUrl req)
  then match Chat.fetchGoogleChatMessages Chat.maxPages (chat sv)
               (JS.or_default (chatUrl req) "") with
       | Some (cd, _) => cd
       | None => None
       end
  else None.

(** The handler of [POST /api/analyze]: the reply and the history after
    the request. *)
Definition analyze_route (sv : Services) (req : Request)
    (analysisHistory : list History.HistoryItem)
    : Reply * list History.HistoryItem :=
  match parseYouTrackUrl (r_url req) with
  | None => (BadRequest "Invalid YouTrack URL", analysisHistory)
  | Some parsed =>
      match YouTrack.crawlYouTrack (tracker sv) (p_baseUrl parsed)
              (p_issueId parsed) with
      | JS.Throw e => (ServerError e, analysisHistory)
      | JS.Return g =>
          let data :=
            match chat_of sv req with
            | Some cd => with_chat (random sv) g cd
            | None => without_chat g
            end in
          match analyze sv data with
          | JS.Throw e => (ServerError e, analysisHistory)
          | JS.Return analysis =>
              let (h, historyId) :=
                History.addToHistory (now sv) (iso sv) (p_issueId parsed)
                  (r_url req) data analysis analysisHistory in
              (Report data analysis historyId, h)
          end
      end
  end.

End Server.

(** ** What the patterns denote *)

Module Semantics.

Import Regex.

(** Zero or more steps of a relation between positions (with captures). *)
Inductive iter (R : pos -> caps -> pos -> caps -> Prop)
    : pos -> caps -> pos -> caps -> Prop :=
| iter_stop s c : iter R s c s c
| iter_step s c s1 c1 s2 c2 :
    R s c s1 c1 -> iter R s1 c1 s2 c2 -> iter R s c s2 c2.

(** What a pattern denotes: the pairs of positions (and captures) it can
    lead from and to. *)
Fixpoint den (r : re) (s : pos) (c : caps) (s' : pos) (c' : caps) : Prop :=
  match r with
  | Eps => s' = s /\ c' = c
  | Chr p =>
      exists a t, rest s = a :: t /\ p a = true
                  /\ s' = Pos (Some a) (S (idx s)) t /\ c' = c
  | Seq r1 r2 => exists s1 c1, den r1 s c s1 c1 /\ den r2 s1 c1 s' c'
  | Alt r1 r2 => den r1 s c s' c' \/ den r2 s c s' c'
  | Star _ r' => iter (den r') s c s' c'
  | Grp n r' => exists c1, den r' s c s' c1 /\ c' = (n, between s s') :: c1
  | Bol => idx s = 0 /\ s' = s /\ c' = c
  | Eol => rest s = [] /\ s' = s /\ c' = c
  | WordB =>
      xorb (word_at (before s)) (word_at (head (rest s))) = true
      /\ s' = s /\ c' = c
  end.

(** The words a pattern consumes, assertions consuming nothing. *)
Fixpoint lang (r : re) (w : list ascii) : Prop :=
  match r with
  | Eps | Bol | Eol | WordB => w = []
  | Chr p => exists a, w = [a] /\ p a = true
  | Seq r1 r2 => exists w1 w2, w = w1 ++ w2 /\ lang r1 w1 /\ lang r2 w2
  | Alt r1 r2 => lang r1 w \/ lang r2 w
  | Star _ r' => exists ws, w = concat ws /\ Forall (lang r') ws
  | Grp _ r' => lang r' w
  end.

(** The loop of a quantifier, as [run] unfolds it. *)
Definition star_loop
    (body : pos -> caps -> (pos -> caps -> option (pos * caps))
            -> option (pos * caps))
    (g : bool) (k : pos -> caps -> option (pos * caps))
    : nat -> pos -> caps -> option (pos * caps) :=
  fix loop (n : nat) (s : pos) (c : caps) {struct n} : option (pos * caps) :=
    match n with
    | O => k s c
    | S n' =>
        if g then
          match body s c (fun s' c' =>
                  if idx s <? idx s' then loop n' s' c' else None) with
          | Some x => Some x
          | None => k s c
          end
        else
          match k s c with
          | Some x => Some x
          | None => body s c (fun s' c' =>
                  if idx s <? idx s' then loop n' s' c' else None)
          end
    end.

(** A lower bound on the length of the words of a pattern. *)
Fixpoint min_len (r : re) : nat :=
  match r with
  | Eps | Bol | Eol | WordB => 0
  | Chr _ => 1
  | Seq r1 r2 => min_len r1 + min_len r2
  | Alt r1 r2 => Nat.min (min_len r1) (min_len r2)
  | Star _ _ => 0
  | Grp _ r' => min_len r'
  end.

(** A ticket identifier: letters, a hyphen, digits. *)
Definition shaped (letter : ascii -> bool) (i : string) : Prop :=
  exists letters digits,
    i = string_of_list_ascii (letters ++ "-"%char :: digits)
    /\ letters <> [] /\ Forall (fun a => letter a = true) letters
    /\ digits <> [] /\ Forall (fun a => JS.is_digit a = true) digits.

Definition ticket_shaped : string -> Prop := shaped JS.is_upper.

(** Whether a pattern holds a capture group. *)
Fixpoint has_group (r : re) : bool :=
  match r with
  | Grp _ _ => true
  | Seq r1 r2 | Alt r1 r2 => has_group r1 || has_group r2
  | Star _ r' => has_group r'
  | _ => false
  end.

End Semantics.

(** ** Invariants of the export parser *)

Module Parser.

Import Chat.

(** A property holds of every message pushed so far and of the open one. *)
Definition holds (P : ChatMessage -> Prop) (st : parser) : Prop :=
  Forall P (p_messages st)
  /\ (forall cm, currentMessage st = Some cm -> P cm).

(** The message opened by a Header A line, given its match. *)
Definition opened_A (m : Regex.caps) : ChatMessage :=
  export_message (JS.trim (Regex.group 1 m)) ""
    (JS.trim (JS.strip_suffix ", Edited" (Regex.group 2 m))) [].

(** The message opened by a Header B line, given its match. *)
Definition opened_B (m : Regex.caps) : ChatMessage :=
  export_message (JS.trim (Regex.group 2 m)) (JS.trim (Regex.group 3 m))
    (Regex.group 1 m)
    (Regex.exec_all ticketRegex (JS.trim (Regex.group 3 m))).

(** The key of a message is its own non-empty timestamp. *)
Definition keyed_by_timestamp (msg : ChatMessage) : Prop :=
  name msg = None
  /\ exists ts, timestamp msg = Some ts /\ ts <> "" /\ stable_key msg = Some ts.

(** No line of the transcript is handled as a Header B line. *)
Definition header_A_only (chatText : string) : Prop :=
  forall line,
    In line (JS.split_lines chatText) ->
    Regex.exec timePattern (JS.trim line) <> None
    \/ Regex.exec legacyPattern (JS.trim line) = None.

End Parser.



(** ** What the chat aggregates hold *)

Module Aggregates.

Import Chat.

(** The ticketIds of the first message, in order, that has mentions and
    is keyed by [k]. *)
Fixpoint first_linked (k : string)
    (keyed_msgs : list (ChatMessage * option string)) : option (list string) :=
  match keyed_msgs with
  | [] => None
  | (msg, key) :: t =>
      if no_mentions msg then first_linked k t
      else match key with
           | Some k' => if String.eqb k' k then Some (ticketIds msg)
                        else first_linked k t
           | None => first_linked k t
           end
  end.

(** The chat data of either parser. *)
Inductive parsed_chat (cd : ChatData) : Prop :=
| from_api parsed raw : assemble parsed raw = Some cd -> parsed_chat cd
| from_export chatText : cd = parseGoogleChatExport chatText -> parsed_chat cd.

(** The service never returns more than the 100 messages a request asks
    for ([pageSize=100]). *)
Definition honours_page_size (env : ChatEnv) : Prop :=
  forall n url page ms,
    chat_get env n url = JS.Data (Some page) ->
    page_messages page = Some ms -> length ms <= 100.

(** [response.data.messages] of a page, when present. *)
Definition messages_of (page : Page) : list RawMessage :=
  default [] (page_messages page).

End Aggregates.


(** ** Measures of a crawled graph *)

Module Measures.

Import YouTrack.

(** The number of comments over a list of tickets. *)
Definition comment_count (l : list Ticket) : nat :=
  list_sum (map (fun t => length (comments t)) l).

(** The number of comments over the entries of [allComments]. *)
Definition entry_count (l : list IssueComments) : nat :=
  list_sum (map (fun ic => length (ic_comments ic)) l).

(** The cell of a histogram that has counted [n] elements: no property
    when there are none. *)
Definition cell (n : nat) : option JS.tally :=
  match n with
  | 0 => None
  | S _ => Some (JS.Count n)
  end.

End Measures.

(** ** The history routes (both servers) *)

Module Routes.

Section Store.

Context {Item : Type}.
Variable ident : Item -> string.

(** [analysisHistory.find(function(h) { return h.id === id; })] *)
Definition find_item (i : string) (h : list Item) : option Item :=
  List.find (fun x => String.eqb (ident x) i) h.

(** [analysisHistory.findIndex(function(h) { return h.id === id; })],
    [None] standing for -1. *)
Fixpoint findIndex (i : string) (h : list Item) : option nat :=
  match h with
  | [] => None
  | x :: t => if String.eqb (ident x) i then Some 0
              else S <$> findIndex i t
  end.

(** [analysisHistory.splice(index, 1)] *)
Definition splice_one (index : nat) (h : list Item) : list Item :=
  firstn index h ++ skipn (S index) h.

(** The answers of the two routes that take an id: status 404 or
    success. *)
Inductive answer (A : Type) : Type :=
| NotFound (error : string)
| Ok (a : A).

(** [GET /api/history/:id] *)
Definition get_route (i : string) (h : list Item) : answer Item :=
  match find_item i h with
  | None => NotFound Item "History item not found"
  | Some item => Ok Item item
  end.

(** [DELETE /api/history/:id]: the answer and the history afterwards. *)
Definition delete_route (i : string) (h : list Item)
    : answer unit * list Item :=
  match findIndex i h with
  | None => (NotFound unit "History item not found", h)
  | Some index => (Ok unit tt, splice_one index h)
  end.

End Store.

(** A request that changes the history of the YouTrack server. *)
Inductive change : Type :=
| Analyzed (c : History.call History.Data)
| Deleted (i : string).

Definition apply_change (h : list History.HistoryItem) (c : change)
    : list History.HistoryItem :=
  match c with
  | Analyzed c => History.add h c
  | Deleted i => snd (delete_route History.id i h)
  end.

End Routes.

(** ** Addresses *)

Module Address.


End Address.

(** ** The analysis route of the Azure DevOps server *)

Module AdoServer.

Import Regex.

Record ParsedAdoUrl : Type := {
  p_org : string;
  p_project : string;
  p_id : string
}.

Definition not_dot (a : ascii) : bool := negb (Ascii.eqb a ".").

(** [/dev\.azure\.com\/([^\/]+)\/([^\/]+)\/_workitems\/edit\/(\d+)/] *)
Definition azurePattern : re :=
  seqs [lit "dev.azure.com/";
        Grp 1 (plus (Chr Chat.not_slash));
        chr "/";
        Grp 2 (plus (Chr Chat.not_slash));
        lit "/_workitems/edit/";
        Grp 3 (plus d)].

(** [/([^\.]+)\.visualstudio\.com\/([^\/]+)\/_workitems\/edit\/(\d+)/] *)
Definition visualstudioPattern : re :=
  seqs [Grp 1 (plus (Chr not_dot));
        lit ".visualstudio.com/";
        Grp 2 (plus (Chr Chat.not_slash));
        lit "/_workitems/edit/";
        Grp 3 (plus d)].

Definition parseAdoUrl (url : string) : option ParsedAdoUrl :=
  match exec azurePattern url with
  | Some m => Some {| p_org := group 1 m; p_project := group 2 m;
                      p_id := group 3 m |}
  | None =>
      match exec visualstudioPattern url with
      | Some m2 => Some {| p_org := group 1 m2; p_project := group 2 m2;
                           p_id := group 3 m2 |}
      | None => None
      end
  end.

(** What the route answers: status 400, status 500, or the report. *)
Inductive Reply : Type :=
| BadRequest (error : string)
| ServerError (error : string)
| Report (tickets : Ado.Graph) (analysis : History.Analysis)
         (historyId : string).

(** The collaborators of one request: the work-item service, the
    briefing service ([analyze], which may throw) and the clock. *)
Record Services : Type := {
  service : Ado.Service;
  analyze : Ado.Graph -> JS.result History.Analysis;
  now : string;
  iso : string
}.

(** The handler of [POST /api/analyze], for a request with the address
    [url]: the reply and the history after the request. *)
Definition analyze_route (sv : Services) (url : string)
    (analysisHistory : list History.AdoHistoryItem)
    : Reply * list History.AdoHistoryItem :=
  match parseAdoUrl url with
  | None => (BadRequest "Invalid URL", analysisHistory)
  | Some parsed =>
      match Ado.crawlAdo (service sv) (p_org parsed) (p_project parsed)
              (p_id parsed) with
      | JS.Throw e => (ServerError e, analysisHistory)
      | JS.Return data =>
          match analyze sv data with
          | JS.Throw e => (ServerError e, analysisHistory)
          | JS.Return analysis =>
              let (h, historyId) :=
                History.addToHistoryAdo (now sv) (iso sv) (p_id parsed)
                  url data analysis analysisHistory in
              (Report data analysis historyId, h)
          end
      end
  end.

End AdoServer.

(** ** The history panel of the page (both servers) *)

Module Client.

(** The [intervals] object, in the order of its keys. *)
Definition intervals : list (string * Z) :=
  [("year", 31536000%Z); ("month", 2592000%Z); ("week", 604800%Z);
   ("day", 86400%Z); ("hour", 3600%Z); ("minute", 60%Z)].

(** [interval + ' ' + key + (interval > 1 ? 's' : '') + ' ago'] *)
Definition phrase (interval : Z) (key : string) : string :=
  pretty interval +:+ " " +:+ key
    +:+ (if (1 <? interval)%Z then "s" else "") +:+ " ago".

(** The loop [for (var key in intervals)] with its fall-through. *)
Fixpoint scan (seconds : Z) (l : list (string * Z)) : string :=
  match l with
  | [] => "just now"
  | (key, size) :: t =>
      let interval := (seconds / size)%Z in
      if (1 <=? interval)%Z then phrase interval key else scan seconds t
  end.

(** [getTimeAgo(date)] for a valid date, [now] and [date] in
    milliseconds; both divisions are rounded down by [Math.floor]. *)
Definition getTimeAgo (now date : Z) : string :=
  scan ((now - date) / 1000)%Z intervals.

End Client.

(** ** The text of the briefing ([analyze] of [youtrack.js]) *)

Module Briefing.

Import Regex.

(** [[\s\S]] *)
Definition any : re := Chr (fun _ => true).

(** The pattern of the fenced block: three backquotes and [json],
    [\s*([\s\S]*?)\s*], three backquotes. *)
Definition fencePattern : re :=
  seqs [lit "```json"; star sp; Grp 1 (Star false any); star sp; lit "```"].

(** [txt.indexOf(a)] for one code unit, [None] for -1. *)
Fixpoint indexOf (a : ascii) (l : list ascii) : option nat :=
  match l with
  | [] => None
  | b :: t => if Ascii.eqb b a then Some 0 else S <$> indexOf a t
  end.

(** [txt.lastIndexOf(a)] *)
Fixpoint lastIndexOf (a : ascii) (l : list ascii) : option nat :=
  match l with
  | [] => None
  | b :: t =>
      match lastIndexOf a t with
      | Some i => Some (S i)
      | None => if Ascii.eqb b a then Some 0 else None
      end
  end.

(** [txt.substring(i, j)] for [i <= j]. *)
Definition substring (i j : nat) (l : list ascii) : list ascii :=
  firstn (j - i) (skipn i l).

(** The text handed to [JSON.parse]: [jsonStr.trim()]. *)
Definition jsonStr (txt : string) : string :=
  let l := list_ascii_of_string txt in
  JS.trim
    match exec fencePattern txt with
    | Some jsonBlockMatch => group 1 jsonBlockMatch
    | None =>
        match indexOf "{" l, lastIndexOf "}" l with
        | Some jsonStart, Some jsonEnd =>
            if jsonStart <? jsonEnd
            then string_of_list_ascii (substring jsonStart (jsonEnd + 1) l)
            else txt
        | _, _ => txt
        end
    end.

End Briefing.

(** ** Concrete inputs *)

Definition nl : string := String "010" EmptyString.

(** The four-line transcript of the specification's scenario. *)
Definition scenario : string :=
  "Alice, Nov 24, 2:24 PM" +:+ nl +:+
  "Let's ship UNSER-1141 today" +:+ nl +:+
  "Bob, Nov 24, 2:26 PM" +:+ nl +:+
  "Agreed".

(** A line of the legacy syntax whose body ends in a date and a time. *)
Definition legacy_with_date : string :=
  "10:05 AM Bob: standup moved to Friday, Nov 29, 3:00 PM".

(** An open message without text, to be followed by a header of either
    kind. *)
Definition open_empty : Chat.parser :=
  {| Chat.p_messages := [];
     Chat.currentMessage :=
       Some (Chat.export_message "Alice" "" "Nov 24, 2:24 PM" []) |}.

(** A chat service whose every page holds one message and a continuation
    token. *)
Definition endless_chat : Chat.ChatEnv :=
  {| Chat.new_URL := fun _ =>
       Some {| Chat.pathname := "/v1/spaces/AAAA/messages";
               Chat.param_key := Some "k";
               Chat.param_token := None |};
     Chat.chat_get := fun _ _ =>
       JS.Data (Some
         {| Chat.page_messages :=
              Some [{| Chat.raw_name := Some "spaces/AAAA/messages/1";
                       Chat.raw_sender_displayName := Some "Ann";
                       Chat.raw_sender_name := None;
                       Chat.raw_text := Some "ping";
                       Chat.raw_createTime := None;
                       Chat.raw_thread_name := None |}];
            Chat.nextPageToken := Some "next" |}) |}.

(** A message of the chat service that names the same ticket twice. *)
Definition twice : Chat.RawMessage :=
  {| Chat.raw_name := Some "spaces/AAAA/messages/7";
     Chat.raw_sender_displayName := Some "Ann";
     Chat.raw_sender_name := None;
     Chat.raw_text := Some "ABC-12 blocks the release, retest ABC-12";
     Chat.raw_createTime := Some "2024-11-24T14:24:00Z";
     Chat.raw_thread_name := None |}.

(** A message of the chat service that names a ticket and whose own
    name is that of a member of [Object.prototype]. *)
Definition named_constructor : Chat.RawMessage :=
  {| Chat.raw_name := Some "constructor";
     Chat.raw_sender_displayName := Some "Ann";
     Chat.raw_sender_name := None;
     Chat.raw_text := Some "AA-1 is done";
     Chat.raw_createTime := None;
     Chat.raw_thread_name := None |}.

Definition space_AAAA : Chat.ParsedChatUrl :=
  {| Chat.pc_spaceId := "AAAA"; Chat.apiKey := "k"; Chat.token := None;
     Chat.pc_baseUrl := "https://chat.googleapis.com/v1/spaces/AAAA/messages" |}.

Definition linked_issue (i : string) : YouTrack.RawLinkedIssue :=
  {| YouTrack.li_idReadable := i; YouTrack.li_id := "2-" +:+ i;
     YouTrack.li_summary := "Linked " +:+ i;
     YouTrack.li_state_name := Some "Open";
     YouTrack.li_assignee_fullName := None |}.

Definition link (type dir : string) (ids : list string) : YouTrack.RawLink :=
  {| YouTrack.direction := dir;
     YouTrack.linkType :=
       Some {| YouTrack.lt_name := Some type;
               YouTrack.sourceToTarget := Some "relates to";
               YouTrack.targetToSource := Some "relates to" |};
     YouTrack.issues := map linked_issue ids |}.

Definition issue (i : string) (ls : list YouTrack.RawLink) : YouTrack.RawIssue :=
  {| YouTrack.idReadable := i; YouTrack.ri_id := "2-" +:+ i;
     YouTrack.summary := "Issue " +:+ i;
     YouTrack.description := None;
     YouTrack.state_name := Some "Open";
     YouTrack.priority_name := None;
     YouTrack.type_name := Some "Task";
     YouTrack.assignee_fullName := None;
     YouTrack.project_shortName := Some "PM";
     YouTrack.cf_State := None; YouTrack.cf_Assignee := None;
     YouTrack.cf_Type := None; YouTrack.cf_Priority := None;
     YouTrack.links := ls |}.

Definition raw_comment (i : string) (gone : bool) : YouTrack.RawComment :=
  {| YouTrack.rc_id := i; YouTrack.rc_text := Some "text";
     YouTrack.rc_author :=
       Some {| YouTrack.fullName := Some "Ann"; YouTrack.login := Some "ann" |};
     YouTrack.rc_created := Some 1; YouTrack.rc_updated := None;
     YouTrack.deleted := gone |}.

(** A root with two subtasks and two related issues (PM-3 is both); the
    fetch of PM-3 fails; PM-2 is required for the root and depends on PM-7,
    as the root does, and on PM-8; PM-2 has a deleted and a live comment. *)
Definition tracker : YouTrack.Tracker :=
  {| YouTrack.get_issue := fun _ i =>
       if String.eqb i "PM-1" then
         JS.Data (Some (issue "PM-1"
           [link "Subtask" "OUTWARD" ["PM-2"; "PM-3"];
            link "Relates" "OUTWARD" ["PM-3"; "PM-4"];
            link "Depend" "OUTWARD" ["PM-7"]]))
       else if String.eqb i "PM-2" then
         JS.Data (Some (issue "PM-2"
           [link "Depend" "INWARD" ["PM-1"];
            link "Depend" "OUTWARD" ["PM-7"; "PM-8"]]))
       else if String.eqb i "PM-4" then JS.Data (Some (issue "PM-4" []))
       else JS.Threw "Request failed with status code 404";
     YouTrack.get_comments := fun _ i =>
       if String.eqb i "PM-2"
       then JS.Data (Some [raw_comment "c1" true; raw_comment "c2" false])
       else JS.Data (Some []) |}.

(** A root that depends on PM-9 and is required for PM-9. *)
Definition cyclic_tracker : YouTrack.Tracker :=
  {| YouTrack.get_issue := fun _ i =>
       if String.eqb i "PM-1" then
         JS.Data (Some (issue "PM-1"
           [link "Depend" "OUTWARD" ["PM-9"];
            link "Depend" "INWARD" ["PM-9"]]))
       else JS.Threw "Request failed with status code 404";
     YouTrack.get_comments := fun _ _ => JS.Data (Some []) |}.

(** A tracker that answers the former ids PM-2 and PM-3 of a moved issue
    with the issue under its present id OPS-5. *)
Definition renaming_tracker : YouTrack.Tracker :=
  {| YouTrack.get_issue := fun _ i =>
       if String.eqb i "PM-1" then
         JS.Data (Some (issue "PM-1" [link "Subtask" "OUTWARD" ["PM-2"; "PM-3"]]))
       else JS.Data (Some (issue "OPS-5" []));
     YouTrack.get_comments := fun _ _ => JS.Data (Some []) |}.

Definition graph_of (r : JS.result YouTrack.ProjectGraph)
    : option YouTrack.ProjectGraph :=
  match r with
  | JS.Return g => Some g
  | JS.Throw _ => None
  end.

(** The collaborators of a request against [tracker], with a briefing
    service that answers without a project overview. *)
Definition services : Server.Services :=
  {| Server.tracker := tracker;
     Server.chat := endless_chat;
     Server.random := fun _ => "0.5";
     Server.analyze := fun _ =>
       JS.Return {| History.overview_name := None;
                    History.overview_status := None |};
     Server.now := "1732458240000";
     Server.iso := "2024-11-24T14:24:00.000Z" |}.

Definition request (u : string) : Server.Request :=
  {| Server.r_url := u; Server.chatExport := None; Server.chatUrl := None |}.

(** A comment of a work item. *)
Definition ado_comment : Ado.RawComment :=
  {| Ado.rc_id := 41; Ado.rc_text := Some "agreed";
     Ado.createdBy_displayName := Some (Some "Ann");
     Ado.rc_createdDate := Some "2024-11-24T14:24:00Z";
     Ado.rc_modifiedDate := None;
     Ado.isDeleted := false |}.

Definition relation_to (kind target : string) : Ado.Relation :=
  {| Ado.rel := kind;
     Ado.url := "https://dev.azure.com/o/_apis/wit/workItems/" +:+ target |}.

(** An Azure DevOps service whose work item 7 has two child relations to
    item 2 and is related to item 3 twice and to item 2; every work item
    has one comment. *)
Definition devops : Ado.Service :=
  {| Ado.get_workitem := fun _ i =>
       JS.Data (Some {| Ado.ri_id := i; Ado.WorkItemType := Some "Epic";
                        Ado.Title := Some "Item"; Ado.State := Some "Active";
                        Ado.AssignedTo_displayName := None;
                        Ado.ri_relations :=
                          if String.eqb i "7"
                          then Some [relation_to "System.LinkTypes.Hierarchy-Forward" "2";
                                     relation_to "System.LinkTypes.Hierarchy-Forward" "2";
                                     relation_to "System.LinkTypes.Related" "3";
                                     relation_to "System.LinkTypes.Related" "3";
                                     relation_to "System.LinkTypes.Related" "2"]
                          else None |});
     Ado.get_comments := fun _ _ => JS.Data (Some (Some [ado_comment])) |}.

(** Two exported messages written in the same minute: the first names a
    ticket, the second does not. *)
Definition same_minute : string :=
  "Alice, Nov 24, 2:24 PM" +:+ nl +:+
  "Deploy UNSER-1141" +:+ nl +:+
  "Bob, Nov 24, 2:24 PM" +:+ nl +:+
  "ok".

(** Two exported messages written in the same minute that name different
    tickets. *)
Definition colliding : string :=
  "Alice, Nov 24, 2:24 PM" +:+ nl +:+
  "Deploy UNSER-1141" +:+ nl +:+
  "Bob, Nov 24, 2:24 PM" +:+ nl +:+
  "after ABC-22 is merged".

(** * Properties *)

(** ** History store *)

Section HistoryFacts.

Import History.

Context {Item : Type}.

Lemma length_removelast (l : list Item) :
  length (removelast l) = pred (length l).
Proof.
  induction l as [|a [|b l'] IH]; simpl in *; [reflexivity..|].
  rewrite IH. reflexivity.
Qed.

Lemma store_length (x : Item) (h : list Item) :
  length h <= MAX_HISTORY -> length (store x h) <= MAX_HISTORY.
Proof.
  intros Hle. unfold store.
  destruct (MAX_HISTORY <? length (x :: h)) eqn:E.
  - apply Nat.ltb_lt in E. rewrite length_removelast. simpl in *. lia.
  - apply Nat.ltb_ge in E. exact E.
Qed.

Lemma store_evicts_last (x : Item) (h : list Item) :
  length h <= MAX_HISTORY ->
  store x h = x :: (if length h =? MAX_HISTORY then removelast h else h).
Proof.
  intros Hle. unfold store.
  destruct (length h =? MAX_HISTORY) eqn:E.
  - apply Nat.eqb_eq in E.
    replace (MAX_HISTORY <? length (x :: h)) with true
      by (symmetry; apply Nat.ltb_lt; simpl; lia).
    destruct h as [|y h']; [discriminate E | reflexivity].
  - apply Nat.eqb_neq in E.
    replace (MAX_HISTORY <? length (x :: h)) with false
      by (symmetry; apply Nat.ltb_ge; simpl; lia).
    reflexivity.
Qed.

Lemma fold_store_length {C : Type} (mk : C -> Item) (calls : list C)
    (h : list Item) :
  length h <= MAX_HISTORY ->
  length (fold_left (fun h c => store (mk c) h) calls h) <= MAX_HISTORY.
Proof.
  revert h. induction calls as [|c calls IH]; intros h Hle; simpl.
  - exact Hle.
  - apply IH. apply store_length. exact Hle.
Qed.

End HistoryFacts.

(** Fifty-one insertions into an empty store: the first entry is gone,
    the other fifty remain, most recent first. *)
Example store_fifty_one :
  fold_left (fun h x => History.store x h) (seq 1 51) [] = rev (seq 2 50).
Proof. vm_compute. reflexivity. Qed.

(** C8. Starting from an empty history, after any sequence of
    [addToHistory] calls the history never holds more than [MAX_HISTORY]
    (50) entries, and one more call puts the new entry at the head and, when
    the history is full, drops its last (oldest) entry and no other; this
    holds for the history of both servers. *)
Theorem history_bound_and_eviction :
  History.MAX_HISTORY = 50
  /\ (forall (calls : list (History.call History.Data)) (c : History.call History.Data),
        let h := History.after calls in
        length h <= History.MAX_HISTORY
        /\ History.add h c =
             History.item_of c
             :: (if length h =? History.MAX_HISTORY then removelast h else h))
  /\ (forall (calls : list (History.call Ado.Graph)) (c : History.call Ado.Graph),
        let h := History.after_ado calls in
        length h <= History.MAX_HISTORY
        /\ History.add_ado h c =
             History.ado_item_of c
             :: (if length h =? History.MAX_HISTORY then removelast h else h)).
Proof.
  split; [reflexivity|].
  split; intros calls c h.
  - assert (Hle : length h <= History.MAX_HISTORY).
    { subst h. unfold History.after.
      apply (fold_store_length History.item_of calls []).
      simpl. unfold History.MAX_HISTORY. lia. }
    split; [exact Hle|].
    unfold History.add, History.addToHistory. simpl.
    apply store_evicts_last. exact Hle.
  - assert (Hle : length h <= History.MAX_HISTORY).
    { subst h. unfold History.after_ado.
      apply (fold_store_length History.ado_item_of calls []).
      simpl. unfold History.MAX_HISTORY. lia. }
    split; [exact Hle|].
    unfold History.add_ado, History.addToHistoryAdo. simpl.
    apply store_evicts_last. exact Hle.
Qed.

(** ** Export-text chat parser *)

Example header_A_drops_empty :
  Chat.p_messages (Chat.parse_line open_empty "Bob, Nov 24, 2:26 PM") = [].
Proof. vm_compute. reflexivity. Qed.

Example header_B_keeps_empty :
  Chat.p_messages (Chat.parse_line open_empty "2:26 PM Bob: Agreed")
  = [Chat.export_message "Alice" "" "Nov 24, 2:24 PM" []].
Proof. vm_compute. reflexivity. Qed.

Example end_of_input_keeps_empty :
  map Chat.sender
      (Chat.messages (Chat.parseGoogleChatExport "Alice, Nov 24, 2:24 PM"))
  = ["Alice"].
Proof. vm_compute. reflexivity. Qed.

Section ExportLoop.

Import Chat.

(** The messages pushed so far have no part in what a line does. *)
Lemma parse_line_pushed (st : parser) (line : string) :
  parse_line st line =
  let st' := parse_line {| p_messages := []; currentMessage := currentMessage st |}
                        line in
  {| p_messages := p_messages st ++ p_messages st';
     currentMessage := currentMessage st' |}.
Proof.
  destruct st as [ms cur]. unfold parse_line.
  cbn [p_messages currentMessage]. cbn zeta.
  destruct (String.eqb (JS.trim line) "");
    [cbn [p_messages currentMessage]; rewrite app_nil_r; reflexivity|].
  destruct (Regex.exec timePattern (JS.trim line)) as [m|].
  - cbn [p_messages currentMessage].
    destruct cur as [cm|]; [destruct (negb (String.eqb (text cm) ""))|];
      cbn [app]; rewrite ?app_nil_r; reflexivity.
  - destruct (Regex.exec legacyPattern (JS.trim line)) as [m|];
      destruct cur as [cm|]; cbn [p_messages currentMessage app];
      rewrite ?app_nil_r; reflexivity.
Qed.

(** Hence what the loop pushes from a state on is appended to what was
    pushed before. *)
Lemma parse_from_pushed (lines : list string) : forall st : parser,
  parse_from st lines =
  let st' := parse_from {| p_messages := []; currentMessage := currentMessage st |}
                        lines in
  {| p_messages := p_messages st ++ p_messages st';
     currentMessage := currentMessage st' |}.
Proof.
  unfold parse_from.
  induction lines as [|line lines IH]; intros st; cbn [fold_left]; cbn zeta.
  - cbn [p_messages currentMessage]. rewrite app_nil_r. destruct st. reflexivity.
  - rewrite (IH (parse_line st line)).
    rewrite (IH (parse_line {| p_messages := []; currentMessage := currentMessage st |}
                            line)).
    cbn zeta. rewrite (parse_line_pushed st line). cbn zeta.
    cbn [p_messages currentMessage]. rewrite app_assoc. reflexivity.
Qed.

Lemma flush_pushed (st : parser) :
  flush st =
  p_messages st
  ++ flush {| p_messages := []; currentMessage := currentMessage st |}.
Proof.
  unfold flush. cbn [p_messages currentMessage app].
  destruct (currentMessage st); [reflexivity | rewrite app_nil_r; reflexivity].
Qed.

(** The result of the parser, seen from any of its lines: what had been
    pushed when the line was done, followed by what the lines after it
    push and leave open. *)
Lemma export_messages_at (chatText : string) (before after : list string)
    (line : string) :
  JS.split_lines chatText = before ++ line :: after ->
  let st := parse_line (parse_lines before) line in
  messages (parseGoogleChatExport chatText) =
  p_messages st
  ++ flush (parse_from {| p_messages := []; currentMessage := currentMessage st |}
                       after).
Proof.
  intros Hsplit st. unfold parseGoogleChatExport. cbn [messages].
  rewrite Hsplit. unfold parse_lines at 1, parse_from at 1.
  rewrite fold_left_app. cbn [fold_left].
  change (fold_left parse_line after
            (parse_line
               (fold_left parse_line before
                  {| p_messages := []; currentMessage := None |}) line))
    with (parse_from st after).
  rewrite (parse_from_pushed after st). cbn zeta.
  rewrite flush_pushed. cbn [p_messages currentMessage].
  rewrite <- app_assoc. f_equal. symmetry. apply flush_pushed.
Qed.

End ExportLoop.

(** C4, as stated, fails: the two headers are tried in order, so a line
    of the Header B syntax whose body ends in a date and a time is taken as
    a Header A line, and the open message, whose text is empty, is not
    pushed: the message of Alice is missing from the result. *)
Lemma header_B_line_taken_as_header_A :
  Regex.exec Chat.legacyPattern legacy_with_date <> None
  /\ Chat.currentMessage open_empty
     = Some (Chat.export_message "Alice" "" "Nov 24, 2:24 PM" [])
  /\ Chat.p_messages (Chat.parse_line open_empty legacy_with_date) = []
  /\ Chat.messages
       (Chat.parseGoogleChatExport
          ("Alice, Nov 24, 2:24 PM" +:+ nl +:+ legacy_with_date))
     = [Chat.export_message "10:05 AM Bob: standup moved to Friday" ""
          "Nov 29, 3:00 PM" []].
Proof.
  split; [vm_compute; discriminate|].
  split; [reflexivity|].
  split; vm_compute; reflexivity.
Qed.

(** C4 (amended). In the export parser a line that matches Header A
    pushes the open message only when its text is non-empty; a line that
    matches Header B and not Header A, which is tried first, pushes the open
    message whatever its text; and the end of input pushes the message that
    is still open.  What a line pushes stays in the result: the messages of
    the parser are those pushed when the line was done, followed by those
    that the later lines and the end of input push. *)
Theorem export_header_push (st : Chat.parser) (line : string) :
  JS.trim line <> "" ->
  (forall m, Regex.exec Chat.timePattern (JS.trim line) = Some m ->
     Chat.p_messages (Chat.parse_line st line) =
       match Chat.currentMessage st with
       | Some cm =>
           if String.eqb (Chat.text cm) "" then Chat.p_messages st
           else Chat.p_messages st ++ [cm]
       | None => Chat.p_messages st
       end)
  /\ (Regex.exec Chat.timePattern (JS.trim line) = None ->
      forall m, Regex.exec Chat.legacyPattern (JS.trim line) = Some m ->
      Chat.p_messages (Chat.parse_line st line) =
        Chat.p_messages st ++ option_list (Chat.currentMessage st))
  /\ Chat.flush st = Chat.p_messages st ++ option_list (Chat.currentMessage st)
  /\ (forall chatText,
        Chat.messages (Chat.parseGoogleChatExport chatText) =
        Chat.flush (Chat.parse_lines (JS.split_lines chatText)))
  /\ (forall chatText before after,
        JS.split_lines chatText = before ++ line :: after ->
        st = Chat.parse_lines before ->
        Chat.messages (Chat.parseGoogleChatExport chatText) =
        Chat.p_messages (Chat.parse_line st line)
        ++ Chat.flush
             (Chat.parse_from
                {| Chat.p_messages := [];
                   Chat.currentMessage :=
                     Chat.currentMessage (Chat.parse_line st line) |}
                after)).
Proof.
  intros Hne.
  assert (E : String.eqb (JS.trim line) "" = false).
  { apply String.eqb_neq. exact Hne. }
  split; [|split; [|split; [|split]]].
  - intros m Hm. unfold Chat.parse_line. rewrite E, Hm. simpl.
    destruct (Chat.currentMessage st) as [cm|]; [|reflexivity].
    destruct (String.eqb (Chat.text cm) ""); reflexivity.
  - intros Hno m Hm. unfold Chat.parse_line. rewrite E, Hno, Hm. simpl.
    destruct (Chat.currentMessage st) as [cm|]; simpl.
    + reflexivity.
    + rewrite app_nil_r. reflexivity.
  - unfold Chat.flush.
    destruct (Chat.currentMessage st) as [cm|]; simpl.
    + reflexivity.
    + rewrite app_nil_r. reflexivity.
  - reflexivity.
  - intros chatText before after Hsplit ->.
    exact (export_messages_at chatText before after line Hsplit).
Qed.

Lemma export_header_push_witness :
  Chat.p_messages (Chat.parse_line open_empty "Bob, Nov 24, 2:26 PM") = []
  /\ Chat.p_messages (Chat.parse_line open_empty "2:26 PM Bob: Agreed")
     = [Chat.export_message "Alice" "" "Nov 24, 2:24 PM" []].
Proof.
  split.
  - assert (Hne : JS.trim "Bob, Nov 24, 2:26 PM" <> "") by (vm_compute; discriminate).
    destruct (export_header_push open_empty "Bob, Nov 24, 2:26 PM" Hne)
      as [HA _].
    rewrite (HA [(2, "Nov 24, 2:26 PM"); (1, "Bob")]).
    + reflexivity.
    + vm_compute. reflexivity.
  - assert (Hne : JS.trim "2:26 PM Bob: Agreed" <> "") by (vm_compute; discriminate).
    destruct (export_header_push open_empty "2:26 PM Bob: Agreed" Hne)
      as [_ [HB _]].
    rewrite (HB eq_refl [(3, "Agreed"); (2, "Bob"); (1, "2:26 PM")]).
    + reflexivity.
    + vm_compute. reflexivity.
Defined.

(** C7. On the four-line transcript "Alice, Nov 24, 2:24 PM" / "Let's ship
    UNSER-1141 today" / "Bob, Nov 24, 2:26 PM" / "Agreed" the export parser
    returns exactly two messages, in order: Alice's with that text and
    ticketIds ["UNSER-1141"], and Bob's with text "Agreed" and no ticketIds. *)
Theorem export_scenario :
  Chat.messages (Chat.parseGoogleChatExport scenario) =
    [Chat.export_message "Alice" "Let's ship UNSER-1141 today"
       "Nov 24, 2:24 PM" ["UNSER-1141"];
     Chat.export_message "Bob" "Agreed" "Nov 24, 2:26 PM" []]
  /\ map (fun m => (Chat.sender m, Chat.text m, Chat.ticketIds m))
         (Chat.messages (Chat.parseGoogleChatExport scenario)) =
       [("Alice", "Let's ship UNSER-1141 today", ["UNSER-1141"]);
        ("Bob", "Agreed", [])].
Proof. split; vm_compute; reflexivity. Qed.

(** ** API chat variant: the page loop *)

Section PageLoop.

Import Chat.

Variable env : ChatEnv.
Variable parsed : ParsedChatUrl.

(** From any state below the page limit, fuel for the pages that remain is
    enough for the loop to end, and it requests at least one and at most
    that many pages. *)
Lemma fetch_pages_ends (fuel : nat) : forall st : fetcher,
  pageCount st < maxPages ->
  maxPages - pageCount st <= fuel ->
  exists r log,
    fetch_pages fuel env parsed st = Some (r, log)
    /\ length (requested st) < length log
    /\ length log <= length (requested st) + (maxPages - pageCount st).
Proof.
  induction fuel as [|fuel IH]; intros st Hlt Hfuel; [lia|].
  cbn [fetch_pages].
  destruct (chat_get env (pageCount st) (page_url parsed (pageToken st)))
    as [e|[page|]].
  - eexists _, _. split; [reflexivity|]. rewrite length_app. cbn [length]. unfold maxPages in *. lia.
  - destruct (maxPages <=? S (pageCount st)) eqn:Hmax.
    + eexists _, _. split; [reflexivity|]. rewrite length_app. cbn [length]. unfold maxPages in *. lia.
    + apply Nat.leb_gt in Hmax.
      destruct (JS.truthy (nextPageToken page)).
      * edestruct (IH {| f_messages :=
                           match page_messages page with
                           | Some ms => f_messages st ++ ms
                           | None => f_messages st
                           end;
                         pageToken := nextPageToken page;
                         pageCount := S (pageCount st);
                         requested := requested st ++
                                      [page_url parsed (pageToken st)] |})
          as (r & log & Hrun & Hlo & Hhi);
          cbn [pageCount requested]; [unfold maxPages in *; lia..|].
        exists r, log. split; [exact Hrun|].
        cbn [pageCount requested] in Hlo, Hhi.
        rewrite length_app in Hlo, Hhi. cbn [length] in Hlo, Hhi.
        unfold maxPages in *. lia.
      * eexists _, _. split; [reflexivity|]. rewrite length_app. cbn [length]. unfold maxPages in *. lia.
  - eexists _, _. split; [reflexivity|]. rewrite length_app. cbn [length]. unfold maxPages in *. lia.
Qed.

(** Against a service that always sends a continuation token the loop ends
    by the page limit, after exactly the pages that remain. *)
Lemma fetch_pages_unbounded_chain (fuel : nat) : forall st : fetcher,
  always_more env ->
  pageCount st < maxPages ->
  maxPages - pageCount st <= fuel ->
  exists msgs log,
    fetch_pages fuel env parsed st = Some (JS.Return msgs, log)
    /\ length log = length (requested st) + (maxPages - pageCount st).
Proof.
  induction fuel as [|fuel IH]; intros st Hmore Hlt Hfuel; [lia|].
  cbn [fetch_pages].
  destruct (Hmore (pageCount st) (page_url parsed (pageToken st)))
    as (page & Hget & Htok).
  rewrite Hget.
  destruct (maxPages <=? S (pageCount st)) eqn:Hmax.
  - apply Nat.leb_le in Hmax.
    eexists _, _. split; [reflexivity|]. rewrite length_app. cbn [length]. unfold maxPages in *. lia.
  - apply Nat.leb_gt in Hmax. rewrite Htok.
    edestruct (IH {| f_messages :=
                       match page_messages page with
                       | Some ms => f_messages st ++ ms
                       | None => f_messages st
                       end;
                     pageToken := nextPageToken page;
                     pageCount := S (pageCount st);
                     requested := requested st ++
                                  [page_url parsed (pageToken st)] |})
      as (msgs & log & Hrun & Hlen);
      cbn [pageCount requested]; [assumption|unfold maxPages in *; lia..|].
    exists msgs, log. split; [exact Hrun|].
    cbn [pageCount requested] in Hlen.
    rewrite length_app in Hlen. cbn [length] in Hlen.
    unfold maxPages in *. lia.
Qed.

End PageLoop.

(** C6. Whatever the chat service answers, [fetchGoogleChatMessages] ends
    once it has fuel for [maxPages] (10) iterations, having requested at
    most 10 pages; against a service whose every answer carries a
    [nextPageToken] the loop ends after exactly 10 requests and the
    function returns what the code after the loop makes of the messages
    fetched. *)
Theorem page_limit_termination (env : Chat.ChatEnv) (chatUrl : string)
    (extra : nat) :
  Chat.maxPages = 10
  /\ (exists r log,
        Chat.fetchGoogleChatMessages (Chat.maxPages + extra) env chatUrl
        = Some (r, log)
        /\ length log <= Chat.maxPages)
  /\ (Chat.always_more env ->
      Chat.parseGoogleChatUrl env chatUrl <> None ->
      exists parsed raw log,
        Chat.parseGoogleChatUrl env chatUrl = Some parsed
        /\ Chat.fetchGoogleChatMessages (Chat.maxPages + extra) env chatUrl
           = Some (Chat.assemble parsed raw, log)
        /\ length log = Chat.maxPages).
Proof.
  assert (Hlt : Chat.pageCount Chat.fetcher0 < Chat.maxPages)
    by (unfold Chat.maxPages; simpl; lia).
  assert (Hfuel : Chat.maxPages - Chat.pageCount Chat.fetcher0
                  <= Chat.maxPages + extra)
    by (unfold Chat.maxPages; simpl; lia).
  split; [reflexivity|]. split.
  - unfold Chat.fetchGoogleChatMessages.
    destruct (Chat.parseGoogleChatUrl env chatUrl) as [parsed|].
    + destruct (fetch_pages_ends env parsed (Chat.maxPages + extra)
                  Chat.fetcher0 Hlt Hfuel)
        as (r & log & Hrun & _ & Hhi).
      rewrite Hrun. cbn [Chat.requested Chat.pageCount Chat.fetcher0 length] in Hhi.
      destruct r as [e|raw]; eexists _, _; (split; [reflexivity|lia]).
    + eexists _, _. split; [reflexivity|]. cbn [length]. lia.
  - intros Hmore Hparsed. unfold Chat.fetchGoogleChatMessages.
    destruct (Chat.parseGoogleChatUrl env chatUrl) as [parsed|]; [|congruence].
    destruct (fetch_pages_unbounded_chain env parsed (Chat.maxPages + extra)
                Chat.fetcher0 Hmore Hlt Hfuel)
      as (msgs & log & Hrun & Hlen).
    rewrite Hrun. exists parsed, msgs, log.
    split; [reflexivity|]. split; [reflexivity|].
    cbn [Chat.requested Chat.pageCount Chat.fetcher0 length] in Hlen. lia.
Qed.

Lemma page_limit_termination_witness :
  exists r log,
    Chat.fetchGoogleChatMessages 10 endless_chat
      "https://chat.googleapis.com/v1/spaces/AAAA/messages?key=k"
    = Some (r, log)
    /\ length log = 10.
Proof.
  destruct (page_limit_termination endless_chat
              "https://chat.googleapis.com/v1/spaces/AAAA/messages?key=k" 0)
    as (_ & _ & H).
  destruct H as (parsed & raw & log & _ & Hrun & Hlen).
  - intros n url. eexists. split; reflexivity.
  - vm_compute. discriminate.
  - exists (Chat.assemble parsed raw), log. split; [exact Hrun | exact Hlen].
Defined.

(** ** API chat variant: mentions *)

Section Mentions.

Import Chat.

Variable mk : ChatMessage -> Mention.

Lemma push_mention_lookup (tm : gmap string (list Mention))
    (i t : string) (e : Mention) :
  default [] (push_mention tm i e !! t) =
  default [] (tm !! t) ++ (if string_dec i t then [e] else []).
Proof.
  unfold push_mention.
  destruct (string_dec i t) as [->|Hne].
  - rewrite lookup_insert_eq. reflexivity.
  - rewrite lookup_insert_ne by exact Hne. rewrite app_nil_r. reflexivity.
Qed.

Lemma push_ids_lookup (e : Mention) (t : string) (ids : list string) :
  forall tm : gmap string (list Mention),
  default [] (fold_left (fun tm' i => push_mention tm' i e) ids tm !! t) =
  default [] (tm !! t) ++ repeat e (count_occ string_dec ids t).
Proof.
  induction ids as [|i ids IH]; intros tm; simpl.
  - rewrite app_nil_r. reflexivity.
  - rewrite IH, push_mention_lookup.
    destruct (string_dec i t); simpl.
    + rewrite <- app_assoc. reflexivity.
    + rewrite app_nil_r. reflexivity.
Qed.

Lemma build_mentions_from (t : string) (msgs : list ChatMessage) :
  forall tm : gmap string (list Mention),
  default []
    (fold_left
       (fun tm msg =>
          fold_left (fun tm' i => push_mention tm' i (mk msg)) (ticketIds msg) tm)
       msgs tm !! t) =
  default [] (tm !! t) ++ occurrences mk msgs t.
Proof.
  induction msgs as [|msg msgs IH]; intros tm; simpl.
  - rewrite app_nil_r. reflexivity.
  - rewrite IH, push_ids_lookup, <- app_assoc. reflexivity.
Qed.

Lemma build_mentions_lookup (t : string) (msgs : list ChatMessage) :
  default [] (build_mentions mk msgs !! t) = occurrences mk msgs t.
Proof.
  unfold build_mentions. rewrite build_mentions_from, lookup_empty.
  reflexivity.
Qed.

End Mentions.

(** ** Plain objects: when the grouping throws *)

Section Objects.

Context {A V : Type}.
Variable key : A -> string.
Variable val : A -> V.

Lemma push_to_own (o o' : gmap string (list V)) (k : string) (x : V) :
  (forall k', is_Some (o !! k') -> JS.on_prototype k' = false) ->
  JS.push_to o k x = Some o' ->
  forall k', is_Some (o' !! k') -> JS.on_prototype k' = false.
Proof.
  intros Hown Hpush k' Hk'. unfold JS.push_to in Hpush.
  destruct (o !! k) as [l|] eqn:Hl.
  - injection Hpush as <-. destruct (decide (k = k')) as [<-|Hne].
    + apply Hown. rewrite Hl. eexists. reflexivity.
    + rewrite lookup_insert_ne in Hk' by exact Hne. exact (Hown k' Hk').
  - destruct (JS.on_prototype k) eqn:Hp; [discriminate|].
    injection Hpush as <-. destruct (decide (k = k')) as [<-|Hne];
      [exact Hp|].
    rewrite lookup_insert_ne in Hk' by exact Hne. exact (Hown k' Hk').
Qed.

(** The loop goes through when no key names a member of
    [Object.prototype]. *)
Lemma push_all_some (l : list A) : forall o : gmap string (list V),
  (forall x, In x l -> JS.on_prototype (key x) = false) ->
  is_Some (JS.push_all key val o l).
Proof.
  induction l as [|x l IH]; intros o Hl; cbn [JS.push_all];
    [eexists; reflexivity|].
  assert (Hx : JS.on_prototype (key x) = false) by (apply Hl; left; reflexivity).
  unfold JS.push_to. rewrite Hx.
  destruct (o !! key x); apply IH; intros y Hy; apply Hl; right; exact Hy.
Qed.

(** From an object without such own properties it throws as soon as one
    key does. *)
Lemma push_all_none (l : list A) : forall o : gmap string (list V),
  (forall k, is_Some (o !! k) -> JS.on_prototype k = false) ->
  forall x, In x l -> JS.on_prototype (key x) = true ->
  JS.push_all key val o l = None.
Proof.
  induction l as [|y l IH]; intros o Hown x Hin Hx; [destruct Hin|].
  cbn [JS.push_all].
  destruct (JS.push_to o (key y) (val y)) as [o'|] eqn:Hpush; [|reflexivity].
  destruct Hin as [->|Hin].
  - unfold JS.push_to in Hpush. rewrite Hx in Hpush.
    destruct (o !! key x) as [b|] eqn:Hb; [|discriminate].
    assert (JS.on_prototype (key x) = false)
      by (apply Hown; rewrite Hb; eexists; reflexivity).
    congruence.
  - apply (IH o' (push_to_own o o' _ _ Hown Hpush) x Hin Hx).
Qed.

End Objects.

(** [fetchGoogleChatMessages] gets past the grouping by thread exactly
    when no message is in a thread named like a member of
    [Object.prototype]. *)
Lemma assemble_returns (parsed : Chat.ParsedChatUrl)
    (raws : list Chat.RawMessage) :
  is_Some (Chat.assemble parsed raws) <->
  forall raw, In raw raws ->
    JS.on_prototype (Chat.threadId (Chat.parse_message raw)) = false.
Proof.
  unfold Chat.assemble, Chat.group_threads. split.
  - intros Hsome raw Hraw.
    destruct (JS.on_prototype (Chat.threadId (Chat.parse_message raw))) eqn:Hp;
      [|reflexivity].
    rewrite (push_all_none Chat.threadId id (map Chat.parse_message raws) ∅)
      with (x := Chat.parse_message raw) in Hsome.
    + destruct Hsome as [cd Hcd]. discriminate Hcd.
    + intros k [b Hb]. rewrite lookup_empty in Hb. discriminate Hb.
    + apply in_map. exact Hraw.
    + exact Hp.
  - intros Hall.
    destruct (push_all_some Chat.threadId id (map Chat.parse_message raws) ∅)
      as [ths ->].
    + intros msg Hmsg. apply in_map_iff in Hmsg as (raw & <- & Hraw).
      exact (Hall raw Hraw).
    + eexists. reflexivity.
Qed.

Lemma assemble_fields (parsed : Chat.ParsedChatUrl)
    (raws : list Chat.RawMessage) (cd : Chat.ChatData) :
  Chat.assemble parsed raws = Some cd ->
  Chat.messages cd = map Chat.parse_message raws
  /\ Chat.ticketMentions cd
     = Chat.build_mentions Chat.api_mention (map Chat.parse_message raws)
  /\ Chat.participants cd
     = Chat.distinct (map Chat.sender (map Chat.parse_message raws))
  /\ Chat.group_threads (map Chat.parse_message raws) = Some (Chat.threads cd)
  /\ Chat.totalMessages cd = length raws.
Proof.
  unfold Chat.assemble.
  destruct (Chat.group_threads (map Chat.parse_message raws)) as [ths|];
    [|discriminate].
  intros H. injection H as <-. cbn. rewrite length_map. auto.
Qed.

(** C10. In the API variant the [ticketIds] of a message are the matches of
    the ticket pattern in its text, one per occurrence, and whenever
    [fetchGoogleChatMessages] assembles a dataset the entries of
    [ticketMentions] for a ticket are one [{sender, text, createTime}], with
    the sender, text and creation time of the message, per occurrence of the
    ticket in each message, in message order; so a single message that
    names a ticket twice contributes two identical entries for it.  A
    dataset is assembled unless a message is in a thread named like a member
    of [Object.prototype]. *)
Theorem api_mentions_per_occurrence :
  (forall raw,
     Chat.ticketIds (Chat.parse_message raw) =
     Regex.exec_all Chat.ticketRegex (JS.or_default (Chat.raw_text raw) ""))
  /\ (forall parsed raws cd t,
        Chat.assemble parsed raws = Some cd ->
        Chat.messages cd = map Chat.parse_message raws
        /\ default [] (Chat.ticketMentions cd !! t) =
           flat_map
             (fun msg =>
                repeat {| Chat.m_sender := Chat.sender msg;
                          Chat.m_text := Chat.text msg;
                          Chat.m_createTime := Chat.createTime msg;
                          Chat.m_timestamp := None |}
                       (count_occ string_dec (Chat.ticketIds msg) t))
             (Chat.messages cd))
  /\ (forall parsed raw cd t,
        Chat.assemble parsed [raw] = Some cd ->
        count_occ string_dec (Chat.ticketIds (Chat.parse_message raw)) t = 2 ->
        let entry :=
          {| Chat.m_sender :=
               JS.or_default
                 (JS.or_opt (Chat.raw_sender_displayName raw)
                            (Chat.raw_sender_name raw)) "Unknown";
             Chat.m_text := JS.or_default (Chat.raw_text raw) "";
             Chat.m_createTime := JS.or_opt (Chat.raw_createTime raw) None;
             Chat.m_timestamp := None |} in
        Chat.ticketMentions cd !! t = Some [entry; entry])
  /\ (forall parsed raws,
        is_Some (Chat.assemble parsed raws) <->
        forall raw, In raw raws ->
          JS.on_prototype (Chat.threadId (Chat.parse_message raw)) = false)
  /\ Chat.ticketIds (Chat.parse_message twice) = ["ABC-12"; "ABC-12"].
Proof.
  split; [reflexivity|].
  split; [|split; [|split; [apply assemble_returns | vm_compute; reflexivity]]].
  - intros parsed raws cd t Hcd.
    destruct (assemble_fields parsed raws cd Hcd) as (Hm & Htm & _).
    split; [exact Hm|]. rewrite Htm, Hm.
    apply (build_mentions_lookup Chat.api_mention).
  - intros parsed raw cd t Hcd Hcount entry.
    destruct (assemble_fields parsed [raw] cd Hcd) as (_ & Htm & _).
    pose proof (build_mentions_lookup Chat.api_mention t [Chat.parse_message raw])
      as H.
    unfold Chat.occurrences in H. cbn [flat_map] in H.
    rewrite Hcount, app_nil_r in H. cbn [repeat] in H.
    rewrite Htm. cbn [map].
    destruct (Chat.build_mentions Chat.api_mention [Chat.parse_message raw] !! t)
      as [l|]; cbv [default from_option id] in H;
      [rewrite H; reflexivity | discriminate H].
Qed.

Lemma api_mentions_per_occurrence_witness :
  exists cd,
    Chat.assemble space_AAAA [twice] = Some cd
    /\ Chat.ticketMentions cd !! "ABC-12" =
       Some [{| Chat.m_sender := "Ann";
                Chat.m_text := "ABC-12 blocks the release, retest ABC-12";
                Chat.m_createTime := Some "2024-11-24T14:24:00Z";
                Chat.m_timestamp := None |};
             {| Chat.m_sender := "Ann";
                Chat.m_text := "ABC-12 blocks the release, retest ABC-12";
                Chat.m_createTime := Some "2024-11-24T14:24:00Z";
                Chat.m_timestamp := None |}].
Proof.
  destruct api_mentions_per_occurrence as (_ & _ & H & Hsome & _).
  destruct (proj2 (Hsome space_AAAA [twice])) as [cd Hcd].
  { intros raw [<-|[]]. vm_compute. reflexivity. }
  exists cd. split; [exact Hcd|].
  apply (H space_AAAA twice cd "ABC-12" Hcd). vm_compute. reflexivity.
Defined.

(** ** YouTrack crawler: the frontier, the children, the dependencies *)

Section ListFacts.

Context {A : Type}.

Lemma NoDup_append (l k : list A) :
  List.NoDup l -> List.NoDup k -> (forall x, In x l -> ~ In x k) ->
  List.NoDup (l ++ k).
Proof.
  intros Hl Hk Hdisj. induction Hl as [|x l Hx Hl IH]; simpl.
  - exact Hk.
  - constructor.
    + intros Hin. apply in_app_or in Hin as [Hin|Hin].
      * exact (Hx Hin).
      * exact (Hdisj x (or_introl eq_refl) Hin).
    + apply IH. intros y Hy. apply Hdisj. right. exact Hy.
Qed.

Lemma omap_cons {B : Type} (f : A -> option B) (x : A) (l : list A) :
  omap f (x :: l) =
  match f x with
  | Some y => y :: omap f l
  | None => omap f l
  end.
Proof. reflexivity. Qed.

End ListFacts.

Section Frontier.

Import YouTrack.

(** The frontier has pairwise distinct ids, none of them seen before, and
    misses no id of the candidates. *)
Lemma unique_from_spec (items : list LinkRef) : forall seen : gset string,
  List.NoDup (map l_id (unique_from seen items))
  /\ (forall i, In i (map l_id (unique_from seen items)) -> i ∉ seen)
  /\ (forall item, In item items ->
        l_id item ∈ seen \/ In (l_id item) (map l_id (unique_from seen items))).
Proof.
  induction items as [|item items IH]; intros seen; simpl.
  - repeat split; [constructor | intros i [] | intros item []].
  - destruct (decide (l_id item ∈ seen)) as [Hin|Hnin].
    + destruct (IH seen) as (Hnd & Hfresh & Hall).
      repeat split; [exact Hnd | exact Hfresh |].
      intros it [<-|Hit]; [left; exact Hin | apply Hall; exact Hit].
    + destruct (IH ({[l_id item]} ∪ seen)) as (Hnd & Hfresh & Hall).
      simpl. repeat split.
      * constructor; [|exact Hnd].
        intros Hin. apply Hfresh in Hin. apply Hin.
        apply elem_of_union. left. apply elem_of_singleton. reflexivity.
      * intros i [<-|Hi]; [exact Hnin|].
        apply Hfresh in Hi. intros Hs. apply Hi.
        apply elem_of_union. right. exact Hs.
      * intros it [<-|Hit]; [right; left; reflexivity|].
        destruct (Hall it Hit) as [Hs|Hr]; [|right; right; exact Hr].
        apply elem_of_union in Hs as [Hs|Hs]; [|left; exact Hs].
        apply elem_of_singleton in Hs. right; left. symmetry. exact Hs.
Qed.

Lemma frontier_nodup (p : Ticket) : List.NoDup (map l_id (uniqueLinkedItems p)).
Proof. apply (unique_from_spec (allLinkedItems p) ∅). Qed.

Lemma frontier_covers_related (p : Ticket) (r : LinkRef) :
  In r (relatedItems p) -> In (l_id r) (map l_id (uniqueLinkedItems p)).
Proof.
  intros Hr.
  destruct (unique_from_spec (allLinkedItems p) ∅) as (_ & _ & Hall).
  destruct (Hall (with_linkType r (JS.or_default (relationType r) "Related")))
    as [Hs|Hin].
  - unfold allLinkedItems. apply in_or_app. right.
    apply in_map_iff. exists r. split; [reflexivity | exact Hr].
  - exfalso. exact (not_elem_of_empty _ Hs).
  - exact Hin.
Qed.

Lemma frontier_covers_children (p : Ticket) (c : LinkRef) :
  In c (children p) -> In (l_id c) (map l_id (uniqueLinkedItems p)).
Proof.
  intros Hc.
  destruct (unique_from_spec (allLinkedItems p) ∅) as (_ & _ & Hall).
  destruct (Hall (with_linkType c "Subtask")) as [Hs|Hin].
  - unfold allLinkedItems. apply in_or_app. left.
    apply in_map_iff. exists c. split; [reflexivity | exact Hc].
  - exfalso. exact (not_elem_of_empty _ Hs).
  - exact Hin.
Qed.

End Frontier.

Section Crawl.

Import YouTrack.

Variable env : Tracker.
Variable base : string.
Variable parentId : string.

Lemma has_id_false (i : string) (l : list LinkRef) :
  has_id i l = false <-> ~ In i (map l_id l).
Proof.
  unfold has_id. induction l as [|d l IH]; simpl.
  - split; [intros _ [] | reflexivity].
  - rewrite orb_false_iff, IH, String.eqb_neq. tauto.
Qed.

(** What one [forEach] over the dependencies of a linked ticket adds to the
    graph-level list: entries with pairwise distinct ids that are neither
    in the list already nor the id of the root. *)
Lemma merge_dependencies_spec (linkedId : string) (deps : list LinkRef) :
  forall acc : list LinkRef,
  exists added,
    fst (merge_dependencies parentId linkedId deps acc) = acc ++ added
    /\ List.NoDup (map l_id added)
    /\ (forall i, In i (map l_id added) ->
          i <> parentId /\ ~ In i (map l_id acc)).
Proof.
  induction deps as [|dep deps IH]; intros acc; simpl.
  - exists []. rewrite app_nil_r. repeat split; [constructor | destruct H | destruct H].
  - destruct (has_id (l_id dep) acc) eqn:Hhas; simpl.
    + destruct (IH acc) as (added & Heq & Hnd & Hfresh).
      destruct (merge_dependencies parentId linkedId deps acc) as [acc' t'].
      exists added. auto.
    + destruct (String.eqb (l_id dep) parentId) eqn:Hpar; simpl.
      * destruct (IH acc) as (added & Heq & Hnd & Hfresh).
        destruct (merge_dependencies parentId linkedId deps acc) as [acc' t'].
        exists added. auto.
      * destruct (IH (acc ++ [with_sourceIssue dep linkedId]))
          as (added & Heq & Hnd & Hfresh).
        destruct (merge_dependencies parentId linkedId deps
                    (acc ++ [with_sourceIssue dep linkedId])) as [acc' t'].
        simpl in *.
        apply has_id_false in Hhas. apply String.eqb_neq in Hpar.
        exists (with_sourceIssue dep linkedId :: added).
        split; [rewrite Heq, <- app_assoc; reflexivity|].
        split.
        -- simpl. constructor; [|exact Hnd].
           intros Hin. apply Hfresh in Hin as [_ Hin]. apply Hin.
           rewrite map_app. apply in_or_app. right. left. reflexivity.
        -- simpl. intros i [<-|Hi]; [split; assumption|].
           apply Hfresh in Hi as [Hp Hi]. split; [exact Hp|].
           intros Hin. apply Hi. rewrite map_app. apply in_or_app.
           left. exact Hin.
Qed.

(** A frontier item whose fetch fails leaves the crawl as it was. *)
Lemma crawl_item_unavailable (st : crawl) (ref : LinkRef) :
  fetchIssue env base (l_id ref) = None -> crawl_item env base parentId st ref = st.
Proof. intros H. unfold crawl_item. rewrite H. reflexivity. Qed.

(** A frontier item whose fetch succeeds adds one child, the ticket parsed
    from the answer with the comments fetched for it. *)
Lemma crawl_item_fetched (st : crawl) (ref : LinkRef) (raw : RawIssue) :
  fetchIssue env base (l_id ref) = Some raw ->
  exists linked deps,
    crawl_item env base parentId st ref =
      {| cr_children := cr_children st ++ [linked];
         cr_dependencies := deps;
         cr_allComments := cr_allComments (crawl_item env base parentId st ref) |}
    /\ t_id linked = idReadable raw
    /\ comments linked = fetchComments env base (l_id ref)
    /\ linkTypeToParent linked = Some (l_linkType ref)
    /\ deps = fst (merge_dependencies parentId (idReadable raw)
                     (pushed_to Dependency (link_items (links raw)))
                     (cr_dependencies st)).
Proof.
  intros H. unfold crawl_item. rewrite H. cbn [parseIssueData].
  cbn [dependencies t_id].
  destruct (merge_dependencies parentId (idReadable raw)
              (pushed_to Dependency (link_items (links raw)))
              (cr_dependencies st)) as [deps own].
  eexists _, _. split; [reflexivity|]. repeat split.
Qed.

(** The children after the loop: those before it, then one per frontier
    item whose fetch succeeded, in frontier order, under the id of the
    answer. *)
Lemma crawl_items_children (frontier : list LinkRef) : forall st : crawl,
  map t_id (cr_children (crawl_items env base parentId frontier st)) =
  map t_id (cr_children st)
  ++ omap (fun ref => idReadable <$> fetchIssue env base (l_id ref)) frontier.
Proof.
  induction frontier as [|ref frontier IH]; intros st;
    unfold crawl_items in *; cbn [fold_left].
  - cbn. rewrite app_nil_r. reflexivity.
  - rewrite IH, omap_cons.
    destruct (fetchIssue env base (l_id ref)) as [raw|] eqn:Hf.
    + destruct (crawl_item_fetched st ref raw Hf)
        as (linked & deps & Heq & Hid & _).
      rewrite Heq. cbn [cr_children fmap option_fmap option_map].
      rewrite map_app, <- app_assoc. cbn [map app]. rewrite Hid. reflexivity.
    + rewrite (crawl_item_unavailable st ref Hf). reflexivity.
Qed.


(** The graph-level dependencies after the loop: those before it, then
    entries with pairwise distinct ids that are neither among the former
    nor the id of the root. *)
Lemma crawl_items_dependencies (frontier : list LinkRef) : forall st : crawl,
  exists added,
    cr_dependencies (crawl_items env base parentId frontier st) =
      cr_dependencies st ++ added
    /\ List.NoDup (map l_id added)
    /\ (forall i, In i (map l_id added) ->
          i <> parentId /\ ~ In i (map l_id (cr_dependencies st))).
Proof.
  induction frontier as [|ref frontier IH]; intros st;
    unfold crawl_items in *; cbn [fold_left].
  - exists []. rewrite app_nil_r.
    repeat split; [constructor | destruct H | destruct H].
  - destruct (fetchIssue env base (l_id ref)) as [raw|] eqn:Hf.
    + destruct (crawl_item_fetched st ref raw Hf)
        as (linked & deps & Heq & _ & _ & _ & Hdeps).
      destruct (merge_dependencies_spec (idReadable raw)
                  (pushed_to Dependency (link_items (links raw)))
                  (cr_dependencies st))
        as (added1 & Hadd1 & Hnd1 & Hfresh1).
      destruct (IH (crawl_item env base parentId st ref))
        as (added2 & Hadd2 & Hnd2 & Hfresh2).
      rewrite Hadd2. rewrite Heq in *. cbn [cr_dependencies] in *.
      rewrite Hdeps, Hadd1 in *.
      exists (added1 ++ added2).
      split; [rewrite app_assoc; reflexivity|].
      split.
      * rewrite map_app. apply NoDup_append; [exact Hnd1 | exact Hnd2 |].
        intros i Hi1 Hi2.
        apply Hfresh2 in Hi2 as [_ Hi2]. apply Hi2.
        rewrite map_app. apply in_or_app. right. exact Hi1.
      * intros i Hi. rewrite map_app in Hi. apply in_app_or in Hi as [Hi|Hi].
        -- apply Hfresh1. exact Hi.
        -- apply Hfresh2 in Hi as [Hp Hi]. split; [exact Hp|].
           intros Hin. apply Hi. rewrite map_app. apply in_or_app.
           left. exact Hin.
    + rewrite (crawl_item_unavailable st ref Hf). apply IH.
Qed.

(** Dropping an unavailable item from the frontier changes nothing. *)
Lemma crawl_items_skip (before after : list LinkRef) (ref : LinkRef)
    (st : crawl) :
  fetchIssue env base (l_id ref) = None ->
  crawl_items env base parentId (before ++ ref :: after) st =
  crawl_items env base parentId (before ++ after) st.
Proof.
  intros Hf. unfold crawl_items. rewrite !fold_left_app. cbn [fold_left].
  rewrite crawl_item_unavailable by exact Hf. reflexivity.
Qed.

End Crawl.

Section CrawlResult.

Import YouTrack.

Variable env : Tracker.
Variable base : string.

(** The graph returned when the root is available. *)
Lemma crawl_returns (issue : string) (g : ProjectGraph) :
  crawlYouTrack env base issue = JS.Return g ->
  exists p,
    root_ticket env base issue = Some p
    /\ t_id (parent g) = t_id p
    /\ relatedItems (parent g) = relatedItems p
    /\ comments (parent g) = fetchComments env base issue
    /\ g_relatedItems g = []
    /\ totalRelated (stats g) = 0
    /\ g_children g =
         cr_children
           (crawl_items env base (t_id p) (uniqueLinkedItems p)
              {| cr_children := [];
                 cr_dependencies := dependencies p;
                 cr_allComments := push_comments [] p |})
    /\ g_dependencies g =
         cr_dependencies
           (crawl_items env base (t_id p) (uniqueLinkedItems p)
              {| cr_children := [];
                 cr_dependencies := dependencies p;
                 cr_allComments := push_comments [] p |}).
Proof.
  unfold crawlYouTrack, root_ticket.
  destruct (fetchIssue env base issue) as [raw|]; [|discriminate].
  cbn [parseIssueData]. intros H. injection H as <-.
  eexists. split; [reflexivity|]. repeat split.
Qed.

Lemma fetched_ids_distinct (frontier : list LinkRef) :
  (forall ref raw, In ref frontier ->
     fetchIssue env base (l_id ref) = Some raw -> idReadable raw = l_id ref) ->
  List.NoDup (map l_id frontier) ->
  List.NoDup (omap (fun ref => idReadable <$> fetchIssue env base (l_id ref))
                   frontier)
  /\ (forall i,
        In i (omap (fun ref => idReadable <$> fetchIssue env base (l_id ref))
                   frontier) ->
        In i (map l_id frontier)).
Proof.
  induction frontier as [|ref frontier IH]; intros Hcons Hnd.
  - split; [constructor | intros i []].
  - rewrite omap_cons. cbn [map] in *.
    apply List.NoDup_cons_iff in Hnd as [Hnew Hnd].
    destruct IH as [IHnd IHin]; [|exact Hnd|].
    { intros r raw Hr. apply Hcons. right. exact Hr. }
    destruct (fetchIssue env base (l_id ref)) as [raw|] eqn:Hf;
      cbn [fmap option_fmap option_map].
    + rewrite (Hcons ref raw (or_introl eq_refl) Hf). split.
      * constructor; [|exact IHnd]. intros Hin. apply Hnew, IHin, Hin.
      * intros i [<-|Hi]; [left; reflexivity | right; apply IHin, Hi].
    + split; [exact IHnd | intros i Hi; right; apply IHin, Hi].
Qed.

End CrawlResult.

Section AdoFacts.

Lemma distinct_aux_spec (l : list string) : forall seen : gset string,
  List.NoDup (Chat.distinct_aux seen l)
  /\ (forall x, In x (Chat.distinct_aux seen l) -> (x ∉ seen) /\ In x l).
Proof.
  induction l as [|x l IH]; intros seen; simpl.
  - split; [constructor | intros y []].
  - destruct (decide (x ∈ seen)) as [Hin|Hnin].
    + destruct (IH seen) as [Hnd Hsub]. split; [exact Hnd|].
      intros y Hy. apply Hsub in Hy as [Hy1 Hy2]. split; [exact Hy1|].
      right. exact Hy2.
    + destruct (IH ({[x]} ∪ seen)) as [Hnd Hsub]. split.
      * constructor; [|exact Hnd].
        intros Hx. apply Hsub in Hx as [Hx _]. apply Hx.
        apply elem_of_union. left. apply elem_of_singleton. reflexivity.
      * intros y [<-|Hy]; [split; [exact Hnin | left; reflexivity]|].
        apply Hsub in Hy as [Hy1 Hy2]. split; [|right; exact Hy2].
        intros Hs. apply Hy1. apply elem_of_union. right. exact Hs.
Qed.

(** The related work items that [crawlAdo] fetches are requested under
    pairwise distinct ids, none of which is the id of a child. *)
Lemma ado_related_unique (p : Ado.WorkItem) :
  List.NoDup (Ado.uniqueRelatedIds p)
  /\ (forall rid, In rid (Ado.uniqueRelatedIds p) ->
        In rid (Ado.relatedIds p) /\ ~ In rid (Ado.childIds p)).
Proof.
  unfold Ado.uniqueRelatedIds, Chat.distinct.
  destruct (distinct_aux_spec (Ado.relatedIds p) ∅) as [Hnd Hsub]. split.
  - apply List.NoDup_filter. exact Hnd.
  - intros rid Hrid. apply filter_In in Hrid as [Hin Hnot]. split.
    + apply Hsub. exact Hin.
    + intros Hc. apply negb_true_iff in Hnot.
      assert (existsb (String.eqb rid) (Ado.childIds p) = true) as Hex.
      { apply existsb_exists. exists rid. split; [exact Hc|].
        apply String.eqb_refl. }
      congruence.
Qed.

End AdoFacts.

(** ** Concrete trackers *)

Example crawl_tracker :
  (fun g => (map YouTrack.t_id (YouTrack.g_children g),
             map YouTrack.linkTypeToParent (YouTrack.g_children g),
             map YouTrack.l_id (YouTrack.g_dependencies g),
             map YouTrack.c_id (flat_map YouTrack.comments (YouTrack.g_children g))))
    <$> graph_of (YouTrack.crawlYouTrack tracker "https://yt" "PM-1")
  = Some (["PM-2"; "PM-4"], [Some "Subtask"; Some "relates to"],
          ["PM-7"; "PM-8"], ["c2"]).
Proof. vm_compute. reflexivity. Qed.

Example crawl_renaming_tracker :
  (fun g => map YouTrack.t_id (YouTrack.g_children g))
    <$> graph_of (YouTrack.crawlYouTrack renaming_tracker "https://yt" "PM-1")
  = Some ["OPS-5"; "OPS-5"].
Proof. vm_compute. reflexivity. Qed.

(** ** The crawl: fetch failures, cleared related items, comments, dedup *)

(** C3. [fetchIssue] answers a transport or API error with [null], it has
    no exceptional outcome; a crawl whose root is unavailable aborts with
    an error, which the analysis route answers with status 500, leaving
    the history as it was; a crawl whose root is available returns a graph
    whatever happens to the linked issues, its children being the frontier
    items whose fetch succeeded, in order: an unavailable item leaves the
    crawl state untouched and the crawl goes on with the items after it. *)
Theorem fetch_failure_policy (env : YouTrack.Tracker) (base : string) :
  (forall i e,
     YouTrack.get_issue env base i = JS.Threw e ->
     YouTrack.fetchIssue env base i = None)
  /\ (forall i,
        YouTrack.fetchIssue env base i = None ->
        YouTrack.crawlYouTrack env base i
        = JS.Throw ("Could not fetch issue " +:+ i))
  /\ (forall i raw,
        YouTrack.fetchIssue env base i = Some raw ->
        exists g p,
          YouTrack.crawlYouTrack env base i = JS.Return g
          /\ YouTrack.root_ticket env base i = Some p
          /\ map YouTrack.t_id (YouTrack.g_children g) =
             omap (fun ref => YouTrack.idReadable
                              <$> YouTrack.fetchIssue env base (YouTrack.l_id ref))
                  (YouTrack.uniqueLinkedItems p))
  /\ (forall parentId st ref,
        YouTrack.fetchIssue env base (YouTrack.l_id ref) = None ->
        YouTrack.crawl_item env base parentId st ref = st)
  /\ (forall parentId st before ref after,
        YouTrack.fetchIssue env base (YouTrack.l_id ref) = None ->
        YouTrack.crawl_items env base parentId (before ++ ref :: after) st =
        YouTrack.crawl_items env base parentId (before ++ after) st)
  /\ (forall sv req history parsed,
        Server.tracker sv = env ->
        Server.parseYouTrackUrl (Server.r_url req) = Some parsed ->
        Server.p_baseUrl parsed = base ->
        YouTrack.fetchIssue env base (Server.p_issueId parsed) = None ->
        Server.analyze_route sv req history =
        (Server.ServerError
           ("Could not fetch issue " +:+ Server.p_issueId parsed),
         history)).
Proof.
  split; [|split; [|split; [|split; [|split]]]].
  6:{ intros sv req history parsed <- Hurl <- Hroot.
      unfold Server.analyze_route, YouTrack.crawlYouTrack.
      rewrite Hurl, Hroot. reflexivity. }
  - intros i e H. unfold YouTrack.fetchIssue. rewrite H. reflexivity.
  - intros i H. unfold YouTrack.crawlYouTrack. rewrite H. reflexivity.
  - intros i raw H.
    destruct (YouTrack.crawlYouTrack env base i) as [e|g] eqn:Hc.
    + unfold YouTrack.crawlYouTrack in Hc. rewrite H in Hc. discriminate Hc.
    + destruct (crawl_returns env base i g Hc)
        as (p & Hp & _ & _ & _ & _ & _ & Hch & _).
      exists g, p. repeat split; [exact Hp|].
      rewrite Hch, crawl_items_children. reflexivity.
  - intros parentId st ref. apply crawl_item_unavailable.
  - intros parentId st before ref after. apply crawl_items_skip.
Qed.

Lemma fetch_failure_policy_witness :
  YouTrack.fetchIssue tracker "https://yt" "PM-3" = None
  /\ YouTrack.crawlYouTrack tracker "https://yt" "PM-3"
     = JS.Throw "Could not fetch issue PM-3"
  /\ (exists g, YouTrack.crawlYouTrack tracker "https://yt" "PM-1" = JS.Return g
                /\ map YouTrack.t_id (YouTrack.g_children g) = ["PM-2"; "PM-4"])
  /\ Server.analyze_route services (request "https://yt/issue/PM-3") []
     = (Server.ServerError "Could not fetch issue PM-3", []).
Proof.
  destruct (fetch_failure_policy tracker "https://yt")
    as (Hnull & Hroot & Hlinked & _ & _ & Hroute).
  assert (H3 : YouTrack.fetchIssue tracker "https://yt" "PM-3" = None).
  { apply (Hnull "PM-3" "Request failed with status code 404"). reflexivity. }
  split; [exact H3|]. split; [exact (Hroot "PM-3" H3)|]. split.
  - destruct (Hlinked "PM-1" _ eq_refl) as (g & p & Hg & Hp & Hch).
    exists g. split; [exact Hg|]. rewrite Hch.
    injection Hp as <-. vm_compute. reflexivity.
  - apply (Hroute services (request "https://yt/issue/PM-3") []
             {| Server.p_baseUrl := "https://yt"; Server.p_issueId := "PM-3" |});
      [reflexivity | vm_compute; reflexivity | reflexivity | exact H3].
Defined.

Example analyze_route_reports :
  (fun r => (match fst r with
             | Server.Report d _ i =>
                 Some (map YouTrack.t_id (YouTrack.g_children (History.graph d)), i)
             | _ => None
             end,
             length (snd r)))
    (Server.analyze_route services (request "https://yt/issue/PM-1") [])
  = (Some (["PM-2"; "PM-4"], "1732458240000"), 1).
Proof. vm_compute. reflexivity. Qed.

(** C9. Every graph that [crawlYouTrack] returns has an empty
    [relatedItems] and [stats.totalRelated] equal to 0, while every related
    item of the parent is in the crawl frontier, and is among the children
    when its fetch succeeded. *)
Theorem related_items_cleared (env : YouTrack.Tracker) (base issue : string)
    (g : YouTrack.ProjectGraph) :
  YouTrack.crawlYouTrack env base issue = JS.Return g ->
  YouTrack.g_relatedItems g = []
  /\ YouTrack.totalRelated (YouTrack.stats g) = 0
  /\ (forall r,
        In r (YouTrack.relatedItems (YouTrack.parent g)) ->
        exists ref,
          In ref (YouTrack.uniqueLinkedItems (YouTrack.parent g))
          /\ YouTrack.l_id ref = YouTrack.l_id r
          /\ (forall raw,
                YouTrack.fetchIssue env base (YouTrack.l_id r) = Some raw ->
                In (YouTrack.idReadable raw)
                   (map YouTrack.t_id (YouTrack.g_children g)))).
Proof.
  intros Hc.
  destruct (crawl_returns env base issue g Hc)
    as (p & Hp & Hid & Hrel & _ & Hcleared & Htotal & Hch & _).
  split; [exact Hcleared|]. split; [exact Htotal|].
  intros r Hr. rewrite Hrel in Hr.
  assert (Hfront : YouTrack.uniqueLinkedItems (YouTrack.parent g)
                   = YouTrack.uniqueLinkedItems p).
  { unfold YouTrack.crawlYouTrack, YouTrack.root_ticket in *.
    destruct (YouTrack.fetchIssue env base issue) as [raw|]; [|discriminate].
    cbn [YouTrack.parseIssueData] in *.
    injection Hc as <-. injection Hp as <-. reflexivity. }
  rewrite Hfront.
  pose proof (frontier_covers_related p r Hr) as Hin.
  apply in_map_iff in Hin as (ref & Href & Hin).
  exists ref. split; [exact Hin|]. split; [exact Href|].
  intros raw Hraw. rewrite Hch, crawl_items_children. cbn [app map].
  apply list_elem_of_In, list_elem_of_omap. exists ref. split.
  - apply list_elem_of_In. exact Hin.
  - rewrite Href, Hraw. reflexivity.
Qed.

Lemma related_items_cleared_witness :
  exists g,
    YouTrack.crawlYouTrack tracker "https://yt" "PM-1" = JS.Return g
    /\ map YouTrack.l_id (YouTrack.relatedItems (YouTrack.parent g))
       = ["PM-3"; "PM-4"]
    /\ YouTrack.g_relatedItems g = []
    /\ YouTrack.totalRelated (YouTrack.stats g) = 0.
Proof.
  destruct (YouTrack.crawlYouTrack tracker "https://yt" "PM-1") as [e|g] eqn:Hc;
    [vm_compute in Hc; discriminate Hc|].
  exists g. split; [reflexivity|].
  destruct (related_items_cleared tracker "https://yt" "PM-1" g Hc)
    as (H1 & H2 & _).
  split; [|split; assumption].
  vm_compute in Hc. injection Hc as <-. reflexivity.
Defined.

Section Comments.

Import YouTrack.

Variable env : Tracker.
Variable base : string.


End Comments.

Section AdoComments.

Variable env : Ado.Service.



(** What a returned graph holds: the root as fetched, the children and
    the related items as the answers to the fetches of the child ids and
    of the unique related ids. *)
Lemma crawlAdo_returns (o p i : string) (g : Ado.Graph) :
  Ado.crawlAdo env o p i = JS.Return g ->
  let base := "https://dev.azure.com/" +:+ o +:+ "/" +:+ p +:+ "/_apis/wit" in
  exists par rmap,
    Ado.fetchWorkItem env base i true = Some par
    /\ Ado.relationsMap par = Some rmap
    /\ Ado.parent g = par
    /\ Ado.children g
       = omap (fun cid => Ado.fetchWorkItem env base cid true)
              (Ado.childIds par)
    /\ Ado.relatedItems g
       = omap (fun rid =>
                 (fun r => Ado.with_relation r (Ado.relation_types rmap rid))
                 <$> Ado.fetchWorkItem env base rid false)
              (Ado.uniqueRelatedIds par).
Proof.
  intros Hc base. unfold Ado.crawlAdo in Hc. fold base in Hc.
  destruct (Ado.fetchWorkItem env base i true) as [par|] eqn:Hpar;
    [|discriminate].
  destruct (Ado.relationsMap par) as [rmap|] eqn:Hmap; [|discriminate].
  injection Hc as <-. exists par, rmap.
  cbn [Ado.parent Ado.children Ado.relatedItems].
  split; [first [reflexivity | exact Hpar]|].
  split; [first [reflexivity | exact Hmap]|].
  split; [reflexivity|]. split; reflexivity.
Qed.

End AdoComments.



Section Answers.

Context {A B : Type}.
Variable f : A -> option B.
Variable ida : A -> string.
Variable idb : B -> string.

(** Items fetched under pairwise distinct ids, each answered under the id
    asked for, have pairwise distinct ids. *)
Lemma answers_distinct (l : list A) :
  (forall x y, In x l -> f x = Some y -> idb y = ida x) ->
  List.NoDup (map ida l) ->
  List.NoDup (map idb (omap f l))
  /\ (forall y, In y (omap f l) -> In (idb y) (map ida l)).
Proof.
  induction l as [|x l IH]; intros Hcons Hnd.
  - split; [constructor | intros y []].
  - rewrite omap_cons. cbn [map] in *.
    apply List.NoDup_cons_iff in Hnd as [Hnew Hnd].
    destruct IH as [IHnd IHin]; [|exact Hnd|].
    { intros x' y Hx'. apply Hcons. right. exact Hx'. }
    destruct (f x) as [y|] eqn:Hf.
    + cbn [map]. rewrite (Hcons x y (or_introl eq_refl) Hf). split.
      * constructor; [|exact IHnd]. intros Hin.
        apply in_map_iff in Hin as (y' & Hid & Hy').
        apply Hnew. rewrite <- Hid. apply IHin. exact Hy'.
      * intros y' [<-|Hy'].
        -- left. symmetry. exact (Hcons x y (or_introl eq_refl) Hf).
        -- right. apply IHin. exact Hy'.
    + split; [exact IHnd | intros y Hy; right; apply IHin, Hy].
Qed.

End Answers.

(** The parent's own dependency list enters the graph as parsed, without
    the test that the dependencies merged from the children pass: a root
    that both depends on PM-9 and is required for PM-9 yields a graph whose
    dependency list holds PM-9 twice. *)
Example cyclic_dependency_listed_twice :
  exists g,
    YouTrack.crawlYouTrack cyclic_tracker "https://yt" "PM-1" = JS.Return g
    /\ map YouTrack.l_id (YouTrack.g_dependencies g) = ["PM-9"; "PM-9"]
    /\ ~ List.NoDup (map YouTrack.l_id (YouTrack.g_dependencies g)).
Proof.
  eexists. split; [vm_compute; reflexivity|].
  split; [reflexivity|].
  cbn. intros H. apply List.NoDup_cons_iff in H as [H _].
  apply H. left. reflexivity.
Qed.

(** C1, as stated, fails: the Azure DevOps crawler fetches one child per
    child relation and has no deduplication of children.  A root with two
    child relations to the work item 2 yields a graph whose children list
    holds the item 2 twice. *)
Lemma ado_child_listed_twice :
  exists g,
    Ado.crawlAdo devops "o" "p" "7" = JS.Return g
    /\ map Ado.w_id (Ado.children g) = ["2"; "2"]
    /\ ~ List.NoDup (map Ado.w_id (Ado.children g)).
Proof.
  eexists. split; [vm_compute; reflexivity|].
  split; [reflexivity|].
  cbn. intros H. apply List.NoDup_cons_iff in H as [H _].
  apply H. left. reflexivity.
Qed.

(** C1 (amended). For every crawl of the YouTrack server that returns a
    graph: the frontier holds no id twice, so no two children share an id
    when the tracker answers each frontier item under the id it was asked
    for; the entries that the crawl merges into the dependency list from
    the children have pairwise distinct ids, none of them in the parent's
    own list and none equal to the root's id; hence the list has no
    duplicate id, and not the root's id, whenever the parent's own list has
    none.  For every crawl of the Azure DevOps server that returns a graph:
    the children are the answers to one fetch per child relation, in order;
    the related items are the answers to the fetches of the related ids,
    which are pairwise distinct and none of them a child id; so no two
    related items share an id, and none has the id of a child relation,
    when the service answers each of these fetches under the id it was
    asked for. *)
Theorem crawl_dedup (env : YouTrack.Tracker) (base issue : string)
    (g : YouTrack.ProjectGraph) (p : YouTrack.Ticket) :
  YouTrack.crawlYouTrack env base issue = JS.Return g ->
  YouTrack.root_ticket env base issue = Some p ->
  List.NoDup (map YouTrack.l_id (YouTrack.uniqueLinkedItems p))
  /\ ((forall ref raw,
         In ref (YouTrack.uniqueLinkedItems p) ->
         YouTrack.fetchIssue env base (YouTrack.l_id ref) = Some raw ->
         YouTrack.idReadable raw = YouTrack.l_id ref) ->
      List.NoDup (map YouTrack.t_id (YouTrack.g_children g)))
  /\ (exists added,
        YouTrack.g_dependencies g = YouTrack.dependencies p ++ added
        /\ List.NoDup (map YouTrack.l_id added)
        /\ (forall i, In i (map YouTrack.l_id added) ->
              i <> YouTrack.t_id (YouTrack.parent g)
              /\ ~ In i (map YouTrack.l_id (YouTrack.dependencies p))))
  /\ (List.NoDup (map YouTrack.l_id (YouTrack.dependencies p)) ->
      List.NoDup (map YouTrack.l_id (YouTrack.g_dependencies g)))
  /\ (~ In (YouTrack.t_id (YouTrack.parent g))
           (map YouTrack.l_id (YouTrack.dependencies p)) ->
      ~ In (YouTrack.t_id (YouTrack.parent g))
           (map YouTrack.l_id (YouTrack.g_dependencies g)))
  /\ (forall (service : Ado.Service) (o pr i : string) (ag : Ado.Graph),
        Ado.crawlAdo service o pr i = JS.Return ag ->
        let abase :=
          "https://dev.azure.com/" +:+ o +:+ "/" +:+ pr +:+ "/_apis/wit" in
        let par := Ado.parent ag in
        Ado.fetchWorkItem service abase i true = Some par
        /\ Ado.children ag
           = omap (fun cid => Ado.fetchWorkItem service abase cid true)
                  (Ado.childIds par)
        /\ map Ado.w_id (Ado.relatedItems ag)
           = omap (fun rid =>
                     Ado.w_id <$> Ado.fetchWorkItem service abase rid false)
                  (Ado.uniqueRelatedIds par)
        /\ List.NoDup (Ado.uniqueRelatedIds par)
        /\ (forall rid, In rid (Ado.uniqueRelatedIds par) ->
              ~ In rid (Ado.childIds par))
        /\ ((forall rid r,
               In rid (Ado.uniqueRelatedIds par) ->
               Ado.fetchWorkItem service abase rid false = Some r ->
               Ado.w_id r = rid) ->
            List.NoDup (map Ado.w_id (Ado.relatedItems ag))
            /\ (forall r, In r (Ado.relatedItems ag) ->
                  ~ In (Ado.w_id r) (Ado.childIds par)))).
Proof.
  intros Hc Hp.
  destruct (crawl_returns env base issue g Hc)
    as (p' & Hp' & Hid & _ & _ & _ & _ & Hch & Hdeps).
  rewrite Hp in Hp'. injection Hp' as <-.
  destruct (crawl_items_dependencies env base (YouTrack.t_id p)
              (YouTrack.uniqueLinkedItems p)
              {| YouTrack.cr_children := [];
                 YouTrack.cr_dependencies := YouTrack.dependencies p;
                 YouTrack.cr_allComments := YouTrack.push_comments [] p |})
    as (added & Hadd & Hnd & Hfresh).
  cbn [YouTrack.cr_dependencies] in Hadd, Hfresh.
  rewrite <- Hdeps in Hadd. rewrite Hid.
  split; [apply frontier_nodup|].
  split; [|split; [|split; [|split]]].
  - intros Hcons. rewrite Hch, crawl_items_children. cbn [map app].
    apply fetched_ids_distinct; [exact Hcons | apply frontier_nodup].
  - exists added. split; [exact Hadd|]. split; [exact Hnd | exact Hfresh].
  - intros Hown. rewrite Hadd, map_app.
    apply NoDup_append; [exact Hown | exact Hnd |].
    intros i Hi Ha. apply Hfresh in Ha as [_ Ha]. exact (Ha Hi).
  - intros Hroot Hin. rewrite Hadd, map_app in Hin.
    apply in_app_or in Hin as [Hin|Hin]; [exact (Hroot Hin)|].
    apply Hfresh in Hin as [Hne _]. apply Hne. reflexivity.
  - intros service o pr i ag Hag abase par.
    destruct (crawlAdo_returns service o pr i ag Hag)
      as (par' & rmap & Hpar & _ & Hpg & Hkids & Hrels).
    fold abase in Hpar, Hkids, Hrels. subst par'. fold par in Hpar, Hkids, Hrels.
    destruct (ado_related_unique par) as [Hnd' Hsub].
    assert (Hids : forall l,
              map Ado.w_id
                (omap (fun rid =>
                         (fun r => Ado.with_relation r
                                     (Ado.relation_types rmap rid))
                         <$> Ado.fetchWorkItem service abase rid false) l)
              = omap (fun rid =>
                        Ado.w_id <$> Ado.fetchWorkItem service abase rid false)
                     l).
    { induction l as [|rid l IH]; [reflexivity|].
      rewrite !omap_cons.
      destruct (Ado.fetchWorkItem service abase rid false) as [r|];
        cbn [fmap option_fmap option_map map]; [|exact IH].
      rewrite IH. reflexivity. }
    split; [exact Hpar|]. split; [exact Hkids|].
    split; [rewrite Hrels; apply Hids|].
    split; [exact Hnd'|].
    split; [intros rid Hrid; exact (proj2 (Hsub rid Hrid))|].
    intros Hcons.
    destruct (answers_distinct
                (fun rid => Ado.fetchWorkItem service abase rid false)
                id Ado.w_id (Ado.uniqueRelatedIds par))
      as [Hdist Hfrom].
    { intros rid r Hrid Hr. exact (Hcons rid r Hrid Hr). }
    { rewrite map_id. exact Hnd'. }
    assert (Hsame : forall l,
              map Ado.w_id
                (omap (fun rid => Ado.fetchWorkItem service abase rid false) l)
              = omap (fun rid =>
                        Ado.w_id <$> Ado.fetchWorkItem service abase rid false)
                     l).
    { induction l as [|rid l IH]; [reflexivity|].
      rewrite !omap_cons.
      destruct (Ado.fetchWorkItem service abase rid false) as [r|];
        cbn [fmap option_fmap option_map map]; [|exact IH].
      rewrite IH. reflexivity. }
    split.
    + rewrite Hrels, Hids, <- Hsame. exact Hdist.
    + intros r Hr Hchild.
      assert (Hin : In (Ado.w_id r)
                       (map Ado.w_id
                          (omap (fun rid =>
                                   Ado.fetchWorkItem service abase rid false)
                                (Ado.uniqueRelatedIds par)))).
      { rewrite Hsame, <- Hids, <- Hrels. apply in_map. exact Hr. }
      apply in_map_iff in Hin as (r0 & Hid0 & Hr0).
      apply Hfrom in Hr0. rewrite map_id in Hr0. rewrite Hid0 in Hr0.
      exact (proj2 (Hsub _ Hr0) Hchild).
Qed.

Lemma crawl_dedup_witness :
  exists g,
    YouTrack.crawlYouTrack tracker "https://yt" "PM-1" = JS.Return g
    /\ List.NoDup (map YouTrack.t_id (YouTrack.g_children g))
    /\ List.NoDup (map YouTrack.l_id (YouTrack.g_dependencies g))
    /\ ~ In (YouTrack.t_id (YouTrack.parent g))
            (map YouTrack.l_id (YouTrack.g_dependencies g)).
Proof.
  destruct (YouTrack.crawlYouTrack tracker "https://yt" "PM-1") as [e|g] eqn:Hc;
    [vm_compute in Hc; discriminate Hc|].
  destruct (YouTrack.root_ticket tracker "https://yt" "PM-1") as [p|] eqn:Hp;
    [|vm_compute in Hp; discriminate Hp].
  exists g. split; [reflexivity|].
  destruct (crawl_dedup tracker "https://yt" "PM-1" g p Hc Hp)
    as (_ & Hchildren & _ & Hdeps & Hroot & _).
  vm_compute in Hp. injection Hp as <-.
  split; [|split].
  - apply Hchildren. intros ref raw Href Hraw.
    vm_compute in Href.
    destruct Href as [<-|[<-|[<-|[]]]]; vm_compute in Hraw;
      try discriminate Hraw; injection Hraw as <-; reflexivity.
  - apply Hdeps. cbn. repeat constructor. intros [].
  - apply Hroot. vm_compute in Hc. injection Hc as <-. cbn.
    intros [H|[]]. discriminate H.
Defined.

(** ** Correlation *)

Section Correlation.

Import Chat.

Variable random : nat -> string.

Lemma keyed_messages (msgs : list ChatMessage) : forall n,
  map fst (keyed random n msgs) = msgs.
Proof.
  induction msgs as [|msg msgs IH]; intros n; cbn [keyed]; [reflexivity|].
  destruct (ticketIds msg); cbn [map fst]; rewrite IH; reflexivity.
Qed.

Lemma correlate_message_keeps (st : correlator) (msg : ChatMessage) (k : string) :
  is_Some (c_chatToTickets st !! k) ->
  is_Some (c_chatToTickets (correlate_message random st msg) !! k).
Proof.
  intros Hk. unfold correlate_message.
  destruct (ticketIds msg) as [|t ts]; cbn [c_chatToTickets]; [exact Hk|].
  destruct (JS.absent (c_chatToTickets st) (msgId msg (random (drawn st))));
    [|exact Hk].
  destruct (decide (msgId msg (random (drawn st)) = k)) as [->|Hne].
  - rewrite lookup_insert_eq. eexists. reflexivity.
  - rewrite lookup_insert_ne by exact Hne. exact Hk.
Qed.

(** [!o[k]] holds exactly when [k] is neither an own key nor the name of
    a member of [Object.prototype]. *)
Lemma absent_spec {V : Type} (o : gmap string V) (k : string) :
  JS.absent o k = true <-> o !! k = None /\ JS.on_prototype k = false.
Proof.
  unfold JS.absent. destruct (o !! k); [split; [discriminate|]|].
  - intros [H _]. discriminate H.
  - rewrite negb_true_iff. split; [auto | intros [_ H]; exact H].
Qed.

Lemma no_mentions_true (msg : ChatMessage) :
  no_mentions msg = true <-> ticketIds msg = [].
Proof. unfold no_mentions. destruct (ticketIds msg); split; congruence. Qed.

Lemma no_mentions_false (msg : ChatMessage) :
  no_mentions msg = false <-> ticketIds msg <> [].
Proof. unfold no_mentions. destruct (ticketIds msg); split; congruence. Qed.

Lemma step_unlinked (st : correlator) (msg : ChatMessage) (n : nat)
    (msgs : list ChatMessage) :
  no_mentions msg = true ->
  correlate_message random st msg =
    {| c_chatToTickets := c_chatToTickets st;
       c_unlinkedChats := c_unlinkedChats st ++ [msg];
       drawn := drawn st |}
  /\ keyed random n (msg :: msgs) = (msg, stable_key msg) :: keyed random n msgs.
Proof.
  unfold no_mentions, correlate_message. cbn [keyed].
  destruct (ticketIds msg); [split; reflexivity | discriminate].
Qed.

Lemma step_linked (st : correlator) (msg : ChatMessage) (n : nat)
    (msgs : list ChatMessage) :
  no_mentions msg = false ->
  let key := msgId msg (random (drawn st)) in
  let st' := correlate_message random st msg in
  c_unlinkedChats st' = c_unlinkedChats st
  /\ drawn st' = (if JS.truthy (stable_key msg) then drawn st else S (drawn st))
  /\ (JS.on_prototype key = false -> is_Some (c_chatToTickets st' !! key))
  /\ (forall k, is_Some (c_chatToTickets st' !! k) ->
        is_Some (c_chatToTickets st !! k)
        \/ (k = key /\ JS.on_prototype key = false))
  /\ keyed random n (msg :: msgs) =
       (msg, Some (msgId msg (random n)))
       :: keyed random (if JS.truthy (stable_key msg) then n else S n) msgs.
Proof.
  unfold no_mentions, correlate_message. cbn [keyed].
  destruct (ticketIds msg) as [|t ts]; [discriminate|]. intros _.
  cbn [c_unlinkedChats drawn c_chatToTickets].
  repeat split.
  - intros Hp.
    destruct (JS.absent (c_chatToTickets st) (msgId msg (random (drawn st))))
      eqn:Ha.
    + rewrite lookup_insert_eq. eexists. reflexivity.
    + unfold JS.absent in Ha. rewrite Hp in Ha.
      destruct (c_chatToTickets st !! msgId msg (random (drawn st))) eqn:Hl;
        [eexists; reflexivity | discriminate Ha].
  - intros k Hk.
    destruct (JS.absent (c_chatToTickets st) (msgId msg (random (drawn st))))
      eqn:Ha; [|left; exact Hk].
    apply absent_spec in Ha as [_ Hp].
    destruct (decide (msgId msg (random (drawn st)) = k)) as [<-|Hne];
      [right; split; [reflexivity | exact Hp]|].
    rewrite lookup_insert_ne in Hk by exact Hne. left. exact Hk.
Qed.

(** The loop over the messages, from any state: the unlinked list grows by
    the messages without mentions; keys are only added; every message with
    mentions whose key is not the name of a member of [Object.prototype]
    has an entry under its key; every entry that appears is under the key
    of a message with mentions. *)
Lemma correlate_loop (msgs : list ChatMessage) : forall st : correlator,
  let final := fold_left (correlate_message random) msgs st in
  c_unlinkedChats final = c_unlinkedChats st ++ List.filter no_mentions msgs
  /\ (forall k, is_Some (c_chatToTickets st !! k) ->
        is_Some (c_chatToTickets final !! k))
  /\ (forall msg key,
        In (msg, key) (keyed random (drawn st) msgs) ->
        no_mentions msg = false ->
        exists k, key = Some k
                  /\ (JS.on_prototype k = false ->
                      is_Some (c_chatToTickets final !! k)))
  /\ (forall k,
        is_Some (c_chatToTickets final !! k) ->
        is_Some (c_chatToTickets st !! k)
        \/ (JS.on_prototype k = false
            /\ exists msg,
                 In (msg, Some k) (keyed random (drawn st) msgs)
                 /\ no_mentions msg = false)).
Proof.
  induction msgs as [|msg msgs IH]; intros st; cbn [fold_left]; cbn zeta.
  - cbn [keyed List.filter]. rewrite app_nil_r.
    repeat split; [auto | intros msg key [] | auto].
  - destruct (IH (correlate_message random st msg)) as (HU & HK1 & HK2 & HK3).
    cbn zeta in *. cbn [List.filter].
    destruct (no_mentions msg) eqn:Hno.
    + destruct (step_unlinked st msg (drawn st) msgs Hno) as [Hst Hkeyed].
      rewrite Hkeyed. rewrite Hst in *.
      cbn [c_unlinkedChats c_chatToTickets drawn] in *.
      repeat split.
      * rewrite HU, <- app_assoc. reflexivity.
      * exact HK1.
      * intros m key [Heq|Hin] Hm.
        -- injection Heq as <- <-. congruence.
        -- exact (HK2 m key Hin Hm).
      * intros k Hk. destruct (HK3 k Hk) as [Hs|(Hp & m & Hin & Hm)];
          [left; exact Hs|].
        right. split; [exact Hp|]. exists m.
        split; [right; exact Hin | exact Hm].
    + destruct (step_linked st msg (drawn st) msgs Hno)
        as (Hun & Hdrawn & Hkey & Hnew & Hkeyed).
      rewrite Hkeyed. rewrite Hun in HU. rewrite Hdrawn in HK2, HK3.
      repeat split.
      * exact HU.
      * intros k Hk. apply HK1. apply correlate_message_keeps. exact Hk.
      * intros m key [Heq|Hin] Hm.
        -- injection Heq as <- <-. eexists. split; [reflexivity|].
           intros Hp. apply HK1. exact (Hkey Hp).
        -- exact (HK2 m key Hin Hm).
      * intros k Hk. destruct (HK3 k Hk) as [Hs|(Hp & m & Hin & Hm)].
        -- destruct (Hnew k Hs) as [Hold|[-> Hp]]; [left; exact Hold|].
           right. split; [exact Hp|]. exists msg.
           split; [left; reflexivity | exact Hno].
        -- right. split; [exact Hp|]. exists m.
           split; [right; exact Hin | exact Hm].
Qed.

End Correlation.

(** C2, as stated, fails: the key of an exported message is its timestamp,
    so the message of Bob, which names no ticket, is a member of
    [unlinkedChats] and has an entry under its key in [chatToTickets], the
    one recorded for the message of Alice. *)
Lemma same_minute_message_on_both_sides :
  exists corr bob,
    Chat.correlateChatsWithTickets (fun _ => "0.5") tt
      (Some (Chat.parseGoogleChatExport same_minute)) = Some corr
    /\ In bob (Chat.messages (Chat.parseGoogleChatExport same_minute))
    /\ Chat.ticketIds bob = []
    /\ Chat.stable_key bob = Some "Nov 24, 2:24 PM"
    /\ Chat.chatToTickets corr !! "Nov 24, 2:24 PM" = Some ["UNSER-1141"]
    /\ In bob (Chat.unlinkedChats corr).
Proof.
  eexists _, (Chat.export_message "Bob" "ok" "Nov 24, 2:24 PM" []).
  split; [reflexivity|].
  split; [vm_compute; right; left; reflexivity|].
  split; [reflexivity|]. split; [reflexivity|].
  split; [vm_compute; reflexivity|].
  vm_compute. left. reflexivity.
Qed.

(** A message whose key names a member of [Object.prototype] is
    recorded on neither side: the test [!chatToTickets[msgId]] finds the
    inherited member and no entry is written. *)
Example inherited_key_is_not_recorded :
  exists corr,
    Chat.correlateChatsWithTickets (fun _ => "0.5") tt
      (Chat.assemble space_AAAA [named_constructor]) = Some corr
    /\ Chat.chatToTickets corr = ∅
    /\ Chat.unlinkedChats corr = [].
Proof. eexists. split; [vm_compute; reflexivity|]. split; reflexivity. Qed.

(** C2 (amended). For every chat dataset given to the correlation engine:
    [unlinkedChats] holds exactly the messages without ticketIds, in order;
    a message with ticketIds is not in [unlinkedChats] and, when its key
    does not name a member of [Object.prototype], has an entry under its
    key in [chatToTickets]; a message without ticketIds is in
    [unlinkedChats], and [chatToTickets] has an entry under its key only if
    a message with ticketIds has the same key. *)
Theorem correlation_partition (random : nat -> string) {T : Type}
    (ticketData : T) (cd : Chat.ChatData) (corr : Chat.Correlations) :
  Chat.correlateChatsWithTickets random ticketData (Some cd) = Some corr ->
  map fst (Chat.keyed random 0 (Chat.messages cd)) = Chat.messages cd
  /\ Chat.unlinkedChats corr = List.filter Chat.no_mentions (Chat.messages cd)
  /\ (forall msg key,
        In (msg, key) (Chat.keyed random 0 (Chat.messages cd)) ->
        (Chat.ticketIds msg <> [] ->
         (exists k, key = Some k
                    /\ (JS.on_prototype k = false ->
                        is_Some (Chat.chatToTickets corr !! k)))
         /\ ~ In msg (Chat.unlinkedChats corr))
        /\ (Chat.ticketIds msg = [] ->
            In msg (Chat.unlinkedChats corr)
            /\ (forall k,
                  key = Some k ->
                  is_Some (Chat.chatToTickets corr !! k) ->
                  exists msg',
                    In (msg', Some k) (Chat.keyed random 0 (Chat.messages cd))
                    /\ Chat.ticketIds msg' <> []))).
Proof.
  intros Hc. unfold Chat.correlateChatsWithTickets in Hc. injection Hc as <-.
  cbn [Chat.unlinkedChats Chat.chatToTickets].
  destruct (correlate_loop random (Chat.messages cd)
              {| Chat.c_chatToTickets := ∅; Chat.c_unlinkedChats := [];
                 Chat.drawn := 0 |})
    as (HU & _ & HK2 & HK3).
  cbn zeta in *. cbn [Chat.c_unlinkedChats Chat.c_chatToTickets Chat.drawn app] in *.
  split; [apply keyed_messages|]. split; [exact HU|].
  intros msg key Hin.
  assert (Hmsg : In msg (Chat.messages cd)).
  { rewrite <- (keyed_messages random (Chat.messages cd) 0).
    apply in_map_iff. exists (msg, key). split; [reflexivity | exact Hin]. }
  split.
  - intros Hids. apply no_mentions_false in Hids. split.
    + exact (HK2 msg key Hin Hids).
    + rewrite HU. intros Hun. apply filter_In in Hun as [_ Hun]. congruence.
  - intros Hids. apply no_mentions_true in Hids. split.
    + rewrite HU. apply filter_In. split; assumption.
    + intros k -> Hk. destruct (HK3 k Hk) as [Hempty|(_ & m & Hm & Hno)].
      * rewrite lookup_empty in Hempty. destruct Hempty as [x Hx]. discriminate Hx.
      * exists m. split; [exact Hm|]. apply no_mentions_false. exact Hno.
Qed.

Lemma correlation_partition_witness :
  exists corr,
    Chat.correlateChatsWithTickets (fun _ => "0.5") tt
      (Some (Chat.parseGoogleChatExport scenario)) = Some corr
    /\ Chat.unlinkedChats corr
       = [Chat.export_message "Bob" "Agreed" "Nov 24, 2:26 PM" []]
    /\ is_Some (Chat.chatToTickets corr !! "Nov 24, 2:24 PM").
Proof.
  eexists. split; [reflexivity|].
  destruct (correlation_partition (fun _ => "0.5") tt
              (Chat.parseGoogleChatExport scenario) _ eq_refl)
    as (_ & HU & Hside).
  split.
  - rewrite HU. vm_compute. reflexivity.
  - destruct (Hside (Chat.export_message "Alice" "Let's ship UNSER-1141 today"
                       "Nov 24, 2:24 PM" ["UNSER-1141"])
                    (Some "Nov 24, 2:24 PM")) as [Hlinked _].
    + vm_compute. left. reflexivity.
    + destruct Hlinked as [(k & Hk & Hsome) _]; [discriminate|].
      injection Hk as <-. apply Hsome. reflexivity.
Defined.

(** * Further properties of the code *)

(** ** The matcher is sound for the denotation *)

Section Sound.
Import Regex Semantics.

Lemma run_star (g : bool) (r' : re) (s : pos) (c : caps)
    (k : pos -> caps -> option (pos * caps)) :
  run (Star g r') s c k = star_loop (run r') g k (S (length (rest s))) s c.
Proof. reflexivity. Qed.

Lemma star_loop_sound (r' : re) (g : bool)
    (k : pos -> caps -> option (pos * caps)) (x : pos * caps) :
  (forall s c k x,
     run r' s c k = Some x ->
     exists s' c', den r' s c s' c' /\ k s' c' = Some x) ->
  forall n s c,
    star_loop (run r') g k n s c = Some x ->
    exists s' c', iter (den r') s c s' c' /\ k s' c' = Some x.
Proof.
  intros IH. induction n as [|n IHn]; intros s c H.
  - exists s, c. split; [apply iter_stop | exact H].
  - change (star_loop (run r') g k (S n) s c) with
      (if g then
         match run r' s c (fun s' c' =>
                 if idx s <? idx s' then star_loop (run r') g k n s' c'
                 else None) with
         | Some x => Some x
         | None => k s c
         end
       else
         match k s c with
         | Some x => Some x
         | None => run r' s c (fun s' c' =>
                 if idx s <? idx s' then star_loop (run r') g k n s' c'
                 else None)
         end) in H.
    destruct g.
    + destruct (run r' s c _) as [y|] eqn:E.
      * injection H as ->. apply IH in E as (s1 & c1 & H1 & Hy).
        destruct (idx s <? idx s1); [|discriminate].
        apply IHn in Hy as (s2 & c2 & H2 & Hy).
        exists s2, c2. split; [|exact Hy]. eapply iter_step; eassumption.
      * exists s, c. split; [apply iter_stop | exact H].
    + destruct (k s c) as [y|] eqn:E.
      * injection H as ->. exists s, c. split; [apply iter_stop | exact E].
      * apply IH in H as (s1 & c1 & H1 & Hy).
        destruct (idx s <? idx s1); [|discriminate].
        apply IHn in Hy as (s2 & c2 & H2 & Hy).
        exists s2, c2. split; [|exact Hy]. eapply iter_step; eassumption.
Qed.

Lemma run_sound (r : re) : forall s c k x,
  run r s c k = Some x ->
  exists s' c', den r s c s' c' /\ k s' c' = Some x.
Proof.
  induction r as [|p|r1 IH1 r2 IH2|r1 IH1 r2 IH2|g r' IH|n r' IH| | |];
    intros s c k x H.
  - exists s, c. split; [split; reflexivity | exact H].
  - cbn [run] in H. destruct (rest s) as [|a t] eqn:Hr; [discriminate|].
    destruct (p a) eqn:Hp; [|discriminate].
    eexists _, _. split; [|exact H]. exists a, t. auto.
  - cbn [run] in H. apply IH1 in H as (s1 & c1 & H1 & H).
    apply IH2 in H as (s2 & c2 & H2 & H).
    exists s2, c2. split; [|exact H]. exists s1, c1. auto.
  - cbn [run] in H. destruct (run r1 s c k) as [y|] eqn:E1.
    + injection H as <-. apply IH1 in E1 as (s1 & c1 & H1 & Hk).
      exists s1, c1. split; [left; exact H1 | exact Hk].
    + apply IH2 in H as (s1 & c1 & H1 & Hk).
      exists s1, c1. split; [right; exact H1 | exact Hk].
  - rewrite run_star in H.
    exact (star_loop_sound r' g k x IH _ s c H).
  - cbn [run] in H. apply IH in H as (s1 & c1 & H1 & H).
    eexists _, _. split; [|exact H]. exists c1. auto.
  - cbn [run] in H. destruct (idx s =? 0) eqn:E; [|discriminate].
    apply Nat.eqb_eq in E. exists s, c. cbn [den]. auto.
  - cbn [run] in H. destruct (rest s) eqn:E; [|discriminate].
    exists s, c. cbn [den]. auto.
  - cbn [run] in H. destruct (xorb _ _) eqn:E; [|discriminate].
    exists s, c. cbn [den]. auto.
Qed.

(** A denoted step consumes a word of the pattern's language. *)
Lemma den_span (r : re) : forall s c s' c',
  den r s c s' c' ->
  exists w, rest s = w ++ rest s' /\ idx s' = idx s + length w /\ lang r w.
Proof.
  induction r as [|p|r1 IH1 r2 IH2|r1 IH1 r2 IH2|g r' IH|n r' IH| | |];
    intros s c s' c' H; cbn [den lang] in *.
  - destruct H as [-> ->]. exists []. cbn. auto with arith.
  - destruct H as (a & t & Hr & Hp & -> & ->). exists [a]. cbn.
    repeat split; [exact Hr | lia | exists a; auto].
  - destruct H as (s1 & c1 & H1 & H2).
    apply IH1 in H1 as (w1 & Hr1 & Hi1 & L1).
    apply IH2 in H2 as (w2 & Hr2 & Hi2 & L2).
    exists (w1 ++ w2). rewrite <- app_assoc, <- Hr2, length_app.
    repeat split; [exact Hr1 | lia | exists w1, w2; auto].
  - destruct H as [H|H]; [apply IH1 in H | apply IH2 in H];
      destruct H as (w & Hr & Hi & L); exists w; auto.
  - induction H as [s c|s c s1 c1 s2 c2 H1 _ (w2 & Hr2 & Hi2 & ws & -> & Hall)].
    + exists []. cbn. repeat split; [lia|]. exists []. auto.
    + apply IH in H1 as (w1 & Hr1 & Hi1 & L1).
      exists (w1 ++ concat ws). rewrite <- app_assoc, <- Hr2, length_app.
      repeat split; [exact Hr1 | lia |].
      exists (w1 :: ws). split; [reflexivity | constructor; assumption].
  - destruct H as (c1 & H & ->). apply IH in H. exact H.
  - destruct H as (_ & -> & ->). exists []. cbn. auto with arith.
  - destruct H as (_ & -> & ->). exists []. cbn. auto with arith.
  - destruct H as (_ & -> & ->). exists []. cbn. auto with arith.
Qed.

Lemma between_span (s s' : pos) (w : list ascii) :
  rest s = w ++ rest s' -> idx s' = idx s + length w ->
  between s s' = string_of_list_ascii w.
Proof.
  intros Hr Hi. unfold between. rewrite Hr, Hi.
  replace (idx s + length w - idx s) with (length w) by lia.
  rewrite firstn_app, Nat.sub_diag, firstn_all. cbn. rewrite app_nil_r.
  reflexivity.
Qed.

End Sound.

Section Search.
Import Regex Semantics.

Lemma lang_min_len (r : re) : forall w, lang r w -> min_len r <= length w.
Proof.
  induction r as [|p|r1 IH1 r2 IH2|r1 IH1 r2 IH2|g r' IH|n r' IH| | |];
    intros w H; cbn [lang min_len] in *; try lia.
  - destruct H as (a & -> & _). cbn. lia.
  - destruct H as (w1 & w2 & -> & H1 & H2). rewrite length_app.
    apply IH1 in H1. apply IH2 in H2. lia.
  - destruct H as [H|H]; [apply IH1 in H | apply IH2 in H]; lia.
  - apply IH. exact H.
Qed.

Lemma lang_plus_chr (p : ascii -> bool) (w : list ascii) :
  lang (plus (Chr p)) w -> w <> [] /\ Forall (fun a => p a = true) w.
Proof.
  unfold plus. cbn [lang].
  intros (w1 & w2 & -> & (a & -> & Ha) & ws & -> & Hws).
  split; [discriminate|]. constructor; [exact Ha|].
  induction Hws as [|v ws (b & -> & Hb) _ IH]; cbn; [constructor|].
  constructor; assumption.
Qed.

Lemma lang_chr (a : ascii) (w : list ascii) : lang (chr a) w -> w = [a].
Proof.
  unfold chr. cbn [lang]. intros (b & -> & Hb).
  apply Ascii.eqb_eq in Hb. subst b. reflexivity.
Qed.

(** A successful search reports a denoted match that starts at or after
    the position searched from. *)
Lemma search_sound (r : re) (l : list ascii) : forall b i f,
  search r b i l = Some f ->
  exists b' pre l',
    l = pre ++ l' /\ f_start f = i + length pre
    /\ den r (Pos b' (f_start f) l') [] (f_end f) (f_caps f).
Proof.
  induction l as [|a l IH]; intros b i f H; cbn [search] in H.
  - destruct (run r (Pos b i []) [] _) as [[e c]|] eqn:E; [|discriminate].
    injection H as <-. apply run_sound in E as (s' & c' & Hd & Hk).
    injection Hk as -> ->. exists b, [], []. cbn. repeat split; [lia | exact Hd].
  - destruct (run r (Pos b i (a :: l)) [] _) as [[e c]|] eqn:E.
    + injection H as <-. apply run_sound in E as (s' & c' & Hd & Hk).
      injection Hk as -> ->. exists b, [], (a :: l). cbn.
      repeat split; [lia | exact Hd].
    + apply IH in H as (b' & pre & l' & -> & Hs & Hd).
      exists b', (a :: pre), l'. cbn. repeat split; [lia | exact Hd].
Qed.

Lemma exec_sound (r : re) (s : string) (m : caps) :
  exec r s = Some m ->
  exists b' pre l' i e,
    list_ascii_of_string s = pre ++ l' /\ i = length pre
    /\ den r (Pos b' i l') [] e m.
Proof.
  unfold exec. destruct (search r None 0 (list_ascii_of_string s)) as [f|] eqn:E;
    [|discriminate].
  cbn. intros H. injection H as <-.
  apply search_sound in E as (b' & pre & l' & Hl & Hs & Hd).
  exists b', pre, l', (f_start f), (f_end f). auto.
Qed.

(** Every string that the global match loop collects is the first group of
    a denoted match. *)
Lemma exec_all_from_sound (r : re) (x : string) : forall fuel p,
  In x (exec_all_from fuel r p) ->
  exists s e m, den r s [] e m /\ x = group 1 m.
Proof.
  induction fuel as [|fuel IH]; intros p H; cbn [exec_all_from] in H;
    [destruct H|].
  destruct (search r (before p) (idx p) (rest p)) as [f|] eqn:E; [|destruct H].
  destruct (idx p <? idx (f_end f)); [|destruct H].
  destruct H as [<-|H]; [|exact (IH _ H)].
  apply search_sound in E as (b' & pre & l' & _ & _ & Hd).
  eexists _, _, _. split; [exact Hd | reflexivity].
Qed.

Lemma ticket_body_shaped (letter : ascii -> bool) (s e : pos) (c c' : caps) :
  den (seqs [plus (Chr letter); chr "-"; plus d]) s c e c' ->
  shaped letter (between s e).
Proof.
  intros H. apply den_span in H as (w & Hr & Hi & L).
  rewrite (between_span s e w Hr Hi).
  cbn [seqs lang] in L. destruct L as (w1 & w23 & -> & L1 & w2 & w3 & -> & L2 & L3).
  apply lang_plus_chr in L1 as [N1 F1]. apply lang_chr in L2 as ->.
  apply lang_plus_chr in L3 as [N3 F3].
  exists w1, w3. auto.
Qed.

Lemma exec_all_ticket_shaped (text : string) :
  Forall ticket_shaped (exec_all Chat.ticketRegex text).
Proof.
  apply List.Forall_forall. intros x Hx. unfold exec_all in Hx.
  apply exec_all_from_sound in Hx as (s & e & m & Hd & ->).
  unfold Chat.ticketRegex in Hd.
  change (seqs [WordB; Grp 1 (seqs [plus (Chr JS.is_upper); chr "-"; plus d]); WordB])
    with (Seq WordB (Seq (Grp 1 (seqs [plus (Chr JS.is_upper); chr "-"; plus d])) WordB))
    in Hd.
  cbn [den] in Hd.
  destruct Hd as (s1 & c1 & (_ & -> & ->) & s2 & c2 & (c3 & Hb & ->) & (_ & -> & ->)).
  cbn [group]. cbn. apply (ticket_body_shaped JS.is_upper s s2 [] c3 Hb).
Qed.

End Search.

Section ParserInvariant.
Import Chat Parser.

Variable P : ChatMessage -> Prop.
Variable lines : list string.

Hypothesis header_A : forall line m,
  In line lines -> Regex.exec timePattern (JS.trim line) = Some m ->
  P (opened_A m).
Hypothesis header_B : forall line m,
  In line lines -> Regex.exec timePattern (JS.trim line) = None ->
  Regex.exec legacyPattern (JS.trim line) = Some m ->
  P (opened_B m).
Hypothesis continuation : forall cm line, P cm -> P (continue_message cm line).

Lemma parse_line_holds (st : parser) (line : string) :
  In line lines -> holds P st -> holds P (parse_line st line).
Proof.
  intros Hin [Hpushed Hopen]. unfold parse_line.
  destruct (String.eqb (JS.trim line) ""); [split; assumption|].
  destruct (Regex.exec timePattern (JS.trim line)) as [m|] eqn:EA.
  - split; cbn [p_messages currentMessage].
    + destruct (currentMessage st) as [cm|] eqn:Ec; [|exact Hpushed].
      destruct (negb (String.eqb (text cm) "")); [|exact Hpushed].
      apply Forall_app. split; [exact Hpushed|].
      constructor; [apply Hopen; reflexivity | constructor].
    + intros cm Hcm. injection Hcm as <-. exact (header_A line m Hin EA).
  - destruct (Regex.exec legacyPattern (JS.trim line)) as [m|] eqn:EB.
    + split; cbn [p_messages currentMessage].
      * destruct (currentMessage st) as [cm|] eqn:Ec; [|exact Hpushed].
        apply Forall_app. split; [exact Hpushed|].
        constructor; [apply Hopen; reflexivity | constructor].
      * intros cm Hcm. injection Hcm as <-. exact (header_B line m Hin EA EB).
    + destruct (currentMessage st) as [cm|] eqn:Ec;
        [|split; [exact Hpushed | intros cm' H; rewrite Ec in H; discriminate H]].
      split; cbn [p_messages currentMessage]; [exact Hpushed|].
      intros cm' Hcm. injection Hcm as <-. apply continuation.
      apply Hopen. reflexivity.
Qed.

Lemma parse_lines_holds : forall ls st,
  (forall line, In line ls -> In line lines) ->
  holds P st -> holds P (fold_left parse_line ls st).
Proof.
  induction ls as [|line ls IH]; intros st Hsub Hst; cbn [fold_left].
  - exact Hst.
  - apply IH; [intros l Hl; apply Hsub; right; exact Hl|].
    apply parse_line_holds; [apply Hsub; left; reflexivity | exact Hst].
Qed.

Lemma flush_holds (st : parser) : holds P st -> Forall P (flush st).
Proof.
  intros [Hpushed Hopen]. unfold flush.
  destruct (currentMessage st) as [cm|]; [|exact Hpushed].
  apply Forall_app. split; [exact Hpushed|].
  constructor; [apply Hopen; reflexivity | constructor].
Qed.

End ParserInvariant.

(** The principle for whole transcripts. *)
Lemma export_messages_all (P : Chat.ChatMessage -> Prop) (chatText : string) :
  (forall line m,
     In line (JS.split_lines chatText) ->
     Regex.exec Chat.timePattern (JS.trim line) = Some m ->
     P (Parser.opened_A m)) ->
  (forall line m,
     In line (JS.split_lines chatText) ->
     Regex.exec Chat.timePattern (JS.trim line) = None ->
     Regex.exec Chat.legacyPattern (JS.trim line) = Some m ->
     P (Parser.opened_B m)) ->
  (forall cm line, P cm -> P (Chat.continue_message cm line)) ->
  Forall P (Chat.messages (Chat.parseGoogleChatExport chatText)).
Proof.
  intros HA HB HC. cbn [Chat.parseGoogleChatExport Chat.messages].
  apply flush_holds. unfold Chat.parse_lines.
  apply (parse_lines_holds P (JS.split_lines chatText) HA HB HC);
    [auto|].
  split; [constructor | intros cm H; discriminate H].
Qed.

Section AddIds.

Lemma add_ids_in (found : list string) : forall ids x,
  In x (Chat.add_ids ids found) <-> In x ids \/ In x found.
Proof.
  unfold Chat.add_ids.
  induction found as [|t found IH]; intros ids x; cbn [fold_left].
  - cbn. tauto.
  - rewrite IH. destruct (existsb (String.eqb t) ids) eqn:E.
    + apply existsb_exists in E as (y & Hy & Hty).
      apply String.eqb_eq in Hty. subst y.
      cbn. split; [tauto|]. intros [H|[<-|H]]; auto.
    + rewrite in_app_iff. cbn. tauto.
Qed.

Lemma add_ids_nodup (found : list string) : forall ids,
  List.NoDup ids -> List.NoDup (Chat.add_ids ids found).
Proof.
  unfold Chat.add_ids.
  induction found as [|t found IH]; intros ids Hnd; cbn [fold_left].
  - exact Hnd.
  - apply IH. destruct (existsb (String.eqb t) ids) eqn:E; [exact Hnd|].
    apply NoDup_append; [exact Hnd | repeat constructor; intros [] |].
    intros x Hx [Heq|[]]. subst x.
    assert (existsb (String.eqb t) ids = true) as Hex; [|congruence].
    apply existsb_exists. exists t. split; [exact Hx | apply String.eqb_refl].
Qed.

End AddIds.

(** The ticket ids of every exported message are well formed. *)
Lemma export_ids_shaped (chatText : string) :
  Forall (fun msg => Forall Semantics.ticket_shaped (Chat.ticketIds msg))
         (Chat.messages (Chat.parseGoogleChatExport chatText)).
Proof.
  apply export_messages_all.
  - intros line m _ _. constructor.
  - intros line m _ _ _. apply exec_all_ticket_shaped.
  - intros cm line Hcm. cbn [Chat.continue_message Chat.ticketIds].
    apply List.Forall_forall. intros x Hx.
    apply add_ids_in in Hx as [Hx|Hx].
    + rewrite List.Forall_forall in Hcm. exact (Hcm x Hx).
    + pose proof (exec_all_ticket_shaped line) as H.
      rewrite List.Forall_forall in H. exact (H x Hx).
Qed.

(** X1. Every ticket identifier that the chat parsers extract, from an API
    message or from an exported transcript, consists of one or more capital
    letters, a hyphen and one or more digits. *)
Theorem extracted_ids_well_formed :
  (forall raw, Forall Semantics.ticket_shaped
                 (Chat.ticketIds (Chat.parse_message raw)))
  /\ (forall chatText,
        Forall (fun msg => Forall Semantics.ticket_shaped (Chat.ticketIds msg))
               (Chat.messages (Chat.parseGoogleChatExport chatText))).
Proof.
  split.
  - intros raw. apply exec_all_ticket_shaped.
  - apply export_ids_shaped.
Qed.

Section Captures.
Import Regex Semantics.

(** A pattern without groups leaves the captures as they are. *)
Lemma caps_free (r : re) : forall s c s' c',
  has_group r = false -> den r s c s' c' -> c' = c.
Proof.
  induction r as [|p|r1 IH1 r2 IH2|r1 IH1 r2 IH2|g r' IH|n r' IH| | |];
    intros s c s' c' Hg H; cbn [den has_group] in *.
  - destruct H as [_ ->]. reflexivity.
  - destruct H as (a & t & _ & _ & _ & ->). reflexivity.
  - apply orb_false_iff in Hg as [Hg1 Hg2].
    destruct H as (s1 & c1 & H1 & H2).
    apply (IH1 _ _ _ _ Hg1) in H1. apply (IH2 _ _ _ _ Hg2) in H2. congruence.
  - apply orb_false_iff in Hg as [Hg1 Hg2].
    destruct H as [H|H]; [exact (IH1 _ _ _ _ Hg1 H) | exact (IH2 _ _ _ _ Hg2 H)].
  - induction H as [s c|s c s1 c1 s2 c2 H1 _ IHiter]; [reflexivity|].
    apply (IH _ _ _ _ Hg) in H1. congruence.
  - discriminate Hg.
  - destruct H as (_ & _ & ->). reflexivity.
  - destruct H as (_ & _ & ->). reflexivity.
  - destruct H as (_ & _ & ->). reflexivity.
Qed.

Lemma den_group (n : nat) (r : re) (s : pos) (c : caps) (s' : pos) (c' : caps) :
  has_group r = false ->
  den (Grp n r) s c s' c' ->
  c' = (n, between s s') :: c
  /\ exists w, between s s' = string_of_list_ascii w /\ lang r w.
Proof.
  intros Hg (c1 & H & ->). rewrite (caps_free r _ _ _ _ Hg H). split; [reflexivity|].
  apply den_span in H as (w & Hr & Hi & L).
  exists w. split; [apply between_span; assumption | exact L].
Qed.

Lemma lang_seq (r1 r2 : re) (w : list ascii) :
  lang (Seq r1 r2) w -> exists w1 w2, w = w1 ++ w2 /\ lang r1 w1 /\ lang r2 w2.
Proof. intros H. exact H. Qed.

End Captures.

Section Strings.

Lemma word_not_space (a : ascii) : JS.is_word a = true -> JS.is_space a = false.
Proof.
  destruct a as [[] [] [] [] [] [] [] []]; vm_compute; congruence.
Qed.

Lemma digit_not_space (a : ascii) : JS.is_digit a = true -> JS.is_space a = false.
Proof.
  destruct a as [[] [] [] [] [] [] [] []]; vm_compute; congruence.
Qed.

Lemma string_nonempty (l : list ascii) :
  l <> [] -> string_of_list_ascii l <> "".
Proof. destruct l; [congruence | discriminate]. Qed.

Lemma drop_space_keeps (l : list ascii) (a : ascii) :
  In a l -> JS.is_space a = false -> JS.drop_space l <> [].
Proof.
  induction l as [|b l IH]; intros Hin Ha; [destruct Hin|].
  cbn [JS.drop_space]. destruct (JS.is_space b) eqn:Eb; [|discriminate].
  destruct Hin as [->|Hin]; [congruence | exact (IH Hin Ha)].
Qed.

(** A string that starts with a character other than white space does not
    trim to the empty string. *)
Lemma trim_nonempty (s : string) (a : ascii) (t : list ascii) :
  list_ascii_of_string s = a :: t -> JS.is_space a = false ->
  JS.trim s <> "".
Proof.
  intros Hs Ha. unfold JS.trim. rewrite Hs. cbn [JS.drop_space]. rewrite Ha.
  apply string_nonempty. intros Hrev.
  apply (f_equal (@length ascii)) in Hrev. rewrite length_rev in Hrev.
  apply length_zero_iff_nil in Hrev. revert Hrev.
  apply (drop_space_keeps _ a); [|exact Ha].
  apply in_rev. rewrite rev_involutive. left. reflexivity.
Qed.

(** Removing a literal suffix shorter than the rest of the string keeps its
    first character. *)
Lemma strip_suffix_head (suffix s : string) (a : ascii) (t : list ascii) :
  list_ascii_of_string s = a :: t ->
  length (list_ascii_of_string suffix) <= length t ->
  exists t', list_ascii_of_string (JS.strip_suffix suffix s) = a :: t'.
Proof.
  intros Hs Hlen. unfold JS.strip_suffix. rewrite Hs.
  destruct (JS.is_prefix _ _); [|exists t; exact Hs].
  rewrite list_ascii_of_string_of_list_ascii, skipn_rev, rev_involutive,
    length_rev.
  cbn [length].
  replace (S (length t) - length (list_ascii_of_string suffix))
    with (S (length t - length (list_ascii_of_string suffix))) by lia.
  cbn [firstn]. eexists. reflexivity.
Qed.

End Strings.

Section Headers.
Import Regex Semantics.

(** The date and time clause of a Header A match starts with a word
    character and is longer than the marker that is stripped from it. *)
Lemma time_header_clause (line : string) (m : caps) :
  exec Chat.timePattern line = Some m ->
  exists a t,
    list_ascii_of_string (group 2 m) = a :: t
    /\ JS.is_word a = true /\ 8 <= length t.
Proof.
  intros H. apply exec_sound in H as (b' & pre & l' & i & e & _ & _ & Hd).
  unfold Chat.timePattern in Hd.
  match type of Hd with
  | context [Grp 2 ?b] => remember b as clause eqn:Hclause
  end.
  cbn [seqs den] in Hd.
  destruct Hd as (s1 & c1 & (_ & -> & ->) & s2 & c2 & H1 & s3 & c3 & Hcomma
                  & s4 & c4 & Hsp & s5 & c5 & H2 & s6 & c6 & Hstar
                  & (_ & -> & ->)).
  apply den_group in H1 as [-> _]; [|reflexivity].
  apply caps_free in Hcomma as ->; [|reflexivity].
  apply caps_free in Hsp as ->; [|reflexivity].
  apply den_group in H2 as [-> (w & Hw & L)]; [|subst clause; reflexivity].
  apply caps_free in Hstar as ->; [|reflexivity].
  cbn [group Nat.eqb]. rewrite Hw, list_ascii_of_string_of_list_ascii.
  pose proof (lang_min_len clause w L) as Hmin.
  subst clause. cbn [seqs] in L. apply lang_seq in L as (w1 & w2 & -> & L1 & _).
  apply lang_plus_chr in L1 as [N1 F1].
  destruct w1 as [|a t]; [congruence|].
  exists a, (t ++ w2). split; [reflexivity|].
  split; [inversion F1; assumption|].
  change (9 <= length ((a :: t) ++ w2)) in Hmin. cbn [app length] in Hmin. lia.
Qed.

(** The time token of a Header B match is not empty. *)
Lemma legacy_header_time (line : string) (m : caps) :
  exec Chat.legacyPattern line = Some m -> group 1 m <> "".
Proof.
  intros H. apply exec_sound in H as (b' & pre & l' & i & e & _ & _ & Hd).
  unfold Chat.legacyPattern in Hd.
  match type of Hd with
  | context [Grp 1 ?b] => remember b as token eqn:Htoken
  end.
  cbn [seqs den] in Hd.
  destruct Hd as (s1 & c1 & (_ & -> & ->) & s2 & c2 & H1 & s3 & c3 & Hsp
                  & s4 & c4 & H2 & s5 & c5 & Hcolon & s6 & c6 & Hstar
                  & s7 & c7 & H3 & (_ & -> & ->)).
  apply den_group in H1 as [-> (w & Hw & L)]; [|subst token; reflexivity].
  apply caps_free in Hsp as ->; [|reflexivity].
  apply den_group in H2 as [-> _]; [|reflexivity].
  apply caps_free in Hcolon as ->; [|reflexivity].
  apply caps_free in Hstar as ->; [|reflexivity].
  apply den_group in H3 as [-> _]; [|reflexivity].
  cbn [group Nat.eqb]. rewrite Hw. apply string_nonempty.
  pose proof (lang_min_len token w L) as Hmin. subst token.
  change (4 <= length w) in Hmin. destruct w; [cbn in Hmin; lia | discriminate].
Qed.

End Headers.

Section ExportKeys.
Import Chat Parser.

Lemma keyed_by_timestamp_intro (s t ts : string) (ids : list string) :
  ts <> "" -> keyed_by_timestamp (export_message s t ts ids).
Proof.
  intros Hts. split; [reflexivity|]. exists ts.
  split; [reflexivity|]. split; [exact Hts|].
  unfold stable_key, JS.or_opt. cbn.
  apply String.eqb_neq in Hts. rewrite Hts. reflexivity.
Qed.

Lemma keyed_by_timestamp_truthy (msg : ChatMessage) :
  keyed_by_timestamp msg -> JS.truthy (stable_key msg) = true.
Proof.
  intros (_ & ts & _ & Hts & ->). cbn.
  apply String.eqb_neq in Hts. rewrite Hts. reflexivity.
Qed.

(** With a key of its own a message is correlated without a random draw. *)
Lemma correlate_message_fixed (random1 random2 : nat -> string)
    (st : correlator) (msg : ChatMessage) :
  JS.truthy (stable_key msg) = true ->
  correlate_message random1 st msg = correlate_message random2 st msg.
Proof.
  intros Hk. unfold correlate_message, msgId.
  destruct (stable_key msg) as [k|]; [|discriminate Hk].
  cbn in Hk |- *. apply negb_true_iff in Hk. rewrite Hk. reflexivity.
Qed.

Lemma correlate_fold_fixed (random1 random2 : nat -> string)
    (msgs : list ChatMessage) : forall st,
  Forall (fun msg => JS.truthy (stable_key msg) = true) msgs ->
  fold_left (correlate_message random1) msgs st =
  fold_left (correlate_message random2) msgs st.
Proof.
  induction msgs as [|msg msgs IH]; intros st Hall; [reflexivity|].
  inversion Hall as [|? ? Hmsg Hrest]; subst. cbn [fold_left].
  rewrite (correlate_message_fixed random1 random2 st msg Hmsg).
  apply IH. exact Hrest.
Qed.

End ExportKeys.

(** X2. Every message parsed from an exported transcript carries a
    non-empty timestamp and no name, so its correlation key is that
    timestamp; the correlation of an exported chat therefore never draws a
    random key: it is the same for every random source. *)
Theorem export_keys_are_timestamps (chatText : string) :
  Forall Parser.keyed_by_timestamp
         (Chat.messages (Chat.parseGoogleChatExport chatText))
  /\ (forall (random1 random2 : nat -> string) (T : Type) (ticketData : T),
        Chat.correlateChatsWithTickets random1 ticketData
          (Some (Chat.parseGoogleChatExport chatText)) =
        Chat.correlateChatsWithTickets random2 ticketData
          (Some (Chat.parseGoogleChatExport chatText))).
Proof.
  assert (Hall : Forall Parser.keyed_by_timestamp
                   (Chat.messages (Chat.parseGoogleChatExport chatText))).
  { apply export_messages_all.
    - intros line m _ Hm. apply keyed_by_timestamp_intro.
      destruct (time_header_clause _ m Hm) as (a & t & Hg & Ha & Hlen).
      destruct (strip_suffix_head ", Edited" _ a t Hg Hlen) as (t' & Hs).
      apply (trim_nonempty _ a t' Hs). apply word_not_space. exact Ha.
    - intros line m _ _ Hm. apply keyed_by_timestamp_intro.
      exact (legacy_header_time _ m Hm).
    - intros cm line (Hn & ts & Hts & Hne & Hk). split; [exact Hn|].
      exists ts. split; [exact Hts|]. split; [exact Hne | exact Hk]. }
  split; [exact Hall|].
  intros random1 random2 T ticketData. unfold Chat.correlateChatsWithTickets.
  rewrite (correlate_fold_fixed random1 random2); [reflexivity|].
  eapply List.Forall_impl; [|exact Hall].
  intros msg. apply keyed_by_timestamp_truthy.
Qed.

Section Continuation.

(** The ids after a continuation line: those before, then each newly
    mentioned one once. *)
Lemma add_ids_extends (found : list string) : forall ids,
  exists extra,
    Chat.add_ids ids found = ids ++ extra
    /\ List.NoDup extra
    /\ (forall x, In x extra <-> In x found /\ ~ In x ids).
Proof.
  unfold Chat.add_ids.
  induction found as [|t found IH]; intros ids; cbn [fold_left].
  - exists []. rewrite app_nil_r. split; [reflexivity|].
    split; [constructor|]. intros x. cbn. tauto.
  - destruct (existsb (String.eqb t) ids) eqn:E.
    + apply existsb_exists in E as (y & Hy & Hty).
      apply String.eqb_eq in Hty. subst y.
      destruct (IH ids) as (extra & Heq & Hnd & Hin).
      exists extra. split; [exact Heq|]. split; [exact Hnd|].
      intros x. rewrite Hin. cbn. split; [tauto|].
      intros [[<-|H] Hn]; [contradiction | tauto].
    + assert (Ht : ~ In t ids).
      { intros Hin.
        assert (existsb (String.eqb t) ids = true) as Hex; [|congruence].
        apply existsb_exists. exists t. split; [exact Hin | apply String.eqb_refl]. }
      destruct (IH (ids ++ [t])) as (extra & Heq & Hnd & Hin).
      exists (t :: extra). split; [rewrite Heq, <- app_assoc; reflexivity|].
      split.
      * constructor; [|exact Hnd]. intros Hx. apply Hin in Hx as [_ Hx].
        apply Hx. apply in_or_app. right. left. reflexivity.
      * intros x. cbn. rewrite Hin, in_app_iff. cbn.
        destruct (string_dec t x) as [->|Hne]; [tauto|]. tauto.
Qed.

End Continuation.

(** X3. A continuation line keeps the ticket ids the open message already
    has, in place, and appends each ticket it newly mentions exactly once;
    so in a transcript without Header B lines no message lists a ticket
    twice. *)
Theorem continuation_ids_deduplicated :
  (forall cm line,
     exists extra,
       Chat.ticketIds (Chat.continue_message cm line)
       = Chat.ticketIds cm ++ extra
       /\ List.NoDup extra
       /\ (forall x, In x extra <->
             In x (Regex.exec_all Chat.ticketRegex line)
             /\ ~ In x (Chat.ticketIds cm)))
  /\ (forall chatText,
        Parser.header_A_only chatText ->
        Forall (fun msg => List.NoDup (Chat.ticketIds msg))
               (Chat.messages (Chat.parseGoogleChatExport chatText))).
Proof.
  split.
  - intros cm line. cbn [Chat.continue_message Chat.ticketIds].
    apply add_ids_extends.
  - intros chatText Honly. apply export_messages_all.
    + intros line m _ _. constructor.
    + intros line m Hin HA HB. exfalso.
      destruct (Honly line Hin) as [H|H]; congruence.
    + intros cm line Hcm. cbn [Chat.continue_message Chat.ticketIds].
      apply add_ids_nodup. exact Hcm.
Qed.

Lemma continuation_ids_deduplicated_witness :
  Forall (fun msg => List.NoDup (Chat.ticketIds msg))
         (Chat.messages (Chat.parseGoogleChatExport scenario)).
Proof.
  apply continuation_ids_deduplicated.
  intros line Hin. vm_compute in Hin.
  destruct Hin as [<-|[<-|[<-|[<-|[]]]]];
    ((left; vm_compute; discriminate) || (right; vm_compute; reflexivity)).
Defined.

Section Participants.

Lemma distinct_aux_complete (l : list string) : forall (seen : gset string) x,
  In x l -> x ∈ seen \/ In x (Chat.distinct_aux seen l).
Proof.
  induction l as [|y l IH]; intros seen x Hx; [destruct Hx|].
  cbn [Chat.distinct_aux].
  destruct (decide (y ∈ seen)) as [Hy|Hy].
  - destruct Hx as [<-|Hx]; [left; exact Hy | exact (IH seen x Hx)].
  - destruct Hx as [<-|Hx]; [right; left; reflexivity|].
    destruct (IH ({[y]} ∪ seen) x Hx) as [Hs|Hr]; [|right; right; exact Hr].
    apply elem_of_union in Hs as [Hs|Hs]; [|left; exact Hs].
    apply elem_of_singleton in Hs. right. left. symmetry. exact Hs.
Qed.

Lemma distinct_spec (l : list string) :
  List.NoDup (Chat.distinct l) /\ (forall x, In x (Chat.distinct l) <-> In x l).
Proof.
  unfold Chat.distinct.
  destruct (distinct_aux_spec l ∅) as [Hnd Hsub]. split; [exact Hnd|].
  intros x. split.
  - intros Hx. apply Hsub in Hx as [_ Hx]. exact Hx.
  - intros Hx. destruct (distinct_aux_complete l ∅ x Hx) as [Hs|Hr]; [|exact Hr].
    exfalso. exact (not_elem_of_empty _ Hs).
Qed.

End Participants.

(** What the chat data of either parser holds beside its messages. *)
Lemma parsed_chat_shape (cd : Chat.ChatData) :
  Aggregates.parsed_chat cd ->
  Chat.participants cd = Chat.distinct (map Chat.sender (Chat.messages cd))
  /\ (exists mk,
        Chat.ticketMentions cd = Chat.build_mentions mk (Chat.messages cd))
  /\ Forall (fun msg => Forall Semantics.ticket_shaped (Chat.ticketIds msg))
            (Chat.messages cd).
Proof.
  intros [parsed raw Hcd|chatText ->].
  - destruct (assemble_fields parsed raw cd Hcd) as (-> & -> & -> & _).
    split; [reflexivity|]. split; [exists Chat.api_mention; reflexivity|].
    apply List.Forall_forall. intros msg Hmsg.
    apply in_map_iff in Hmsg as (r & <- & _). apply exec_all_ticket_shaped.
  - split; [reflexivity|]. split; [exists Chat.export_mention; reflexivity|].
    apply export_ids_shaped.
Qed.

(** A name with a hyphen is no member of [Object.prototype]. *)
Lemma hyphenated_own (k : string) :
  In "-"%char (list_ascii_of_string k) -> JS.on_prototype k = false.
Proof.
  intros Hin. destruct (JS.on_prototype k) eqn:Hp; [|reflexivity].
  exfalso. unfold JS.on_prototype, JS.inherited in Hp.
  destruct (find (fun kv => String.eqb (fst kv) k) JS.prototype_members)
    as [kv|] eqn:Hfind; [|discriminate Hp].
  apply find_some in Hfind as [Hmem Heq]. apply String.eqb_eq in Heq.
  subst k.
  assert (Hall : forallb
                   (fun kv => negb (existsb (Ascii.eqb "-")
                                      (list_ascii_of_string (fst kv))))
                   JS.prototype_members = true) by reflexivity.
  rewrite forallb_forall in Hall. specialize (Hall kv Hmem).
  apply negb_true_iff in Hall.
  assert (existsb (Ascii.eqb "-") (list_ascii_of_string (fst kv)) = true)
    as Hex by (apply existsb_exists; exists "-"%char;
               split; [exact Hin | reflexivity]).
  congruence.
Qed.

(** The ticket ids of the messages of either parser are own keys of
    [ticketMentions]. *)
Lemma ticket_ids_own (cd : Chat.ChatData) :
  Aggregates.parsed_chat cd ->
  Forall (fun msg => Forall (fun i => JS.on_prototype i = false)
                            (Chat.ticketIds msg))
         (Chat.messages cd).
Proof.
  intros Hcd. destruct (parsed_chat_shape cd Hcd) as (_ & _ & Hshape).
  eapply List.Forall_impl; [|exact Hshape]. intros msg Hmsg.
  eapply List.Forall_impl; [|exact Hmsg].
  intros i (letters & digits & -> & _). apply hyphenated_own.
  rewrite list_ascii_of_string_of_list_ascii.
  apply in_or_app. right. left. reflexivity.
Qed.

(** X4. In the chat data of either parser, [participants] lists every
    sender of a message exactly once and nobody else. *)
Theorem participants_are_the_senders (cd : Chat.ChatData) :
  Aggregates.parsed_chat cd ->
  List.NoDup (Chat.participants cd)
  /\ (forall s, In s (Chat.participants cd) <->
        exists msg, In msg (Chat.messages cd) /\ Chat.sender msg = s).
Proof.
  intros Hcd. destruct (parsed_chat_shape cd Hcd) as (-> & _).
  split; [apply distinct_spec|].
  intros s. rewrite (proj2 (distinct_spec _)), in_map_iff.
  split; intros (msg & H1 & H2); exists msg; auto.
Qed.

Lemma participants_are_the_senders_witness :
  List.NoDup (Chat.participants (Chat.parseGoogleChatExport same_minute))
  /\ In "Bob" (Chat.participants (Chat.parseGoogleChatExport same_minute)).
Proof.
  destruct (participants_are_the_senders
              (Chat.parseGoogleChatExport same_minute)
              (Aggregates.from_export _ same_minute eq_refl)) as [Hnd Hin].
  split; [exact Hnd|]. apply Hin.
  exists (Chat.export_message "Bob" "ok" "Nov 24, 2:24 PM" []).
  split; [vm_compute; right; left; reflexivity | reflexivity].
Defined.

Section MentionKeys.
Import Chat.

Variable mk : ChatMessage -> Mention.

Lemma push_ids_nonempty (e : Mention) (ids : list string) :
  forall tm : gmap string (list Mention),
  (forall t l, tm !! t = Some l -> l <> []) ->
  forall t l,
    fold_left (fun tm' i => push_mention tm' i e) ids tm !! t = Some l ->
    l <> [].
Proof.
  induction ids as [|i ids IH]; intros tm Htm t l; cbn [fold_left];
    [apply Htm|].
  apply IH. intros t' l'. unfold push_mention.
  destruct (decide (i = t')) as [->|Hne].
  - rewrite lookup_insert_eq. intros H. injection H as <-.
    destruct (default [] (tm !! t')); discriminate.
  - rewrite lookup_insert_ne by exact Hne. apply Htm.
Qed.

Lemma build_mentions_nonempty (msgs : list ChatMessage) :
  forall tm : gmap string (list Mention),
  (forall t l, tm !! t = Some l -> l <> []) ->
  forall t l,
    fold_left
      (fun tm msg =>
         fold_left (fun tm' i => push_mention tm' i (mk msg)) (ticketIds msg) tm)
      msgs tm !! t = Some l ->
    l <> [].
Proof.
  induction msgs as [|msg msgs IH]; intros tm Htm t l; cbn [fold_left];
    [apply Htm|].
  apply IH. apply push_ids_nonempty. exact Htm.
Qed.

Lemma occurrences_nil (msgs : list ChatMessage) (t : string) :
  occurrences mk msgs t = [] <->
  forall msg, In msg msgs -> ~ In t (ticketIds msg).
Proof.
  unfold occurrences. induction msgs as [|msg msgs IH]; cbn [flat_map].
  - split; [intros _ msg [] | reflexivity].
  - split.
    + intros H. apply app_eq_nil in H as [H1 H2].
      intros m [Heq|Hm]; [subst m|exact (proj1 IH H2 m Hm)].
      intros Hin. apply (count_occ_In string_dec) in Hin.
      destruct (count_occ string_dec (ticketIds msg) t); [lia | discriminate H1].
    + intros H.
      assert (count_occ string_dec (ticketIds msg) t = 0) as ->.
      { apply count_occ_not_In. apply H. left. reflexivity. }
      cbn. apply IH. intros m Hm. apply H. right. exact Hm.
Qed.

Lemma mentioned_dec (msgs : list ChatMessage) (t : string) :
  (exists msg, In msg msgs /\ In t (ticketIds msg))
  \/ (forall msg, In msg msgs -> ~ In t (ticketIds msg)).
Proof.
  induction msgs as [|msg msgs [(m & Hm & Ht)|IH]].
  - right. intros msg [].
  - left. exists m. split; [right; exact Hm | exact Ht].
  - destruct (in_dec string_dec t (ticketIds msg)) as [Hin|Hnin].
    + left. exists msg. split; [left; reflexivity | exact Hin].
    + right. intros m [Heq|Hm]; [subst m; exact Hnin | exact (IH m Hm)].
Qed.

Lemma build_mentions_key (msgs : list ChatMessage) (t : string) :
  is_Some (build_mentions mk msgs !! t) <->
  exists msg, In msg msgs /\ In t (ticketIds msg).
Proof.
  pose proof (build_mentions_lookup mk t msgs) as Hl.
  split.
  - intros [l Hsome]. rewrite Hsome in Hl. cbv [default from_option id] in Hl.
    assert (Hne : l <> []).
    { unfold build_mentions in Hsome.
      apply (build_mentions_nonempty msgs ∅) in Hsome; [exact Hsome|].
      intros t' l'. rewrite lookup_empty. discriminate. }
    destruct (mentioned_dec msgs t) as [Hex|Hall]; [exact Hex|].
    exfalso. apply Hne. rewrite Hl.
    exact (proj2 (occurrences_nil msgs t) Hall).
  - intros (msg & Hm & Ht).
    destruct (build_mentions mk msgs !! t) as [l|] eqn:E; [eexists; reflexivity|].
    exfalso. cbv [default from_option id] in Hl. symmetry in Hl.
    exact (proj1 (occurrences_nil msgs t) Hl msg Hm Ht).
Qed.

End MentionKeys.

(** X5. In the chat data of either parser a ticket is a key of
    [ticketMentions] exactly when some message mentions it, and every key
    is a well-formed ticket identifier. *)
Theorem mention_keys_are_mentioned_tickets (cd : Chat.ChatData) (t : string) :
  Aggregates.parsed_chat cd ->
  (is_Some (Chat.ticketMentions cd !! t) <->
   exists msg, In msg (Chat.messages cd) /\ In t (Chat.ticketIds msg))
  /\ (is_Some (Chat.ticketMentions cd !! t) -> Semantics.ticket_shaped t).
Proof.
  intros Hcd.
  assert (Hkey : is_Some (Chat.ticketMentions cd !! t) <->
                 exists msg, In msg (Chat.messages cd) /\ In t (Chat.ticketIds msg)).
  { destruct (parsed_chat_shape cd Hcd) as (_ & (mk & ->) & _).
    apply build_mentions_key. }
  split; [exact Hkey|].
  intros Hsome. apply Hkey in Hsome as (msg & Hmsg & Ht).
  destruct (parsed_chat_shape cd Hcd) as (_ & _ & Hall).
  rewrite List.Forall_forall in Hall.
  pose proof (Hall msg Hmsg) as Hshaped.
  rewrite List.Forall_forall in Hshaped. exact (Hshaped t Ht).
Qed.

Lemma mention_keys_are_mentioned_tickets_witness :
  is_Some (Chat.ticketMentions (Chat.parseGoogleChatExport scenario)
             !! "UNSER-1141")
  /\ Semantics.ticket_shaped "UNSER-1141".
Proof.
  destruct (mention_keys_are_mentioned_tickets
              (Chat.parseGoogleChatExport scenario) "UNSER-1141"
              (Aggregates.from_export _ scenario eq_refl)) as [Hkey Hshape].
  assert (Hsome : is_Some (Chat.ticketMentions
                             (Chat.parseGoogleChatExport scenario)
                             !! "UNSER-1141")).
  { apply Hkey.
    exists (Chat.export_message "Alice" "Let's ship UNSER-1141 today"
              "Nov 24, 2:24 PM" ["UNSER-1141"]).
    split; [vm_compute; left; reflexivity | left; reflexivity]. }
  split; [exact Hsome | exact (Hshape Hsome)].
Defined.

Section Buckets.

Context {A V : Type}.
Variable key : A -> string.
Variable val : A -> V.

(** When the loop goes through, the bucket of a key has grown by the
    elements with that key, in order. *)
Lemma push_all_lookup (l : list A) : forall (o o' : gmap string (list V)),
  JS.push_all key val o l = Some o' ->
  forall k,
    default [] (o' !! k) =
    default [] (o !! k)
    ++ map val (List.filter (fun x => String.eqb (key x) k) l).
Proof.
  induction l as [|x l IH]; intros o o' H k; cbn [JS.push_all] in H.
  - injection H as <-. cbn [List.filter map]. rewrite app_nil_r. reflexivity.
  - destruct (JS.push_to o (key x) (val x)) as [o1|] eqn:Hpush;
      [|discriminate].
    rewrite (IH o1 o' H k). cbn [List.filter].
    assert (H1 : default [] (o1 !! k) =
                 default [] (o !! k)
                 ++ (if String.eqb (key x) k then [val x] else [])).
    { unfold JS.push_to in Hpush.
      destruct (o !! key x) as [b|] eqn:Hb.
      - injection Hpush as <-. destruct (String.eqb (key x) k) eqn:E.
        + apply String.eqb_eq in E. subst k.
          rewrite lookup_insert_eq, Hb. reflexivity.
        + apply String.eqb_neq in E. rewrite lookup_insert_ne by exact E.
          rewrite app_nil_r. reflexivity.
      - destruct (JS.on_prototype (key x)); [discriminate|].
        injection Hpush as <-. destruct (String.eqb (key x) k) eqn:E.
        + apply String.eqb_eq in E. subst k.
          rewrite lookup_insert_eq, Hb. reflexivity.
        + apply String.eqb_neq in E. rewrite lookup_insert_ne by exact E.
          rewrite app_nil_r. reflexivity. }
    rewrite H1. destruct (String.eqb (key x) k); cbn [map];
      rewrite <- app_assoc; reflexivity.
Qed.

Lemma push_all_nonempty (l : list A) : forall (o o' : gmap string (list V)),
  (forall k b, o !! k = Some b -> b <> []) ->
  JS.push_all key val o l = Some o' ->
  forall k b, o' !! k = Some b -> b <> [].
Proof.
  induction l as [|x l IH]; intros o o' Ho H; cbn [JS.push_all] in H.
  - injection H as <-. exact Ho.
  - destruct (JS.push_to o (key x) (val x)) as [o1|] eqn:Hpush;
      [|discriminate].
    apply (IH o1 o'); [|exact H].
    intros k b. unfold JS.push_to in Hpush.
    destruct (o !! key x) as [b0|] eqn:Hb.
    + injection Hpush as <-. destruct (decide (key x = k)) as [<-|Hne].
      * rewrite lookup_insert_eq. intros E. injection E as <-.
        destruct b0; discriminate.
      * rewrite lookup_insert_ne by exact Hne. apply Ho.
    + destruct (JS.on_prototype (key x)); [discriminate|].
      injection Hpush as <-. destruct (decide (key x = k)) as [<-|Hne].
      * rewrite lookup_insert_eq. intros E. injection E as <-. discriminate.
      * rewrite lookup_insert_ne by exact Hne. apply Ho.
Qed.

End Buckets.

(** X6. Whenever the API variant assembles a dataset, the messages are
    grouped by thread without loss or duplication: the bucket of a thread
    holds exactly the messages of that thread, in message order (messages
    without a thread under "no_thread"), and no bucket is empty. *)
Theorem threads_group_the_messages (parsed : Chat.ParsedChatUrl)
    (raw : list Chat.RawMessage) (cd : Chat.ChatData) (k : string) :
  Chat.assemble parsed raw = Some cd ->
  default [] (Chat.threads cd !! k) =
    List.filter (fun msg => String.eqb (Chat.threadId msg) k)
                (Chat.messages cd)
  /\ (is_Some (Chat.threads cd !! k) <->
      exists msg, In msg (Chat.messages cd) /\ Chat.threadId msg = k).
Proof.
  intros Hcd.
  destruct (assemble_fields parsed raw cd Hcd) as (Hm & _ & _ & Hth & _).
  rewrite Hm. unfold Chat.group_threads in Hth.
  pose proof (push_all_lookup Chat.threadId id _ _ _ Hth k) as Hl.
  rewrite lookup_empty, map_id in Hl. cbn [default from_option app] in Hl.
  split; [exact Hl|]. split.
  - intros [l Hsome].
    assert (Hne : l <> []).
    { apply (push_all_nonempty Chat.threadId id _ _ _) with (k := k) (b := l)
        in Hth; [exact Hth | | exact Hsome].
      intros k' l'. rewrite lookup_empty. discriminate. }
    rewrite Hsome in Hl. cbv [default from_option id] in Hl.
    destruct l as [|msg l]; [congruence|].
    assert (Hin : In msg (List.filter
                            (fun msg => String.eqb (Chat.threadId msg) k)
                            (map Chat.parse_message raw))).
    { rewrite <- Hl. left. reflexivity. }
    apply filter_In in Hin as [Hin Hk]. exists msg. split; [exact Hin|].
    apply String.eqb_eq. exact Hk.
  - intros (msg & Hin & Hk).
    destruct (Chat.threads cd !! k) as [l|] eqn:E; [eexists; reflexivity|].
    exfalso. cbv [default from_option id] in Hl.
    assert (Hf : In msg (List.filter
                           (fun msg => String.eqb (Chat.threadId msg) k)
                           (map Chat.parse_message raw))).
    { apply filter_In. split; [exact Hin | apply String.eqb_eq; exact Hk]. }
    rewrite <- Hl in Hf. destruct Hf.
Qed.

Lemma threads_group_the_messages_witness :
  exists cd,
    Chat.assemble space_AAAA [twice] = Some cd
    /\ default [] (Chat.threads cd !! "no_thread") = Chat.messages cd.
Proof.
  assert (exists cd, Chat.assemble space_AAAA [twice] = Some cd) as [cd Hcd]
    by (vm_compute; eauto).
  exists cd. split; [exact Hcd|].
  rewrite (proj1 (threads_group_the_messages space_AAAA [twice] cd "no_thread"
                    Hcd)).
  destruct (assemble_fields _ _ _ Hcd) as (-> & _). vm_compute. reflexivity.
Defined.

Section Copy.
Import Chat.

Lemma copy_fold_lookup (tm : gmap string (list Mention)) (keys : list string)
    (k : string) : forall out : gmap string (list Mention),
  fold_left (fun out i => JS.assign out i (default [] (tm !! i))) keys out !! k =
  if in_dec string_dec k keys
  then (if String.eqb k "__proto__" then out !! k
        else Some (default [] (tm !! k)))
  else out !! k.
Proof.
  induction keys as [|i keys IH]; intros out; cbn [fold_left].
  - destruct (in_dec string_dec k []) as [[]|_]. reflexivity.
  - rewrite IH.
    assert (Hstep : JS.assign out i (default [] (tm !! i)) !! k =
                    if String.eqb k "__proto__" then out !! k
                    else if String.eqb i k then Some (default [] (tm !! k))
                         else out !! k).
    { unfold JS.assign. destruct (String.eqb i "__proto__") eqn:Ei.
      - apply String.eqb_eq in Ei. subst i.
        destruct (String.eqb k "__proto__") eqn:Ek; [reflexivity|].
        rewrite String.eqb_sym, Ek. reflexivity.
      - destruct (String.eqb i k) eqn:Eik.
        + apply String.eqb_eq in Eik. subst k. rewrite Ei.
          apply lookup_insert_eq.
        + apply String.eqb_neq in Eik. rewrite lookup_insert_ne by exact Eik.
          destruct (String.eqb k "__proto__"); reflexivity. }
    rewrite Hstep.
    destruct (in_dec string_dec k keys) as [Hin|Hnin].
    + destruct (in_dec string_dec k (i :: keys)) as [_|Hn];
        [|exfalso; apply Hn; right; exact Hin].
      destruct (String.eqb k "__proto__"); reflexivity.
    + destruct (String.eqb i k) eqn:Eik.
      * apply String.eqb_eq in Eik. subst i.
        destruct (in_dec string_dec k (k :: keys)) as [_|Hn];
          [|exfalso; apply Hn; left; reflexivity].
        destruct (String.eqb k "__proto__"); reflexivity.
      * apply String.eqb_neq in Eik.
        destruct (in_dec string_dec k (i :: keys)) as [[Heq|Hin]|_];
          [congruence | contradiction |].
        destruct (String.eqb k "__proto__"); reflexivity.
Qed.

Lemma copy_mentions_lookup (tm : gmap string (list Mention)) (k : string) :
  copy_mentions tm !! k =
  if String.eqb k "__proto__" then None else tm !! k.
Proof.
  unfold copy_mentions. rewrite copy_fold_lookup.
  rewrite lookup_empty.
  destruct (in_dec string_dec k (map fst (map_to_list tm))) as [Hin|Hnin].
  - apply in_map_iff in Hin as ([k' v] & Hk & Hin). cbn in Hk. subst k'.
    apply list_elem_of_In, elem_of_map_to_list in Hin. rewrite Hin.
    reflexivity.
  - destruct (tm !! k) as [v|] eqn:E;
      [|destruct (String.eqb k "__proto__"); reflexivity].
    exfalso. apply Hnin. apply in_map_iff. exists (k, v).
    split; [reflexivity|]. apply list_elem_of_In, elem_of_map_to_list. exact E.
Qed.

End Copy.

Section FirstWrite.
Import Chat Aggregates.

Variable random : nat -> string.

Lemma correlate_loop_first (msgs : list ChatMessage) (k : string) :
  forall st : correlator,
  c_chatToTickets (fold_left (correlate_message random) msgs st) !! k =
  match c_chatToTickets st !! k with
  | Some v => Some v
  | None => if JS.on_prototype k then None
            else first_linked k (keyed random (drawn st) msgs)
  end.
Proof.
  induction msgs as [|msg msgs IH]; intros st; cbn [fold_left].
  - cbn. destruct (c_chatToTickets st !! k);
      [|destruct (JS.on_prototype k)]; reflexivity.
  - rewrite IH. destruct (no_mentions msg) eqn:Hno.
    + destruct (step_unlinked random st msg (drawn st) msgs Hno) as [Hst Hk].
      rewrite Hk, Hst. cbn [c_chatToTickets drawn first_linked].
      rewrite Hno. reflexivity.
    + destruct (step_linked random st msg (drawn st) msgs Hno)
        as (_ & Hdrawn & _ & _ & Hk).
      rewrite Hk, Hdrawn. cbn [first_linked]. rewrite Hno.
      unfold correlate_message. unfold no_mentions in Hno.
      destruct (ticketIds msg) as [|t ts] eqn:Hids; [discriminate|].
      cbn [c_chatToTickets]. unfold JS.absent.
      destruct (c_chatToTickets st !! msgId msg (random (drawn st)))
        as [v|] eqn:El.
      * destruct (String.eqb (msgId msg (random (drawn st))) k) eqn:Ek.
        -- apply String.eqb_eq in Ek. subst k. rewrite El. reflexivity.
        -- reflexivity.
      * destruct (String.eqb (msgId msg (random (drawn st))) k) eqn:Ek.
        -- apply String.eqb_eq in Ek. subst k.
           destruct (JS.on_prototype (msgId msg (random (drawn st))));
             cbn [negb].
           ++ rewrite El. reflexivity.
           ++ rewrite lookup_insert_eq, El. reflexivity.
        -- apply String.eqb_neq in Ek.
           destruct (JS.on_prototype (msgId msg (random (drawn st))));
             cbn [negb]; [reflexivity|].
           rewrite lookup_insert_ne by exact Ek. reflexivity.
Qed.

End FirstWrite.

(** X7. The correlation copies [ticketMentions] to [ticketToChats]
    unchanged (the assignment under "__proto__" creates no entry), and the
    entry of [chatToTickets] under a key holds the ticketIds of the first
    message, in message order, that has mentions and that key: later
    messages with the same key leave it as it is, and a key that names a
    member of Object.prototype gets no entry. *)
Theorem correlation_first_write_wins (random : nat -> string) {T : Type}
    (ticketData : T) (cd : Chat.ChatData) (corr : Chat.Correlations) :
  Chat.correlateChatsWithTickets random ticketData (Some cd) = Some corr ->
  (forall k,
     Chat.ticketToChats corr !! k =
     if String.eqb k "__proto__" then None
     else Chat.ticketMentions cd !! k)
  /\ (forall k,
        Chat.chatToTickets corr !! k =
        if JS.on_prototype k then None
        else Aggregates.first_linked k
               (Chat.keyed random 0 (Chat.messages cd))).
Proof.
  intros H. unfold Chat.correlateChatsWithTickets in H. injection H as <-.
  cbn [Chat.ticketToChats Chat.chatToTickets].
  split; [apply copy_mentions_lookup|].
  intros k. rewrite correlate_loop_first. cbn [Chat.c_chatToTickets Chat.drawn].
  rewrite lookup_empty. reflexivity.
Qed.

(** Two exported messages of the same minute that both name a ticket. *)
Lemma correlation_first_write_wins_witness :
  exists corr,
    Chat.correlateChatsWithTickets (fun _ => "0.5") tt
      (Some (Chat.parseGoogleChatExport colliding)) = Some corr
    /\ Chat.chatToTickets corr !! "Nov 24, 2:24 PM" = Some ["UNSER-1141"].
Proof.
  eexists. split; [reflexivity|].
  destruct (correlation_first_write_wins (fun _ => "0.5") tt
              (Chat.parseGoogleChatExport colliding) _ eq_refl) as [_ H].
  rewrite H. vm_compute. reflexivity.
Defined.

Section Pages.
Import Chat Aggregates.

Variable env : ChatEnv.
Variable parsed : ParsedChatUrl.

(** When the loop ends normally, the messages are those of the pages
    answered, in request order, after the ones already held. *)
Lemma fetch_pages_concat (fuel : nat) : forall st msgs log,
  fetch_pages fuel env parsed st = Some (JS.Return msgs, log) ->
  pageCount st < maxPages ->
  exists pages urls,
    msgs = f_messages st ++ flat_map messages_of pages
    /\ log = requested st ++ urls
    /\ length urls = length pages
    /\ length pages <= maxPages - pageCount st
    /\ (forall j page,
          nth_error pages j = Some page ->
          exists url,
            nth_error urls j = Some url
            /\ chat_get env (pageCount st + j) url = JS.Data (Some page)).
Proof.
  induction fuel as [|fuel IH]; intros st msgs log H Hlt;
    cbn [fetch_pages] in H; [discriminate|].
  destruct (chat_get env (pageCount st) (page_url parsed (pageToken st)))
    as [e|[page|]] eqn:Hget; try discriminate.
  assert (Hone : forall j p,
            nth_error [page] j = Some p ->
            exists url,
              nth_error [page_url parsed (pageToken st)] j = Some url
              /\ chat_get env (pageCount st + j) url = JS.Data (Some p)).
  { intros [|[|j]] p Hp; cbn in Hp; try discriminate.
    injection Hp as <-. eexists. split; [reflexivity|].
    rewrite Nat.add_0_r. exact Hget. }
  assert (Hmsgs : match page_messages page with
                  | Some ms => f_messages st ++ ms
                  | None => f_messages st
                  end = f_messages st ++ messages_of page).
  { unfold messages_of.
    destruct (page_messages page); cbn; [reflexivity|].
    rewrite app_nil_r. reflexivity. }
  rewrite Hmsgs in H.
  destruct (maxPages <=? S (pageCount st)) eqn:Hmax.
  - injection H as <- <-. exists [page], [page_url parsed (pageToken st)].
    cbn [flat_map]. rewrite app_nil_r.
    repeat split; [cbn [length]; lia | exact Hone].
  - apply Nat.leb_gt in Hmax.
    destruct (JS.truthy (nextPageToken page)).
    + apply IH in H as (pages & urls & -> & -> & Hlen & Hcount & Hnth);
        cbn [pageCount requested f_messages] in *; [|exact Hmax].
      exists (page :: pages), (page_url parsed (pageToken st) :: urls).
      cbn [flat_map length]. rewrite <- !app_assoc. cbn [app].
      repeat split; [lia | lia |].
      intros [|j] p Hp; cbn [nth_error] in *.
      * injection Hp as <-. eexists. split; [reflexivity|].
        rewrite Nat.add_0_r. exact Hget.
      * destruct (Hnth j p Hp) as (url & Hu & Hg). exists url.
        split; [exact Hu|]. rewrite <- Nat.add_succ_comm. exact Hg.
    + injection H as <- <-. exists [page], [page_url parsed (pageToken st)].
      cbn [flat_map]. rewrite app_nil_r.
      repeat split; [cbn [length]; lia | exact Hone].
Qed.

Lemma flat_map_bound (pages : list Page) :
  (forall page ms, In page pages -> page_messages page = Some ms ->
     length ms <= 100) ->
  length (flat_map messages_of pages) <= 100 * length pages.
Proof.
  induction pages as [|page pages IH]; intros Hall; cbn [flat_map length];
    [lia|].
  rewrite length_app.
  assert (length (messages_of page) <= 100).
  { unfold messages_of. destruct (page_messages page) as [ms|] eqn:E.
    - cbn. apply (Hall page ms); [left; reflexivity | exact E].
    - cbn. lia. }
  assert (length (flat_map messages_of pages) <= 100 * length pages).
  { apply IH. intros p ms Hp. apply Hall. right. exact Hp. }
  lia.
Qed.

End Pages.

(** X8. When [fetchGoogleChatMessages] returns a dataset, its messages are
    the parsed messages of the pages the service answered, concatenated in
    request order, one page per request; so a service that honours the
    requested page size of 100 yields at most 1000 messages. *)
Theorem fetched_messages_are_the_pages (fuel : nat) (env : Chat.ChatEnv)
    (chatUrl : string) (cd : Chat.ChatData) (log : list string) :
  Chat.fetchGoogleChatMessages fuel env chatUrl = Some (Some cd, log) ->
  (exists pages,
     Chat.messages cd =
       map Chat.parse_message (flat_map Aggregates.messages_of pages)
     /\ length pages = length log
     /\ length pages <= Chat.maxPages
     /\ (forall j page,
           nth_error pages j = Some page ->
           exists url,
             nth_error log j = Some url
             /\ Chat.chat_get env j url = JS.Data (Some page)))
  /\ Chat.totalMessages cd = length (Chat.messages cd)
  /\ (Aggregates.honours_page_size env -> length (Chat.messages cd) <= 1000).
Proof.
  unfold Chat.fetchGoogleChatMessages.
  destruct (Chat.parseGoogleChatUrl env chatUrl) as [parsed|]; [|discriminate].
  destruct (Chat.fetch_pages fuel env parsed Chat.fetcher0)
    as [[[e|raw] l]|] eqn:Hrun; try discriminate.
  intros H. injection H as Hcd <-.
  destruct (assemble_fields parsed raw cd Hcd) as (Hm & _ & _ & _ & Htot).
  apply fetch_pages_concat in Hrun
    as (pages & urls & -> & -> & Hlen & Hcount & Hnth);
    [|unfold Chat.maxPages; cbn; lia].
  cbn [Chat.fetcher0 Chat.f_messages Chat.requested Chat.pageCount app] in *.
  rewrite Nat.sub_0_r in Hcount.
  split; [|split].
  - exists pages.
    repeat split; [exact Hm | symmetry; exact Hlen | exact Hcount | exact Hnth].
  - rewrite Htot, Hm, length_map. reflexivity.
  - intros Hsize. rewrite Hm, length_map.
    assert (length (flat_map Aggregates.messages_of pages) <= 100 * length pages).
    { apply flat_map_bound. intros page ms Hin Hms.
      apply In_nth_error in Hin as [j Hj].
      destruct (Hnth j page Hj) as (url & _ & Hget).
      exact (Hsize j url page ms Hget Hms). }
    unfold Chat.maxPages in Hcount. lia.
Qed.

Lemma fetched_messages_are_the_pages_witness :
  exists cd log,
    Chat.fetchGoogleChatMessages 10 endless_chat
      "https://chat.googleapis.com/v1/spaces/AAAA/messages?key=k"
    = Some (Some cd, log)
    /\ length (Chat.messages cd) <= 1000.
Proof.
  assert (exists cd log,
            Chat.fetchGoogleChatMessages 10 endless_chat
              "https://chat.googleapis.com/v1/spaces/AAAA/messages?key=k"
            = Some (Some cd, log)) as (cd & log & E)
    by (vm_compute; eauto).
  exists cd, log. split; [exact E|].
  apply (fetched_messages_are_the_pages _ _ _ _ _ E).
  intros n url page ms Hget Hms. cbn in Hget. injection Hget as <-.
  cbn in Hms. injection Hms as <-. apply Nat.leb_le. reflexivity.
Defined.

Section Classification.
Import YouTrack.

Lemma pushed_to_partition (items : list (bucket * LinkRef)) :
  length (pushed_to Child items) + length (pushed_to Parent items)
  + length (pushed_to Related items) + length (pushed_to Dependency items)
  = length items.
Proof.
  unfold pushed_to. induction items as [|[b r] items IH]; [reflexivity|].
  cbn [List.filter fst]. destruct b; cbn [bucket_eqb map length]; lia.
Qed.

Lemma link_items_length (ls : list RawLink) :
  length (link_items ls) = length (flat_map issues ls).
Proof.
  unfold link_items. induction ls as [|l ls IH]; [reflexivity|].
  cbn [flat_map]. rewrite !length_app, length_map, IH. reflexivity.
Qed.

Lemma pushed_to_origin (b : bucket) (ls : list RawLink) (r : LinkRef) :
  In r (pushed_to b (link_items ls)) ->
  exists l li, In l ls /\ In li (issues l) /\ link_item l li = (b, r).
Proof.
  unfold pushed_to, link_items. intros H.
  apply in_map_iff in H as ([b' r'] & Hr & H). cbn in Hr. subst r'.
  apply filter_In in H as [H Hb]. cbn [fst] in Hb.
  apply in_flat_map in H as (l & Hl & H).
  apply in_map_iff in H as (li & Hli & H).
  exists l, li. repeat split; [exact Hl | exact H|].
  rewrite Hli. destruct b', b; cbn in Hb; congruence.
Qed.

Lemma or_default_nonempty (x : option string) (d : string) :
  d <> "" -> JS.or_default x d <> "".
Proof.
  intros Hd. unfold JS.or_default. destruct x as [s|]; [|exact Hd].
  destruct (String.eqb s "") eqn:E; [exact Hd|].
  apply String.eqb_neq. exact E.
Qed.

(** What [link_item] guarantees of the reference it builds, by bucket. *)
Lemma link_item_facts (l : RawLink) (li : RawLinkedIssue) (b : bucket)
    (r : LinkRef) :
  link_item l li = (b, r) ->
  l_id r = li_idReadable li
  /\ l_direction r = direction l
  /\ l_linkType r <> "" /\ l_state r <> "" /\ l_assignee r <> ""
  /\ sourceIssue r = None
  /\ match b with
     | Child => l_linkType r = "Subtask" /\ l_direction r = "OUTWARD"
     | Parent => l_linkType r = "Subtask" /\ l_direction r <> "OUTWARD"
     | Dependency =>
         l_linkType r = "Depend"
         /\ dependencyType r =
            Some (if String.eqb (l_direction r) "OUTWARD"
                  then "Depends on" else "Required for")
     | Related =>
         l_linkType r <> "Subtask" /\ l_linkType r <> "Depend"
         /\ exists rt, relationType r = Some rt /\ rt <> ""
     end.
Proof.
  unfold link_item.
  set (lt := JS.or_default (linkType l ≫= lt_name) "Related").
  assert (Hlt : lt <> "") by (apply or_default_nonempty; discriminate).
  assert (Hst : JS.or_default (li_state_name li) "Unknown" <> "")
    by (apply or_default_nonempty; discriminate).
  assert (Has : JS.or_default (li_assignee_fullName li) "Unassigned" <> "")
    by (apply or_default_nonempty; discriminate).
  destruct (String.eqb lt "Subtask") eqn:Esub.
  - apply String.eqb_eq in Esub.
    destruct (String.eqb (direction l) "OUTWARD") eqn:Edir;
      intros H; injection H as <- <-; cbn;
      repeat split; try assumption.
    + apply String.eqb_eq. exact Edir.
    + apply String.eqb_neq. exact Edir.
  - apply String.eqb_neq in Esub.
    destruct (String.eqb lt "Depend") eqn:Edep.
    + apply String.eqb_eq in Edep.
      intros H; injection H as <- <-; cbn. repeat split; assumption.
    + apply String.eqb_neq in Edep.
      intros H; injection H as <- <-; cbn. repeat split; try assumption.
      eexists. split; [reflexivity|].
      destruct (String.eqb (direction l) "OUTWARD");
        apply or_default_nonempty; exact Hlt.
Qed.

End Classification.

(** X9. [parseIssueData] puts every linked issue of the payload into
    exactly one of the four lists, and each list holds what its name says:
    children are outward Subtask links, parents the other Subtask links,
    dependencies the Depend links, labelled by direction, and related items
    all the rest, each with a non-empty relation type. *)
Theorem links_are_partitioned (i : YouTrack.RawIssue)
    (cs : list YouTrack.Comment) (t : YouTrack.Ticket) :
  YouTrack.parseIssueData (Some i) cs = Some t ->
  length (YouTrack.children t) + length (YouTrack.parents t)
  + length (YouTrack.relatedItems t) + length (YouTrack.dependencies t)
  = length (flat_map YouTrack.issues (YouTrack.links i))
  /\ Forall (fun r => YouTrack.l_linkType r = "Subtask"
                      /\ YouTrack.l_direction r = "OUTWARD")
            (YouTrack.children t)
  /\ Forall (fun r => YouTrack.l_linkType r = "Subtask"
                      /\ YouTrack.l_direction r <> "OUTWARD")
            (YouTrack.parents t)
  /\ Forall (fun r => YouTrack.l_linkType r = "Depend"
                      /\ YouTrack.dependencyType r =
                         Some (if String.eqb (YouTrack.l_direction r) "OUTWARD"
                               then "Depends on" else "Required for"))
            (YouTrack.dependencies t)
  /\ Forall (fun r => YouTrack.l_linkType r <> "Subtask"
                      /\ YouTrack.l_linkType r <> "Depend"
                      /\ exists rt, YouTrack.relationType r = Some rt
                                    /\ rt <> "")
            (YouTrack.relatedItems t).
Proof.
  intros H. cbn [YouTrack.parseIssueData] in H. injection H as <-.
  cbn [YouTrack.children YouTrack.parents YouTrack.relatedItems
       YouTrack.dependencies].
  split; [rewrite pushed_to_partition; apply link_items_length|].
  repeat split; apply List.Forall_forall; intros r Hr;
    apply pushed_to_origin in Hr as (l & li & _ & _ & Hitem);
    apply link_item_facts in Hitem as (_ & _ & _ & _ & _ & _ & Hb);
    exact Hb.
Qed.

Lemma links_are_partitioned_witness :
  exists t,
    YouTrack.root_ticket tracker "https://yt" "PM-1" = Some t
    /\ length (YouTrack.children t) + length (YouTrack.parents t)
       + length (YouTrack.relatedItems t) + length (YouTrack.dependencies t)
       = 5.
Proof.
  eexists. split; [vm_compute; reflexivity|].
  match goal with
  | |- ?lhs = 5 =>
      match lhs with
      | context [YouTrack.children ?t] =>
          destruct (links_are_partitioned
                      (issue "PM-1"
                         [link "Subtask" "OUTWARD" ["PM-2"; "PM-3"];
                          link "Relates" "OUTWARD" ["PM-3"; "PM-4"];
                          link "Depend" "OUTWARD" ["PM-7"]])
                      [] t) as [Hcount _];
          [vm_compute; reflexivity | rewrite Hcount; reflexivity]
      end
  end.
Defined.

Section CrawlChildren.
Import YouTrack Measures.

Variable env : Tracker.
Variable base : string.
Variable parentId : string.

(** A property that holds of the ticket built for every frontier item that
    is fetched holds of all children. *)
Lemma crawl_items_each (Q : Ticket -> Prop) (frontier : list LinkRef) :
  (forall ref raw t deps,
     In ref frontier ->
     fetchIssue env base (l_id ref) = Some raw ->
     parseIssueData (Some raw) (fetchComments env base (l_id ref)) = Some t ->
     Q (linked_ticket t (l_linkType ref) deps)) ->
  forall st,
    Forall Q (cr_children st) ->
    Forall Q (cr_children (crawl_items env base parentId frontier st)).
Proof.
  unfold crawl_items.
  induction frontier as [|ref frontier IH]; intros HQ st Hst; cbn [fold_left];
    [exact Hst|].
  apply IH; [intros r raw t deps Hr; apply HQ; right; exact Hr|].
  unfold crawl_item.
  destruct (fetchIssue env base (l_id ref)) as [raw|] eqn:Hf; [|exact Hst].
  destruct (parseIssueData (Some raw) (fetchComments env base (l_id ref)))
    as [t|] eqn:Hp; [|exact Hst].
  destruct (merge_dependencies parentId (t_id t) (dependencies t)
              (cr_dependencies st)) as [deps own].
  cbn [cr_children]. apply Forall_app. split; [exact Hst|].
  constructor; [|constructor].
  apply (HQ ref raw t own); [left; reflexivity | exact Hf | exact Hp].
Qed.

Lemma fold_sum (A : Type) (f : A -> nat) (l : list A) : forall a,
  fold_left (fun sum x => sum + f x) l a = a + list_sum (map f l).
Proof.
  induction l as [|x l IH]; intros a; simpl; [lia|].
  rewrite IH. lia.
Qed.

Lemma push_comments_count (acc : list IssueComments) (t : Ticket) :
  entry_count (push_comments acc t) = entry_count acc + length (comments t).
Proof.
  unfold push_comments, entry_count.
  destruct (comments t) as [|c cs] eqn:E; [cbn; lia|].
  rewrite map_app, list_sum_app. cbn. lia.
Qed.

Lemma crawl_items_comment_count (frontier : list LinkRef) : forall st,
  entry_count (cr_allComments (crawl_items env base parentId frontier st))
  + comment_count (cr_children st)
  = entry_count (cr_allComments st)
    + comment_count (cr_children (crawl_items env base parentId frontier st)).
Proof.
  unfold crawl_items.
  induction frontier as [|ref frontier IH]; intros st; cbn [fold_left]; [lia|].
  specialize (IH (crawl_item env base parentId st ref)).
  unfold crawl_item in IH |- *.
  destruct (fetchIssue env base (l_id ref)) as [raw|]; [|exact IH].
  destruct (parseIssueData (Some raw) (fetchComments env base (l_id ref)))
    as [t|]; [|exact IH].
  destruct (merge_dependencies parentId (t_id t) (dependencies t)
              (cr_dependencies st)) as [deps own].
  cbn [cr_children cr_allComments] in IH.
  rewrite push_comments_count in IH.
  unfold comment_count in IH at 1. rewrite map_app, list_sum_app in IH.
  cbn [map linked_ticket comments] in IH.
  replace (list_sum [length (comments t)]) with (length (comments t)) in IH
    by (simpl; lia).
  fold (comment_count (cr_children st)) in IH. lia.
Qed.

Lemma increment_other (o : gmap string JS.tally) (k s : string) :
  k <> s -> JS.increment o k !! s = o !! s.
Proof.
  intros Hne. unfold JS.increment.
  destruct (o !! k) as [[n|txt]|]; try (apply lookup_insert_ne; exact Hne).
  destruct (JS.inherited k); [|apply lookup_insert_ne; exact Hne].
  unfold JS.assign. destruct (String.eqb k "__proto__"); [reflexivity|].
  apply lookup_insert_ne. exact Hne.
Qed.

Lemma increment_counted (o : gmap string JS.tally) (s : string) (n : nat) :
  JS.on_prototype s = false ->
  o !! s = Measures.cell n ->
  JS.increment o s !! s = Measures.cell (S n).
Proof.
  intros Hp Ho. unfold JS.increment. rewrite Ho.
  unfold JS.on_prototype in Hp.
  destruct n as [|n]; cbn [Measures.cell].
  - destruct (JS.inherited s); [discriminate|]. apply lookup_insert_eq.
  - rewrite lookup_insert_eq. rewrite Nat.add_1_r. reflexivity.
Qed.

Lemma histogram_lookup (f : Ticket -> string) (dflt s : string)
    (l : list Ticket) :
  JS.on_prototype s = false ->
  Forall (fun c => f c <> "") l ->
  forall (m : gmap string JS.tally) (n : nat),
  m !! s = Measures.cell n ->
  fold_left (fun m c => JS.increment m (JS.or_default (Some (f c)) dflt)) l m
    !! s
  = Measures.cell (n + count_occ string_dec (map f l) s).
Proof.
  intros Hp. induction 1 as [|c l Hc _ IH]; intros m n Hm;
    cbn [fold_left map count_occ].
  - rewrite Nat.add_0_r. exact Hm.
  - unfold JS.or_default at 2.
    apply String.eqb_neq in Hc. rewrite Hc.
    destruct (string_dec (f c) s) as [Heq|Hne].
    + rewrite (IH _ (S n)); [f_equal; lia|].
      rewrite Heq. apply increment_counted; assumption.
    + apply IH. rewrite increment_other by exact Hne. exact Hm.
Qed.

End CrawlChildren.

(** X10. The statistics of a crawled graph agree with the graph: the totals
    are the lengths of the children and dependency lists, the comment total
    is the number of comments of the parent and of all children, and each
    histogram holds, under every value that names no member of
    Object.prototype, the number of children with that state, type or
    assignee (no property when there is none); no child has an empty
    state, type or assignee. *)
Theorem stats_match_the_graph (env : YouTrack.Tracker) (base issue : string)
    (g : YouTrack.ProjectGraph) :
  YouTrack.crawlYouTrack env base issue = JS.Return g ->
  let st := YouTrack.stats g in
  let kids := YouTrack.g_children g in
  YouTrack.totalChildren st = length kids
  /\ YouTrack.totalDependencies st = length (YouTrack.g_dependencies g)
  /\ YouTrack.totalComments st =
     length (YouTrack.comments (YouTrack.parent g))
     + Measures.comment_count kids
  /\ Forall (fun c => YouTrack.t_state c <> "" /\ YouTrack.t_type c <> ""
                      /\ YouTrack.t_assignee c <> "") kids
  /\ (forall s,
        JS.on_prototype s = false ->
        YouTrack.childrenByState st !! s =
          Measures.cell (count_occ string_dec (map YouTrack.t_state kids) s)
        /\ YouTrack.childrenByType st !! s =
          Measures.cell (count_occ string_dec (map YouTrack.t_type kids) s)
        /\ YouTrack.childrenByAssignee st !! s =
          Measures.cell
            (count_occ string_dec (map YouTrack.t_assignee kids) s)).
Proof.
  unfold YouTrack.crawlYouTrack.
  destruct (YouTrack.fetchIssue env base issue) as [raw|]; [|discriminate].
  destruct (YouTrack.parseIssueData (Some raw)
              (YouTrack.fetchComments env base issue)) as [p|] eqn:Hp;
    [|discriminate].
  intros H. injection H as <-. cbn zeta.
  cbn [YouTrack.stats YouTrack.g_children YouTrack.g_dependencies
       YouTrack.parent YouTrack.totalChildren YouTrack.totalDependencies
       YouTrack.totalComments YouTrack.childrenByState
       YouTrack.childrenByType YouTrack.childrenByAssignee
       YouTrack.with_dependencies YouTrack.comments].
  set (st0 := {| YouTrack.cr_children := [];
                 YouTrack.cr_dependencies := YouTrack.dependencies p;
                 YouTrack.cr_allComments := YouTrack.push_comments [] p |}).
  assert (Hkids : Forall (fun c => YouTrack.t_state c <> ""
                                   /\ YouTrack.t_type c <> ""
                                   /\ YouTrack.t_assignee c <> "")
                    (YouTrack.cr_children
                       (YouTrack.crawl_items env base (YouTrack.t_id p)
                          (YouTrack.uniqueLinkedItems p) st0))).
  { apply crawl_items_each; [|constructor].
    intros ref r t deps _ _ Ht. cbn [YouTrack.parseIssueData] in Ht.
    injection Ht as <-. cbn.
    repeat split; apply or_default_nonempty; discriminate. }
  split; [reflexivity|]. split; [reflexivity|]. split; [|split; [exact Hkids|]].
  - rewrite fold_sum.
    pose proof (crawl_items_comment_count env base (YouTrack.t_id p)
                  (YouTrack.uniqueLinkedItems p) st0) as Hc.
    subst st0. cbn [YouTrack.cr_children YouTrack.cr_allComments] in Hc.
    rewrite push_comments_count in Hc.
    unfold Measures.entry_count in Hc at 1. cbn in Hc.
    unfold Measures.entry_count, Measures.comment_count in *.
    cbn [Measures.comment_count map list_sum] in Hc. lia.
  - intros s Hs. unfold YouTrack.histogram.
    split; [|split].
    + apply (histogram_lookup _ _ _ _ Hs) with (n := 0);
        [|apply lookup_empty].
      eapply List.Forall_impl; [|exact Hkids]. cbn. tauto.
    + apply (histogram_lookup _ _ _ _ Hs) with (n := 0);
        [|apply lookup_empty].
      eapply List.Forall_impl; [|exact Hkids]. cbn. tauto.
    + apply (histogram_lookup _ _ _ _ Hs) with (n := 0);
        [|apply lookup_empty].
      eapply List.Forall_impl; [|exact Hkids]. cbn. tauto.
Qed.

Lemma stats_match_the_graph_witness :
  exists g,
    YouTrack.crawlYouTrack tracker "https://yt" "PM-1" = JS.Return g
    /\ YouTrack.totalComments (YouTrack.stats g) = 1
    /\ YouTrack.childrenByState (YouTrack.stats g) !! "Open"
       = Some (JS.Count 2).
Proof.
  destruct (YouTrack.crawlYouTrack tracker "https://yt" "PM-1") as [e|g] eqn:Hc;
    [vm_compute in Hc; discriminate Hc|].
  exists g. split; [reflexivity|].
  destruct (stats_match_the_graph tracker "https://yt" "PM-1" g Hc)
    as (_ & _ & Hcom & _ & Hhist).
  destruct (Hhist "Open" eq_refl) as (Hstate & _ & _).
  rewrite Hcom, Hstate.
  vm_compute in Hc. injection Hc as <-. split; reflexivity.
Defined.

Section FrontierOrder.
Import YouTrack.

Lemma unique_from_sub (items : list LinkRef) : forall seen ref,
  In ref (unique_from seen items) -> In ref items.
Proof.
  induction items as [|item items IH]; intros seen ref H; [destruct H|].
  cbn [unique_from] in H. destruct (decide (l_id item ∈ seen)).
  - right. exact (IH _ _ H).
  - destruct H as [<-|H]; [left; reflexivity | right; exact (IH _ _ H)].
Qed.

Lemma unique_from_length (items : list LinkRef) : forall seen,
  length (unique_from seen items) <= length items.
Proof.
  induction items as [|item items IH]; intros seen; cbn [unique_from length];
    [lia|].
  destruct (decide (l_id item ∈ seen)); cbn [length].
  - specialize (IH seen). lia.
  - specialize (IH ({[l_id item]} ∪ seen)). lia.
Qed.

(** The frontier of a concatenation: the second list is filtered against
    the ids of the first as well. *)
Lemma unique_from_app (a b : list LinkRef) : forall seen : gset string,
  unique_from seen (a ++ b) =
  unique_from seen a ++ unique_from (list_to_set (map l_id a) ∪ seen) b.
Proof.
  induction a as [|item a IH]; intros seen; cbn [app unique_from map].
  - replace (list_to_set [] ∪ seen) with seen by set_solver. reflexivity.
  - destruct (decide (l_id item ∈ seen)) as [Hin|Hnin].
    + rewrite IH. f_equal. f_equal. set_solver.
    + cbn [app]. rewrite IH. f_equal. f_equal. f_equal. set_solver.
Qed.

Lemma omap_length {A B : Type} (f : A -> option B) (l : list A) :
  length (omap f l) <= length l.
Proof.
  induction l as [|x l IH]; [cbn; lia|].
  rewrite omap_cons. destruct (f x); cbn [length]; lia.
Qed.

End FrontierOrder.

(** X11. The crawl goes one hop from the root: there are at most as many
    children as the root has subtasks and related items, and every child is
    the answer to the fetch of one of these links, tagged with the link
    type of its frontier entry. *)
Theorem crawl_is_one_hop (env : YouTrack.Tracker) (base issue : string)
    (g : YouTrack.ProjectGraph) (p : YouTrack.Ticket) :
  YouTrack.crawlYouTrack env base issue = JS.Return g ->
  YouTrack.root_ticket env base issue = Some p ->
  length (YouTrack.g_children g)
  <= length (YouTrack.children p) + length (YouTrack.relatedItems p)
  /\ Forall
       (fun child =>
          exists ref l raw,
            In ref (YouTrack.uniqueLinkedItems p)
            /\ In l (YouTrack.children p ++ YouTrack.relatedItems p)
            /\ YouTrack.l_id l = YouTrack.l_id ref
            /\ YouTrack.fetchIssue env base (YouTrack.l_id ref) = Some raw
            /\ YouTrack.t_id child = YouTrack.idReadable raw
            /\ YouTrack.linkTypeToParent child
               = Some (YouTrack.l_linkType ref))
       (YouTrack.g_children g).
Proof.
  intros Hc Hp.
  destruct (crawl_returns env base issue g Hc)
    as (p' & Hp' & _ & _ & _ & _ & _ & Hch & _).
  rewrite Hp in Hp'. injection Hp' as <-. split.
  - rewrite <- (length_map YouTrack.t_id), Hch, crawl_items_children.
    cbn [YouTrack.cr_children map app].
    etransitivity; [apply omap_length|].
    etransitivity; [apply unique_from_length|].
    unfold YouTrack.allLinkedItems. rewrite length_app, !length_map. lia.
  - rewrite Hch. apply crawl_items_each; [|constructor].
    intros ref raw t deps Href Hf Ht.
    cbn [YouTrack.parseIssueData] in Ht. injection Ht as <-.
    assert (Hl : exists l, In l (YouTrack.children p ++ YouTrack.relatedItems p)
                           /\ YouTrack.l_id l = YouTrack.l_id ref).
    { apply unique_from_sub in Href. unfold YouTrack.allLinkedItems in Href.
      apply in_app_or in Href as [H|H];
        apply in_map_iff in H as (l & <- & Hl); exists l;
        (split; [apply in_or_app; auto | reflexivity]). }
    destruct Hl as (l & Hl & Hid).
    exists ref, l, raw. repeat split; assumption.
Qed.

Lemma crawl_is_one_hop_witness :
  exists g,
    YouTrack.crawlYouTrack tracker "https://yt" "PM-1" = JS.Return g
    /\ length (YouTrack.g_children g) <= 4.
Proof.
  destruct (YouTrack.crawlYouTrack tracker "https://yt" "PM-1") as [e|g] eqn:Hc;
    [vm_compute in Hc; discriminate Hc|].
  destruct (YouTrack.root_ticket tracker "https://yt" "PM-1") as [p|] eqn:Hp;
    [|vm_compute in Hp; discriminate Hp].
  exists g. split; [reflexivity|].
  destruct (crawl_is_one_hop tracker "https://yt" "PM-1" g p Hc Hp) as [H _].
  vm_compute in Hp. injection Hp as <-. exact H.
Defined.

(** X12. A linked issue that is a subtask of the root is crawled as a
    subtask even when it is also a related item; every other frontier entry
    carries the relation type of a related item with its id ("Related"
    when that item has none). *)
Theorem subtasks_take_precedence (p : YouTrack.Ticket) (ref : YouTrack.LinkRef) :
  In ref (YouTrack.uniqueLinkedItems p) ->
  ((exists c, In c (YouTrack.children p)
              /\ YouTrack.l_id c = YouTrack.l_id ref) ->
   YouTrack.l_linkType ref = "Subtask")
  /\ ((forall c, In c (YouTrack.children p) ->
                 YouTrack.l_id c <> YouTrack.l_id ref) ->
      exists r, In r (YouTrack.relatedItems p)
                /\ YouTrack.l_id r = YouTrack.l_id ref
                /\ YouTrack.l_linkType ref
                   = JS.or_default (YouTrack.relationType r) "Related").
Proof.
  unfold YouTrack.uniqueLinkedItems, YouTrack.allLinkedItems.
  rewrite unique_from_app. intros Href.
  apply in_app_or in Href as [Href|Href].
  - apply unique_from_sub in Href.
    apply in_map_iff in Href as (c & <- & Hc). split; [reflexivity|].
    intros Hno. exfalso. exact (Hno c Hc eq_refl).
  - split.
    + intros (c & Hc & Hid). exfalso.
      destruct (unique_from_spec
                  (map (fun r => YouTrack.with_linkType r
                                   (JS.or_default (YouTrack.relationType r)
                                      "Related"))
                       (YouTrack.relatedItems p))
                  (list_to_set
                     (map YouTrack.l_id
                        (map (fun c => YouTrack.with_linkType c "Subtask")
                             (YouTrack.children p))) ∪ ∅))
        as (_ & Hfresh & _).
      apply (Hfresh (YouTrack.l_id ref)); [apply in_map; exact Href|].
      apply elem_of_union. left. apply elem_of_list_to_set, list_elem_of_In.
      rewrite map_map. cbn. rewrite <- Hid. apply in_map. exact Hc.
    + intros _. apply unique_from_sub in Href.
      apply in_map_iff in Href as (r & <- & Hr).
      exists r. repeat split. exact Hr.
Qed.

Lemma subtasks_take_precedence_witness :
  map (fun ref => (YouTrack.l_id ref, YouTrack.l_linkType ref))
      (match YouTrack.root_ticket tracker "https://yt" "PM-1" with
       | Some p => YouTrack.uniqueLinkedItems p
       | None => []
       end)
  = [("PM-2", "Subtask"); ("PM-3", "Subtask"); ("PM-4", "relates to")]
  /\ YouTrack.l_linkType
       (YouTrack.with_linkType
          (snd (YouTrack.link_item (link "Subtask" "OUTWARD" ["PM-3"])
                                   (linked_issue "PM-3")))
          "Subtask") = "Subtask".
Proof.
  split; [vm_compute; reflexivity|].
  destruct (YouTrack.root_ticket tracker "https://yt" "PM-1") as [p|] eqn:Hp;
    [|vm_compute in Hp; discriminate Hp].
  apply (subtasks_take_precedence p).
  - vm_compute in Hp. injection Hp as <-. vm_compute. right. left. reflexivity.
  - vm_compute in Hp. injection Hp as <-.
    eexists. split; [right; left; reflexivity | reflexivity].
Defined.

Section SourceIssue.
Import YouTrack.

Variable env : Tracker.
Variable base : string.
Variable parentId : string.

Lemma merge_dependencies_marks (linkedId : string) (deps : list LinkRef) :
  forall acc,
  exists added,
    fst (merge_dependencies parentId linkedId deps acc) = acc ++ added
    /\ (forall d, In d added ->
          sourceIssue d = Some linkedId
          /\ In d (snd (merge_dependencies parentId linkedId deps acc))).
Proof.
  induction deps as [|dep deps IH]; intros acc; cbn [merge_dependencies].
  - exists []. rewrite app_nil_r. split; [reflexivity | intros d []].
  - destruct (negb (has_id (l_id dep) acc)
              && negb (String.eqb (l_id dep) parentId)).
    + destruct (IH (acc ++ [with_sourceIssue dep linkedId]))
        as (added & Heq & Hall).
      destruct (merge_dependencies parentId linkedId deps
                  (acc ++ [with_sourceIssue dep linkedId])) as [acc' own].
      cbn [fst snd] in *.
      exists (with_sourceIssue dep linkedId :: added).
      split; [rewrite Heq, <- app_assoc; reflexivity|].
      intros d [<-|Hd]; [split; [reflexivity | left; reflexivity]|].
      destruct (Hall d Hd) as [Hs Hin]. split; [exact Hs | right; exact Hin].
    + destruct (IH acc) as (added & Heq & Hall).
      destruct (merge_dependencies parentId linkedId deps acc) as [acc' own].
      cbn [fst snd] in *. exists added. split; [exact Heq|].
      intros d Hd. destruct (Hall d Hd) as [Hs Hin].
      split; [exact Hs | right; exact Hin].
Qed.

Lemma crawl_items_sources (own0 : list LinkRef) (frontier : list LinkRef) :
  forall st,
  (exists added,
     cr_dependencies st = own0 ++ added
     /\ forall d, In d added ->
          exists child, In child (cr_children st)
                        /\ sourceIssue d = Some (t_id child)
                        /\ In d (dependencies child)) ->
  exists added,
    cr_dependencies (crawl_items env base parentId frontier st) = own0 ++ added
    /\ forall d, In d added ->
         exists child,
           In child (cr_children (crawl_items env base parentId frontier st))
           /\ sourceIssue d = Some (t_id child)
           /\ In d (dependencies child).
Proof.
  unfold crawl_items.
  induction frontier as [|ref frontier IH]; intros st Hst; cbn [fold_left];
    [exact Hst|].
  apply IH. unfold crawl_item.
  destruct (fetchIssue env base (l_id ref)) as [raw|]; [|exact Hst].
  destruct (parseIssueData (Some raw) (fetchComments env base (l_id ref)))
    as [t|]; [|exact Hst].
  destruct Hst as (added & Heq & Hall).
  destruct (merge_dependencies_marks (t_id t) (dependencies t)
              (cr_dependencies st)) as (added1 & Heq1 & Hall1).
  destruct (merge_dependencies parentId (t_id t) (dependencies t)
              (cr_dependencies st)) as [deps own].
  cbn [fst snd cr_dependencies cr_children] in *.
  exists (added ++ added1). split; [rewrite Heq1, Heq, app_assoc; reflexivity|].
  intros d Hd. apply in_app_or in Hd as [Hd|Hd].
  - destruct (Hall d Hd) as (child & Hc & Hs & Hin).
    exists child. split; [apply in_or_app; left; exact Hc | auto].
  - destruct (Hall1 d Hd) as [Hs Hin].
    exists (linked_ticket t (l_linkType ref) own).
    split; [apply in_or_app; right; left; reflexivity|].
    split; [exact Hs | exact Hin].
Qed.

End SourceIssue.

(** X13. The dependency list of a crawled graph keeps the parent's own
    dependencies first, without a source, and every dependency after them
    names in [sourceIssue] the child it was merged from and is an entry of
    that child's own dependency list. *)
Theorem merged_dependencies_name_their_source (env : YouTrack.Tracker)
    (base issue : string) (g : YouTrack.ProjectGraph) (p : YouTrack.Ticket) :
  YouTrack.crawlYouTrack env base issue = JS.Return g ->
  YouTrack.root_ticket env base issue = Some p ->
  YouTrack.dependencies (YouTrack.parent g) = YouTrack.g_dependencies g
  /\ exists added,
       YouTrack.g_dependencies g = YouTrack.dependencies p ++ added
       /\ Forall (fun d => YouTrack.sourceIssue d = None)
                 (YouTrack.dependencies p)
       /\ Forall
            (fun d =>
               exists child,
                 In child (YouTrack.g_children g)
                 /\ YouTrack.sourceIssue d = Some (YouTrack.t_id child)
                 /\ In d (YouTrack.dependencies child))
            added.
Proof.
  intros Hc Hp.
  destruct (crawl_returns env base issue g Hc)
    as (p' & Hp' & _ & _ & _ & _ & _ & Hch & Hdeps).
  rewrite Hp in Hp'. injection Hp' as <-.
  split.
  { unfold YouTrack.crawlYouTrack, YouTrack.root_ticket in *.
    destruct (YouTrack.fetchIssue env base issue) as [raw|]; [|discriminate].
    cbn [YouTrack.parseIssueData] in *. injection Hc as <-. reflexivity. }
  destruct (crawl_items_sources env base (YouTrack.t_id p)
              (YouTrack.dependencies p) (YouTrack.uniqueLinkedItems p)
              {| YouTrack.cr_children := [];
                 YouTrack.cr_dependencies := YouTrack.dependencies p;
                 YouTrack.cr_allComments := YouTrack.push_comments [] p |})
    as (added & Heq & Hall).
  { exists []. cbn. rewrite app_nil_r. split; [reflexivity | intros d []]. }
  exists added. rewrite Hdeps, Hch. split; [exact Heq|]. split.
  - unfold YouTrack.root_ticket in Hp.
    destruct (YouTrack.fetchIssue env base issue) as [raw|]; [|discriminate].
    cbn [YouTrack.parseIssueData] in Hp. injection Hp as <-.
    cbn [YouTrack.dependencies]. apply List.Forall_forall. intros r Hr.
    apply pushed_to_origin in Hr as (l & li & _ & _ & Hitem).
    apply link_item_facts in Hitem as (_ & _ & _ & _ & _ & Hsrc & _).
    exact Hsrc.
  - apply List.Forall_forall. exact Hall.
Qed.

Lemma merged_dependencies_name_their_source_witness :
  exists g,
    YouTrack.crawlYouTrack tracker "https://yt" "PM-1" = JS.Return g
    /\ map YouTrack.sourceIssue (YouTrack.g_dependencies g)
       = [None; Some "PM-2"]
    /\ YouTrack.dependencies (YouTrack.parent g) = YouTrack.g_dependencies g.
Proof.
  destruct (YouTrack.crawlYouTrack tracker "https://yt" "PM-1") as [e|g] eqn:Hc;
    [vm_compute in Hc; discriminate Hc|].
  destruct (YouTrack.root_ticket tracker "https://yt" "PM-1") as [p|] eqn:Hp;
    [|vm_compute in Hp; discriminate Hp].
  exists g. split; [reflexivity|].
  destruct (merged_dependencies_name_their_source tracker "https://yt" "PM-1"
              g p Hc Hp) as [Halias _].
  split; [|exact Halias].
  vm_compute in Hc. injection Hc as <-. reflexivity.
Defined.

Section HistoryRoutes.
Import Routes.

Context {Item : Type}.
Variable ident : Item -> string.

Lemma findIndex_find (i : string) (h : list Item) :
  match findIndex ident i h with
  | None => find_item ident i h = None
  | Some n =>
      exists x pre post,
        find_item ident i h = Some x
        /\ h = pre ++ x :: post /\ length pre = n
        /\ ident x = i
        /\ (forall y, In y pre -> ident y <> i)
  end.
Proof.
  induction h as [|x h IH]; cbn [findIndex find_item List.find]; [reflexivity|].
  destruct (String.eqb (ident x) i) eqn:E.
  - apply String.eqb_eq in E.
    exists x, [], h. repeat split; [exact E | intros y []].
  - apply String.eqb_neq in E. unfold find_item in IH.
    destruct (findIndex ident i h) as [n|]; cbn; [|exact IH].
    destruct IH as (y & pre & post & Hf & -> & Hlen & Hy & Hpre).
    exists y, (x :: pre), post. cbn [length app].
    repeat split; [exact Hf | lia | exact Hy|].
    intros z [<-|Hz]; [exact E | exact (Hpre z Hz)].
Qed.

Lemma splice_one_middle (pre post : list Item) (x : Item) :
  splice_one (length pre) (pre ++ x :: post) = pre ++ post.
Proof.
  unfold splice_one.
  induction pre as [|y pre IH]; cbn [length firstn skipn app]; [reflexivity|].
  f_equal. exact IH.
Qed.

(** Deleting an id that is absent answers 404 and changes nothing;
    deleting one that is present removes the first entry with that id
    and no other. *)
Lemma delete_route_spec (i : string) (h : list Item) :
  (find_item ident i h = None ->
   delete_route ident i h = (NotFound unit "History item not found", h))
  /\ (forall x, find_item ident i h = Some x ->
        exists pre post,
          h = pre ++ x :: post
          /\ (forall y, In y pre -> ident y <> i)
          /\ delete_route ident i h = (Ok unit tt, pre ++ post)).
Proof.
  pose proof (findIndex_find i h) as H. unfold delete_route.
  destruct (findIndex ident i h) as [n|].
  - destruct H as (x & pre & post & Hf & -> & Hlen & Hx & Hpre). split.
    + intros Hnone. congruence.
    + intros y Hy. rewrite Hf in Hy. injection Hy as <-.
      exists pre, post. repeat split; [exact Hpre|].
      rewrite <- Hlen, splice_one_middle. reflexivity.
  - split; [reflexivity | intros x Hx; congruence].
Qed.

Lemma delete_route_length (i : string) (h : list Item) :
  length (snd (delete_route ident i h)) <= length h.
Proof.
  destruct (find_item ident i h) as [x|] eqn:E.
  - destruct (proj2 (delete_route_spec i h) x E) as (pre & post & -> & _ & ->).
    cbn [snd]. rewrite !length_app. cbn [length]. lia.
  - rewrite (proj1 (delete_route_spec i h) E). cbn [snd]. lia.
Qed.

End HistoryRoutes.

(** The newest entry is at the head of the history. *)
Lemma store_head {Item : Type} (x : Item) (h : list Item) :
  exists t, History.store x h = x :: t.
Proof.
  unfold History.store.
  destruct (History.MAX_HISTORY <? length (x :: h)) eqn:E;
    [|eexists; reflexivity].
  destruct h as [|y h'];
    [unfold History.MAX_HISTORY in E; cbn in E; discriminate E|].
  cbn [removelast]. eexists. reflexivity.
Qed.

(** X14. The history routes of the YouTrack server: whatever analyses and
    deletions follow one another from the empty history, it never holds
    more than 50 entries; the id that [addToHistory] returns retrieves the
    entry just added; deleting an absent id answers 404 and changes
    nothing; deleting a present id removes the first entry with that id
    and keeps all others in order; and deleting the entry just added to a
    history that was not full restores that history. *)
Theorem history_routes (changes : list Routes.change)
    (h : list History.HistoryItem) (c : History.call History.Data)
    (i : string) :
  length (fold_left Routes.apply_change changes []) <= History.MAX_HISTORY
  /\ Routes.get_route History.id (History.at_now c) (History.add h c)
     = Routes.Ok _ (History.item_of c)
  /\ (Routes.find_item History.id i h = None ->
      Routes.delete_route History.id i h
      = (Routes.NotFound unit "History item not found", h))
  /\ (forall x, Routes.find_item History.id i h = Some x ->
        exists pre post,
          h = pre ++ x :: post
          /\ (forall y, In y pre -> History.id y <> i)
          /\ Routes.delete_route History.id i h
             = (Routes.Ok unit tt, pre ++ post))
  /\ (length h < History.MAX_HISTORY ->
      snd (Routes.delete_route History.id (History.at_now c) (History.add h c))
      = h).
Proof.
  assert (Hadd : forall h', length h' <= History.MAX_HISTORY ->
            History.add h' c =
            History.item_of c
            :: (if length h' =? History.MAX_HISTORY then removelast h' else h')).
  { intros h' Hle. unfold History.add, History.addToHistory. cbn [fst].
    apply store_evicts_last. exact Hle. }
  assert (Hhead : exists t, History.add h c = History.item_of c :: t).
  { unfold History.add, History.addToHistory. cbn [fst]. apply store_head. }
  split; [|split; [|split; [|split]]].
  - assert (Hgen : forall h0, length h0 <= History.MAX_HISTORY ->
              length (fold_left Routes.apply_change changes h0)
              <= History.MAX_HISTORY).
    { induction changes as [|ch chs IH]; intros h0 Hle; cbn [fold_left];
        [exact Hle|].
      apply IH. destruct ch as [c'|i']; cbn [Routes.apply_change].
      - unfold History.add, History.addToHistory. cbn [fst].
        apply store_length. exact Hle.
      - pose proof (delete_route_length History.id i' h0). lia. }
    apply Hgen. cbn. unfold History.MAX_HISTORY. lia.
  - destruct Hhead as [t ->]. unfold Routes.get_route, Routes.find_item.
    cbn [List.find]. unfold History.item_of at 1. cbn [History.historyItem History.id].
    rewrite String.eqb_refl. reflexivity.
  - apply delete_route_spec.
  - apply delete_route_spec.
  - intros Hlt. rewrite Hadd by lia.
    replace (length h =? History.MAX_HISTORY) with false
      by (symmetry; apply Nat.eqb_neq; lia).
    unfold Routes.delete_route. cbn [Routes.findIndex].
    unfold History.item_of at 1. cbn [History.historyItem History.id].
    rewrite String.eqb_refl. reflexivity.
Qed.

Lemma history_routes_witness :
  exists h x,
    Routes.find_item History.id "1732458240000" h = Some x
    /\ exists pre post,
         h = pre ++ x :: post
         /\ Routes.delete_route History.id "1732458240000" h
            = (Routes.Ok unit tt, pre ++ post).
Proof.
  set (h := snd (Server.analyze_route services
                   (request "https://yt/issue/PM-1") [])).
  assert (exists x, Routes.find_item History.id "1732458240000" h = Some x)
    as [x Hx] by (vm_compute; eauto).
  exists h, x. split; [exact Hx|].
  destruct (history_routes [] h
              (History.Call "1" "2" "PM-1" "u" (History.data x)
                            (History.analysis x))
              "1732458240000")
    as (_ & _ & _ & Hdel & _).
  destruct (Hdel x Hx) as (pre & post & Hh & _ & Hd).
  exists pre, post. split; [exact Hh | exact Hd].
Defined.

(** X15. The analysis route changes the history only when it answers with
    the report: a 400 or 500 answer leaves it as it was; a report puts one
    entry at the head (the last of 50 leaving a full history), built from
    the ticket id of the address and the reported data and briefing; the
    identifier returned is the clock reading, the entry can be read back
    under it, and neither its project name nor its status is empty. *)
Theorem analysis_updates_history (sv : Server.Services) (req : Server.Request)
    (h : list History.HistoryItem) :
  match Server.analyze_route sv req h with
  | (Server.Report d a i, h') =>
      exists parsed,
        let entry :=
          History.historyItem (Server.now sv) (Server.iso sv)
            (Server.p_issueId parsed) (Server.r_url req) d a in
        Server.parseYouTrackUrl (Server.r_url req) = Some parsed
        /\ i = Server.now sv
        /\ h' = History.store entry h
        /\ Routes.get_route History.id i h' = Routes.Ok _ entry
        /\ History.projectName entry <> ""
        /\ History.status entry <> ""
  | (_, h') => h' = h
  end.
Proof.
  unfold Server.analyze_route.
  destruct (Server.parseYouTrackUrl (Server.r_url req)) as [parsed|];
    [|reflexivity].
  destruct (YouTrack.crawlYouTrack _ _ _) as [e|g]; [reflexivity|].
  match goal with
  | |- context [Server.analyze sv ?x] => generalize x
  end.
  intros d.
  destruct (Server.analyze sv d) as [e|a]; [reflexivity|].
  unfold History.addToHistory. exists parsed. cbn zeta.
  split; [reflexivity|]. split; [reflexivity|]. split; [reflexivity|].
  split; [|split].
  - destruct (store_head (History.historyItem (Server.now sv) (Server.iso sv)
                            (Server.p_issueId parsed) (Server.r_url req) d a) h)
      as [t ->].
    unfold Routes.get_route, Routes.find_item. cbn [List.find].
    cbn [History.historyItem History.id]. rewrite String.eqb_refl. reflexivity.
  - cbn [History.historyItem History.projectName].
    apply or_default_nonempty. cbn. discriminate.
  - cbn [History.historyItem History.status].
    apply or_default_nonempty. discriminate.
Qed.

Lemma trim_blank : JS.trim "" = "".
Proof. reflexivity. Qed.

(** X16. A chat export that is not blank takes precedence over a chat
    address: the chat data of the request is the parsed export, and the
    chat service is never consulted, so the route answers the same
    whatever that service would have said; with a blank or absent export
    and no chat address the request has no chat data. *)
Theorem export_text_takes_precedence (sv : Server.Services)
    (req : Server.Request) :
  (forall text,
     Server.chatExport req = Some text -> JS.trim text <> "" ->
     Server.chat_of sv req = Some (Chat.parseGoogleChatExport text)
     /\ forall sv' h,
          Server.tracker sv' = Server.tracker sv ->
          Server.random sv' = Server.random sv ->
          Server.analyze sv' = Server.analyze sv ->
          Server.now sv' = Server.now sv ->
          Server.iso sv' = Server.iso sv ->
          Server.analyze_route sv' req h = Server.analyze_route sv req h)
  /\ ((Server.chatExport req = None
       \/ exists text, Server.chatExport req = Some text /\ JS.trim text = "") ->
      JS.truthy (Server.chatUrl req) = false ->
      Server.chat_of sv req = None).
Proof.
  split.
  - intros text He Ht.
    assert (Hchat : forall s : Server.Services,
              Server.chat_of s req = Some (Chat.parseGoogleChatExport text)).
    { intros s. unfold Server.chat_of. rewrite He. cbn [JS.truthy JS.or_default].
      destruct (String.eqb text "") eqn:E.
      - apply String.eqb_eq in E. subst text. exfalso. apply Ht. reflexivity.
      - apply String.eqb_neq in Ht. rewrite Ht. reflexivity. }
    split; [apply Hchat|].
    intros sv' h Ht' Hr Ha Hn Hi. unfold Server.analyze_route.
    rewrite !Hchat, Ht', Hr, Ha, Hn, Hi. reflexivity.
  - intros He Hu. unfold Server.chat_of. rewrite Hu.
    destruct He as [->|(text & -> & Ht)]; [reflexivity|].
    cbn [JS.truthy JS.or_default].
    destruct (String.eqb text "") eqn:E; [reflexivity|].
    rewrite Ht. reflexivity.
Qed.

Lemma export_text_takes_precedence_witness :
  Server.chat_of services
    {| Server.r_url := "https://yt/issue/PM-1";
       Server.chatExport := Some scenario;
       Server.chatUrl := Some "https://chat.googleapis.com/v1/spaces/AAAA/messages?key=k" |}
  = Some (Chat.parseGoogleChatExport scenario).
Proof.
  refine (proj1 (proj1 (export_text_takes_precedence services
                          {| Server.r_url := "https://yt/issue/PM-1";
                             Server.chatExport := Some scenario;
                             Server.chatUrl := Some "https://chat.googleapis.com/v1/spaces/AAAA/messages?key=k" |})
                       scenario eq_refl _)).
  vm_compute. discriminate.
Defined.

Section Spans.
Import Regex Semantics.

(** A pattern without groups leaves the captures alone and consumes a
    word of its language. *)
Lemma den_plain (r : re) (s : pos) (c : caps) (s' : pos) (c' : caps) :
  has_group r = false -> den r s c s' c' ->
  c' = c /\ exists w, rest s = w ++ rest s' /\ lang r w.
Proof.
  intros Hg H. split; [exact (caps_free r _ _ _ _ Hg H)|].
  apply den_span in H as (w & Hr & _ & L). exists w. auto.
Qed.

(** A group around such a pattern records the word it consumed. *)
Lemma den_captured (n : nat) (r : re) (s : pos) (c : caps) (s' : pos)
    (c' : caps) :
  has_group r = false -> den (Grp n r) s c s' c' ->
  exists w, c' = (n, string_of_list_ascii w) :: c
            /\ rest s = w ++ rest s' /\ lang r w.
Proof.
  intros Hg (c1 & H & ->). rewrite (caps_free r _ _ _ _ Hg H).
  apply den_span in H as (w & Hr & Hi & L). exists w.
  rewrite (between_span s s' w Hr Hi). auto.
Qed.

Lemma lang_lit_aux (l : list ascii) : forall w, lang (lit_aux l) w -> w = l.
Proof.
  induction l as [|a [|b t] IH]; intros w H.
  - exact H.
  - apply lang_chr in H. exact H.
  - change (lit_aux (a :: b :: t)) with (Seq (chr a) (lit_aux (b :: t))) in H.
    destruct H as (w1 & w2 & -> & H1 & H2).
    apply lang_chr in H1 as ->. rewrite (IH w2 H2). reflexivity.
Qed.

Lemma lang_lit (x : string) (w : list ascii) :
  lang (lit x) w -> w = list_ascii_of_string x.
Proof. apply lang_lit_aux. Qed.

Lemma has_group_lit (x : string) : has_group (lit x) = false.
Proof.
  unfold lit. induction (list_ascii_of_string x) as [|a [|b t] IH];
    [reflexivity..|].
  change (lit_aux (a :: b :: t)) with (Seq (chr a) (lit_aux (b :: t))).
  cbn [has_group]. exact IH.
Qed.


Lemma not_slash_spec (w : list ascii) :
  Forall (fun a => Chat.not_slash a = true) w ->
  Forall (fun a => a <> "/"%char) w.
Proof.
  apply List.Forall_impl. intros a H ->. discriminate H.
Qed.

End Spans.

Section IndexOf.




End IndexOf.



Section AdoAddress.
Import Regex Semantics.

Lemma digits_spec (w : list ascii) :
  lang (plus d) w -> w <> [] /\ Forall (fun a => JS.is_digit a = true) w.
Proof. apply lang_plus_chr. Qed.

Lemma not_dot_spec (w : list ascii) :
  Forall (fun a => AdoServer.not_dot a = true) w ->
  Forall (fun a => a <> "."%char) w.
Proof.
  apply List.Forall_impl. intros a H ->. discriminate H.
Qed.

End AdoAddress.

(** X18. What [parseAdoUrl] accepts: the work-item id is one or more
    digits and the project a non-empty text without a slash; the address
    holds either [dev.azure.com/], the organisation (non-empty, without a
    slash), a slash, the project, [/_workitems/edit/] and the id, or the
    organisation (non-empty, without a dot), [.visualstudio.com/], the
    project, [/_workitems/edit/] and the id. *)
Theorem ado_url_parts (url : string) (parsed : AdoServer.ParsedAdoUrl) :
  AdoServer.parseAdoUrl url = Some parsed ->
  exists pre org project id post,
    AdoServer.p_org parsed = string_of_list_ascii org
    /\ AdoServer.p_project parsed = string_of_list_ascii project
    /\ AdoServer.p_id parsed = string_of_list_ascii id
    /\ org <> [] /\ project <> []
    /\ Forall (fun a => a <> "/"%char) project
    /\ id <> [] /\ Forall (fun a => JS.is_digit a = true) id
    /\ ((list_ascii_of_string url =
           pre ++ list_ascii_of_string "dev.azure.com/" ++ org
               ++ "/"%char :: project
               ++ list_ascii_of_string "/_workitems/edit/" ++ id ++ post
         /\ Forall (fun a => a <> "/"%char) org)
        \/ (list_ascii_of_string url =
              pre ++ org ++ list_ascii_of_string ".visualstudio.com/"
                  ++ project
                  ++ list_ascii_of_string "/_workitems/edit/" ++ id ++ post
            /\ Forall (fun a => a <> "."%char) org
            /\ Regex.exec AdoServer.azurePattern url = None)).
Proof.
  unfold AdoServer.parseAdoUrl.
  destruct (Regex.exec AdoServer.azurePattern url) as [m|] eqn:E.
  - intros H. injection H as <-.
    cbn [AdoServer.p_org AdoServer.p_project AdoServer.p_id].
    apply exec_sound in E as (b' & pre & l' & i & e & Hl & _ & Hd).
    unfold AdoServer.azurePattern in Hd. cbn [Regex.seqs] in Hd.
    destruct Hd as (s1 & c1 & H1 & s2 & c2 & H2 & s3 & c3 & H3 & s4 & c4 & H4
                    & s5 & c5 & H5 & H6).
    apply den_plain in H1 as (-> & w1 & R1 & L1); [|apply has_group_lit].
    apply den_captured in H2 as (w2 & -> & R2 & L2); [|reflexivity].
    apply den_plain in H3 as (-> & w3 & R3 & L3); [|reflexivity].
    apply den_captured in H4 as (w4 & -> & R4 & L4); [|reflexivity].
    apply den_plain in H5 as (-> & w5 & R5 & L5); [|apply has_group_lit].
    apply den_captured in H6 as (w6 & -> & R6 & L6); [|reflexivity].
    apply lang_lit in L1 as ->. apply lang_lit in L5 as ->.
    apply lang_chr in L3 as ->.
    apply lang_plus_chr in L2 as [N2 F2]. apply lang_plus_chr in L4 as [N4 F4].
    apply digits_spec in L6 as [N6 F6].
    exists pre, w2, w4, w6, (Regex.rest e). cbn [Regex.group Nat.eqb].
    repeat split; try assumption; try (apply not_slash_spec; assumption).
    left. split; [|apply not_slash_spec; assumption].
    rewrite Hl. cbn [Regex.rest] in R1. rewrite R1, R2, R3.
    cbn [app]. rewrite R4, R5, R6. reflexivity.
  - destruct (Regex.exec AdoServer.visualstudioPattern url) as [m|] eqn:E2;
      [|discriminate].
    intros H. injection H as <-.
    cbn [AdoServer.p_org AdoServer.p_project AdoServer.p_id].
    apply exec_sound in E2 as (b' & pre & l' & i & e & Hl & _ & Hd).
    unfold AdoServer.visualstudioPattern in Hd. cbn [Regex.seqs] in Hd.
    destruct Hd as (s1 & c1 & H1 & s2 & c2 & H2 & s3 & c3 & H3 & s4 & c4 & H4
                    & H5).
    apply den_captured in H1 as (w1 & -> & R1 & L1); [|reflexivity].
    apply den_plain in H2 as (-> & w2 & R2 & L2); [|apply has_group_lit].
    apply den_captured in H3 as (w3 & -> & R3 & L3); [|reflexivity].
    apply den_plain in H4 as (-> & w4 & R4 & L4); [|apply has_group_lit].
    apply den_captured in H5 as (w5 & -> & R5 & L5); [|reflexivity].
    apply lang_lit in L2 as ->. apply lang_lit in L4 as ->.
    apply lang_plus_chr in L1 as [N1 F1]. apply lang_plus_chr in L3 as [N3 F3].
    apply digits_spec in L5 as [N5 F5].
    exists pre, w1, w3, w5, (Regex.rest e). cbn [Regex.group Nat.eqb].
    repeat split; try assumption; try (apply not_slash_spec; assumption).
    right. split; [|split; [apply not_dot_spec; assumption | reflexivity]].
    rewrite Hl. cbn [Regex.rest] in R1. rewrite R1, R2, R3, R4, R5.
    reflexivity.
Qed.

Lemma ado_url_parts_witness :
  exists parsed id,
    AdoServer.parseAdoUrl "https://dev.azure.com/contoso/Web/_workitems/edit/42"
    = Some parsed
    /\ AdoServer.p_id parsed = string_of_list_ascii id
    /\ Forall (fun a => JS.is_digit a = true) id.
Proof.
  assert (exists parsed,
            AdoServer.parseAdoUrl
              "https://dev.azure.com/contoso/Web/_workitems/edit/42"
            = Some parsed) as [parsed E] by (vm_compute; eauto).
  destruct (ado_url_parts _ parsed E)
    as (pre & org & project & id & post & Ho & Hp & Hi & _ & _ & _ & _ & Fi & _).
  exists parsed, id. auto.
Defined.

Section Greedy.
Import Regex Semantics.

Variable p : ascii -> bool.
Variable t : list ascii.
Hypothesis Hstop : forall a, head t = Some a -> p a = false.

Lemma run_chr_cons (b : option ascii) (i : nat) (a : ascii) (l : list ascii)
    (c : caps) (k : pos -> caps -> option (pos * caps)) :
  run (Chr p) (Pos b i (a :: l)) c k
  = if p a then k (Pos (Some a) (S i) l) c else None.
Proof. reflexivity. Qed.

(** A greedy loop over a character class takes the whole run of
    characters of the class when what follows the loop succeeds there. *)
Lemma star_chars (c : caps) : forall (w : list ascii) n b i,
  Forall (fun a => p a = true) w -> length w < n ->
  exists b', forall k x,
    k (Pos b' (i + length w) t) c = Some x ->
    star_loop (run (Chr p)) true k n (Pos b i (w ++ t)) c = Some x.
Proof.
  intros w. induction w as [|a w IH]; intros n b i Hw Hn.
  - exists b. intros k x Hk. destruct n as [|n]; [lia|].
    cbn [length] in Hk. rewrite Nat.add_0_r in Hk.
    change (star_loop (run (Chr p)) true k (S n) (Pos b i ([] ++ t)) c) with
      (match run (Chr p) (Pos b i t) c (fun s' c' =>
               if i <? idx s' then star_loop (run (Chr p)) true k n s' c'
               else None) with
       | Some x => Some x
       | None => k (Pos b i t) c
       end).
    cbn [run rest]. destruct t as [|a t']; [exact Hk|].
    rewrite (Hstop a eq_refl). exact Hk.
  - destruct n as [|n]; [cbn in Hn; lia|].
    inversion Hw as [|a' w' Ha Hw']; subst.
    destruct (IH n (Some a) (S i) Hw' ltac:(cbn in Hn; lia)) as [b' Hb'].
    exists b'. intros k x Hk.
    change (star_loop (run (Chr p)) true k (S n) (Pos b i ((a :: w) ++ t)) c)
      with
      (match run (Chr p) (Pos b i (a :: w ++ t)) c (fun s' c' =>
               if i <? idx s' then star_loop (run (Chr p)) true k n s' c'
               else None) with
       | Some x => Some x
       | None => k (Pos b i (a :: w ++ t)) c
       end).
    rewrite run_chr_cons, Ha. cbn [idx].
    replace (i <? S i) with true by (symmetry; apply Nat.ltb_lt; lia).
    rewrite (Hb' k x); [reflexivity|].
    cbn [length] in Hk. rewrite <- Nat.add_succ_comm in Hk. exact Hk.
Qed.

Lemma plus_chars (c : caps) (w : list ascii) (b : option ascii) (i : nat) :
  w <> [] -> Forall (fun a => p a = true) w ->
  exists b', forall k x,
    k (Pos b' (i + length w) t) c = Some x ->
    run (plus (Chr p)) (Pos b i (w ++ t)) c k = Some x.
Proof.
  intros Hne Hw. destruct w as [|a w]; [congruence|].
  inversion Hw as [|a' w' Ha Hw']; subst.
  destruct (star_chars c w (S (length (w ++ t))) (Some a) (S i) Hw') as [b' Hb'].
  { rewrite length_app. lia. }
  exists b'. intros k x Hk. unfold plus.
  change (run (Seq (Chr p) (Star true (Chr p))) (Pos b i ((a :: w) ++ t)) c k)
    with (run (Chr p) (Pos b i (a :: w ++ t)) c
            (fun s' c' => run (Star true (Chr p)) s' c' k)).
  rewrite run_chr_cons, Ha, run_star. cbn [rest]. apply Hb'.
  cbn [length] in Hk. rewrite <- Nat.add_succ_comm in Hk. exact Hk.
Qed.

End Greedy.

Section Literal.
Import Regex Semantics.

Lemma lit_aux_chars (l : list ascii) : forall b i t c,
  l <> [] ->
  exists b', forall k,
    run (lit_aux l) (Pos b i (l ++ t)) c k = k (Pos b' (i + length l) t) c.
Proof.
  induction l as [|a [|a2 l] IH]; intros b i t c Hne; [congruence| |].
  - exists (Some a). intros k. cbn [lit_aux chr run rest idx app length].
    rewrite Ascii.eqb_refl, Nat.add_1_r. reflexivity.
  - destruct (IH (Some a) (S i) t c ltac:(discriminate)) as [b' Hb'].
    exists b'. intros k.
    change (lit_aux (a :: a2 :: l)) with (Seq (chr a) (lit_aux (a2 :: l))).
    cbn [run chr rest idx app]. rewrite Ascii.eqb_refl.
    change (a2 :: l ++ t) with ((a2 :: l) ++ t). rewrite Hb'.
    replace (S i + length (a2 :: l)) with (i + length (a :: a2 :: l))
      by (cbn [length]; lia).
    reflexivity.
Qed.

Lemma lit_chars (x : string) (b : option ascii) (i : nat) (t : list ascii)
    (c : caps) :
  x <> "" ->
  exists b', forall k,
    run (lit x) (Pos b i (list_ascii_of_string x ++ t)) c k
    = k (Pos b' (i + length (list_ascii_of_string x)) t) c.
Proof.
  intros Hx. apply lit_aux_chars. destruct x; [congruence | discriminate].
Qed.

Lemma between_chars (b b' : option ascii) (i : nat) (w t : list ascii) :
  between (Pos b i (w ++ t)) (Pos b' (i + length w) t) = string_of_list_ascii w.
Proof.
  unfold between. cbn [idx rest].
  replace (i + length w - i) with (length w) by lia.
  rewrite firstn_app, Nat.sub_diag, firstn_all. cbn [firstn].
  rewrite app_nil_r. reflexivity.
Qed.

Lemma search_here (r : re) (b : option ascii) (i : nat) (l : list ascii)
    (e : pos) (c : caps) :
  run r (Pos b i l) [] (fun s c => Some (s, c)) = Some (e, c) ->
  search r b i l = Some (Found i e c).
Proof.
  intros H. destruct l; cbn [search]; rewrite H; reflexivity.
Qed.

End Literal.

(** X19. Every address that consists of a dot-free text, then
    [.visualstudio.com/], a project without a slash, [/_workitems/edit/]
    and digits (not followed by a further digit) is accepted by
    [parseAdoUrl] unless the [dev.azure.com] form matches it, and the
    organisation is all of the text before the first dot, from the very
    start of the address. *)
Theorem visualstudio_address_accepted (host proj digits tail : list ascii) :
  let url :=
    string_of_list_ascii
      (host ++ list_ascii_of_string ".visualstudio.com/" ++ proj
            ++ list_ascii_of_string "/_workitems/edit/" ++ digits ++ tail) in
  host <> [] -> Forall (fun a => AdoServer.not_dot a = true) host ->
  proj <> [] -> Forall (fun a => Chat.not_slash a = true) proj ->
  digits <> [] -> Forall (fun a => JS.is_digit a = true) digits ->
  (forall a, head tail = Some a -> JS.is_digit a = false) ->
  Regex.exec AdoServer.azurePattern url = None ->
  AdoServer.parseAdoUrl url
  = Some {| AdoServer.p_org := string_of_list_ascii host;
            AdoServer.p_project := string_of_list_ascii proj;
            AdoServer.p_id := string_of_list_ascii digits |}.
Proof.
  intros url Nh Fh Np Fp Nd Fd Htail Hazure.
  unfold AdoServer.parseAdoUrl. rewrite Hazure.
  set (L1 := list_ascii_of_string ".visualstudio.com/") in *.
  set (L2 := list_ascii_of_string "/_workitems/edit/") in *.
  destruct (plus_chars AdoServer.not_dot (L1 ++ proj ++ L2 ++ digits ++ tail)
              ltac:(intros a H; injection H as <-; reflexivity)
              [] host None 0 Nh Fh) as [b1 H1].
  destruct (lit_chars ".visualstudio.com/" b1 (0 + length host)
              (proj ++ L2 ++ digits ++ tail)
              [(1, string_of_list_ascii host)] ltac:(discriminate))
    as [b2 H2].
  fold L1 in H2.
  destruct (plus_chars Chat.not_slash (L2 ++ digits ++ tail)
              ltac:(intros a H; injection H as <-; reflexivity)
              [(1, string_of_list_ascii host)] proj b2
              (0 + length host + length L1) Np Fp) as [b3 H3].
  destruct (lit_chars "/_workitems/edit/" b3
              (0 + length host + length L1 + length proj)
              (digits ++ tail)
              [(2, string_of_list_ascii proj); (1, string_of_list_ascii host)]
              ltac:(discriminate))
    as [b4 H4].
  fold L2 in H4.
  destruct (plus_chars JS.is_digit tail Htail
              [(2, string_of_list_ascii proj); (1, string_of_list_ascii host)]
              digits b4
              (0 + length host + length L1 + length proj + length L2) Nd Fd)
    as [b5 H5].
  assert (Hrun :
    Regex.run AdoServer.visualstudioPattern
      (Regex.Pos None 0 (host ++ L1 ++ proj ++ L2 ++ digits ++ tail)) []
      (fun s c => Some (s, c))
    = Some (Regex.Pos b5 (0 + length host + length L1 + length proj
                          + length L2 + length digits) tail,
            [(3, string_of_list_ascii digits);
             (2, string_of_list_ascii proj);
             (1, string_of_list_ascii host)])).
  { unfold AdoServer.visualstudioPattern. cbn [Regex.seqs Regex.run].
    apply H1. rewrite between_chars.
    fold L1. rewrite H2. apply H3. rewrite between_chars.
    fold L2. rewrite H4. apply H5. rewrite between_chars. reflexivity. }
  unfold Regex.exec. subst url. rewrite list_ascii_of_string_of_list_ascii.
  rewrite (search_here _ _ _ _ _ _ Hrun). reflexivity.
Qed.

Lemma visualstudio_address_accepted_witness :
  AdoServer.parseAdoUrl
    "https://contoso.visualstudio.com/Web/_workitems/edit/42"
  = Some {| AdoServer.p_org := "https://contoso";
            AdoServer.p_project := "Web";
            AdoServer.p_id := "42" |}.
Proof.
  apply (visualstudio_address_accepted
           (list_ascii_of_string "https://contoso")
           (list_ascii_of_string "Web")
           (list_ascii_of_string "42") []).
  - discriminate.
  - repeat constructor.
  - discriminate.
  - repeat constructor.
  - discriminate.
  - repeat constructor.
  - intros a H. discriminate H.
  - vm_compute. reflexivity.
Defined.

Section AdoCrawl.
Import Ado.

Lemma Forall_omap {A B : Type} (f : A -> option B) (Q : B -> Prop)
    (l : list A) :
  (forall x y, In x l -> f x = Some y -> Q y) -> Forall Q (omap f l).
Proof.
  induction l as [|x l IH]; intros H; [constructor|].
  rewrite omap_cons. destruct (f x) as [y|] eqn:E.
  - constructor; [apply (H x y); [left; reflexivity | exact E]|].
    apply IH. intros x' y' Hin. apply H. right. exact Hin.
  - apply IH. intros x' y' Hin. apply H. right. exact Hin.
Qed.

Lemma ado_push_comments_spec (acc : list WorkItemComments) (t : WorkItem) :
  Forall (fun wc => wc_comments wc <> []) acc ->
  Forall (fun wc => wc_comments wc <> []) (push_comments acc t)
  /\ list_sum (map (fun wc => length (wc_comments wc)) (push_comments acc t))
     = list_sum (map (fun wc => length (wc_comments wc)) acc)
       + length (comments t).
Proof.
  intros Hacc. unfold push_comments.
  destruct (comments t) as [|c cs] eqn:E; [split; [exact Hacc | cbn; lia]|].
  split.
  - apply Forall_app. split; [exact Hacc|]. constructor; [|constructor].
    cbn [wc_comments]. discriminate.
  - rewrite map_app, list_sum_app. simpl. lia.
Qed.

Lemma ado_push_all (kids : list WorkItem) : forall acc,
  Forall (fun wc => wc_comments wc <> []) acc ->
  Forall (fun wc => wc_comments wc <> []) (fold_left push_comments kids acc)
  /\ list_sum (map (fun wc => length (wc_comments wc))
                   (fold_left push_comments kids acc))
     = list_sum (map (fun wc => length (wc_comments wc)) acc)
       + list_sum (map (fun k => length (comments k)) kids).
Proof.
  induction kids as [|k kids IH]; intros acc Hacc; cbn [fold_left map].
  - split; [exact Hacc | simpl; lia].
  - destruct (ado_push_comments_spec acc k Hacc) as [H1 H2].
    destruct (IH _ H1) as [H3 H4]. split; [exact H3|].
    rewrite H4, H2. simpl. lia.
Qed.

Lemma related_has_relation (par : WorkItem) (rid : string) :
  In rid (relatedIds par) ->
  exists r, In r (relations par) /\ last_segment (url r) = rid.
Proof.
  unfold relatedIds. intros H. apply in_map_iff in H as (r & Hr & Hin).
  apply filter_In in Hin as [Hin _]. exists r. auto.
Qed.

(** The relation names recorded for a related id: the friendly names of
    the relations of the parent to it, in order. *)
Lemma relation_types_spec (par : WorkItem)
    (rmap : gmap string (list relationName)) (rid : string) :
  relationsMap par = Some rmap ->
  In rid (relatedIds par) ->
  relation_types rmap rid =
  Some (map (fun r => friendlyType (rel r))
            (List.filter (fun r => String.eqb (last_segment (url r)) rid)
                         (relations par)))
  /\ List.filter (fun r => String.eqb (last_segment (url r)) rid)
                 (relations par) <> [].
Proof.
  intros Hmap Hrid. unfold relationsMap in Hmap.
  pose proof (push_all_lookup _ _ _ _ _ Hmap rid) as Hl.
  rewrite lookup_empty in Hl. cbn [default from_option app] in Hl.
  apply related_has_relation in Hrid as (x & Hx & Hid).
  assert (Hne : List.filter
                  (fun r => String.eqb (last_segment (url r)) rid)
                  (relations par) <> []).
  { intros Hnil.
    assert (In x (List.filter
                    (fun r => String.eqb (last_segment (url r)) rid)
                    (relations par))) as Hmem
      by (apply filter_In; split; [exact Hx | apply String.eqb_eq; exact Hid]).
    rewrite Hnil in Hmem. destruct Hmem. }
  split; [|exact Hne]. unfold relation_types.
  destruct (rmap !! rid) as [types|].
  - cbv [default from_option id] in Hl. rewrite Hl. reflexivity.
  - cbv [default from_option id] in Hl. exfalso.
    destruct (List.filter (fun r => String.eqb (last_segment (url r)) rid)
                          (relations par)); [congruence | discriminate Hl].
Qed.

End AdoCrawl.

(** X20. The crawl of a work item throws "Could not fetch work item" when
    the root cannot be fetched, and a TypeError when a relation of the
    root points to an address whose last segment names a member of
    Object.prototype.  Otherwise it returns a graph: every child is the
    answer to the fetch of a child id, there are no more children than
    child links, every related item comes without comments and with a
    non-empty list of relation names, the friendly names of the relations
    of the root to that item in order, every entry of the collected
    comments is non-empty, and the comment total counts the comments of the
    root and of the children. *)
Theorem ado_crawl_outcome (env : Ado.Service) (o p i : string) :
  let base := "https://dev.azure.com/" +:+ o +:+ "/" +:+ p +:+ "/_apis/wit" in
  (Ado.fetchWorkItem env base i true = None ->
   Ado.crawlAdo env o p i = JS.Throw ("Could not fetch work item " +:+ i))
  /\ (forall par r,
        Ado.fetchWorkItem env base i true = Some par ->
        In r (Ado.relations par) ->
        JS.on_prototype (Ado.last_segment (Ado.url r)) = true ->
        Ado.crawlAdo env o p i = JS.Throw "TypeError")
  /\ (forall par,
        Ado.fetchWorkItem env base i true = Some par ->
        (forall r, In r (Ado.relations par) ->
           JS.on_prototype (Ado.last_segment (Ado.url r)) = false) ->
        exists g,
          Ado.crawlAdo env o p i = JS.Return g
          /\ Ado.parent g = par
          /\ Forall (fun c => exists cid,
                       In cid (Ado.childIds par)
                       /\ Ado.fetchWorkItem env base cid true = Some c)
                    (Ado.children g)
          /\ length (Ado.children g) <= length (Ado.childIds par)
          /\ Forall (fun r =>
                       Ado.comments r = []
                       /\ exists rid towards,
                            In rid (Ado.uniqueRelatedIds par)
                            /\ towards <> []
                            /\ towards =
                                 List.filter
                                   (fun x => String.eqb
                                      (Ado.last_segment (Ado.url x)) rid)
                                   (Ado.relations par)
                            /\ Ado.relationToParent r =
                                 Some (map (fun x => Ado.friendlyType
                                                       (Ado.rel x)) towards))
                    (Ado.relatedItems g)
          /\ Forall (fun wc => Ado.wc_comments wc <> []) (Ado.allComments g)
          /\ Ado.totalComments g
             = length (Ado.comments par)
               + list_sum (map (fun c => length (Ado.comments c))
                               (Ado.children g))).
Proof.
  intros base. unfold Ado.crawlAdo. fold base. split; [|split].
  - intros ->. reflexivity.
  - intros par r -> Hin Hp. unfold Ado.relationsMap.
    rewrite (push_all_none _ _ (Ado.relations par) ∅) with (x := r);
      [reflexivity | | exact Hin | exact Hp].
    intros k [b Hb]. rewrite lookup_empty in Hb. discriminate Hb.
  - intros par -> Hown.
    destruct (Ado.relationsMap par) as [rmap|] eqn:Hmap.
    2:{ exfalso. unfold Ado.relationsMap in Hmap.
        destruct (push_all_some (fun r => Ado.last_segment (Ado.url r))
                    (fun r => Ado.friendlyType (Ado.rel r))
                    (Ado.relations par) ∅ Hown) as [m Hm].
        congruence. }
    eexists. split; [reflexivity|].
    cbn [Ado.parent Ado.children Ado.relatedItems Ado.allComments
         Ado.totalComments].
    split; [reflexivity|]. split; [|split; [|split; [|]]].
    + apply Forall_omap. intros cid c Hin Hc. exists cid. auto.
    + apply omap_length.
    + apply Forall_omap. intros rid r Hin Hr.
      destruct (Ado.fetchWorkItem env base rid false) as [r0|] eqn:E;
        [|discriminate].
      cbn in Hr. injection Hr as <-. cbn [Ado.with_relation Ado.comments].
      split.
      * unfold Ado.fetchWorkItem in E.
        destruct (Ado.get_workitem env base rid) as [e|[item|]];
          try discriminate.
        injection E as <-. reflexivity.
      * destruct (ado_related_unique par) as [_ Hsub].
        destruct (Hsub rid Hin) as [Hrel _].
        destruct (relation_types_spec par rmap rid Hmap Hrel) as [Hty Hne].
        exists rid. eexists. cbn [Ado.relationToParent].
        split; [exact Hin|]. split; [exact Hne|].
        split; [reflexivity | exact Hty].
    + assert (H0 : Forall (fun wc => Ado.wc_comments wc <> [])
                     (Ado.push_comments [] par))
        by (apply ado_push_comments_spec; constructor).
      split; [apply (ado_push_all _ _ H0)|].
      rewrite fold_sum. cbn [Nat.add].
      rewrite (proj2 (ado_push_all _ _ H0)).
      rewrite (proj2 (ado_push_comments_spec [] par (List.Forall_nil _))).
      simpl. lia.
Qed.

Lemma ado_crawl_outcome_witness :
  exists g,
    Ado.crawlAdo devops "o" "p" "7" = JS.Return g
    /\ Ado.totalComments g
       = length (Ado.comments (Ado.parent g))
         + list_sum (map (fun c => length (Ado.comments c)) (Ado.children g)).
Proof.
  assert (exists par,
            Ado.fetchWorkItem devops
              ("https://dev.azure.com/" +:+ "o" +:+ "/" +:+ "p" +:+ "/_apis/wit")
              "7" true = Some par
            /\ forallb (fun r => negb (JS.on_prototype
                                         (Ado.last_segment (Ado.url r))))
                       (Ado.relations par) = true) as (par & E & Hall)
    by (vm_compute; eauto).
  assert (Hown : forall r, In r (Ado.relations par) ->
                   JS.on_prototype (Ado.last_segment (Ado.url r)) = false).
  { intros r Hr. rewrite forallb_forall in Hall.
    apply negb_true_iff. exact (Hall r Hr). }
  destruct (proj2 (proj2 (ado_crawl_outcome devops "o" "p" "7")) par E Hown)
    as (g & Hg & Hp & _ & _ & _ & _ & Ht).
  exists g. split; [exact Hg|]. rewrite Hp. exact Ht.
Defined.

(** X21. The analysis route of the Azure DevOps server: an address that
    [parseAdoUrl] rejects is answered with status 400, a root work item
    that cannot be fetched with status 500 and the message of the crawl,
    and neither changes the history; a report carries the graph of the
    crawl, puts one entry at the head of the history under the clock
    reading, which reads it back, and the entry has a project name and a
    status that are not empty and counts the root with the children. *)
Theorem ado_analysis_updates_history (sv : AdoServer.Services) (url : string)
    (h : list History.AdoHistoryItem) :
  (AdoServer.parseAdoUrl url = None ->
   AdoServer.analyze_route sv url h = (AdoServer.BadRequest "Invalid URL", h))
  /\ (forall parsed,
        AdoServer.parseAdoUrl url = Some parsed ->
        Ado.fetchWorkItem (AdoServer.service sv)
          ("https://dev.azure.com/" +:+ AdoServer.p_org parsed +:+ "/"
             +:+ AdoServer.p_project parsed +:+ "/_apis/wit")
          (AdoServer.p_id parsed) true = None ->
        AdoServer.analyze_route sv url h
        = (AdoServer.ServerError
             ("Could not fetch work item " +:+ AdoServer.p_id parsed), h))
  /\ match AdoServer.analyze_route sv url h with
     | (AdoServer.Report d a i, h') =>
         exists parsed,
           let entry :=
             History.adoHistoryItem (AdoServer.now sv) (AdoServer.iso sv)
               (AdoServer.p_id parsed) url d a in
           AdoServer.parseAdoUrl url = Some parsed
           /\ Ado.crawlAdo (AdoServer.service sv) (AdoServer.p_org parsed)
                (AdoServer.p_project parsed) (AdoServer.p_id parsed)
              = JS.Return d
           /\ i = AdoServer.now sv
           /\ h' = History.store entry h
           /\ Routes.get_route History.a_id i h' = Routes.Ok _ entry
           /\ History.a_projectName entry <> ""
           /\ History.a_status entry <> ""
           /\ History.a_totalTickets entry = length (Ado.children d) + 1
     | (_, h') => h' = h
     end.
Proof.
  unfold AdoServer.analyze_route. split; [|split].
  - intros ->. reflexivity.
  - intros parsed -> Hroot. unfold Ado.crawlAdo. rewrite Hroot. reflexivity.
  - destruct (AdoServer.parseAdoUrl url) as [parsed|]; [|reflexivity].
    destruct (Ado.crawlAdo _ _ _ _) as [e|d] eqn:Hcrawl; [reflexivity|].
    destruct (AdoServer.analyze sv d) as [e|a]; [reflexivity|].
    unfold History.addToHistoryAdo. exists parsed. cbn zeta.
    split; [reflexivity|]. split; [exact Hcrawl|].
    split; [reflexivity|]. split; [reflexivity|].
    split; [|split; [|split]].
    + destruct (store_head (History.adoHistoryItem (AdoServer.now sv)
                  (AdoServer.iso sv) (AdoServer.p_id parsed) url d a) h)
        as [t ->].
      unfold Routes.get_route, Routes.find_item. cbn [List.find].
      cbn [History.adoHistoryItem History.a_id]. rewrite String.eqb_refl.
      reflexivity.
    + cbn [History.adoHistoryItem History.a_projectName].
      apply or_default_nonempty. cbn. discriminate.
    + cbn [History.adoHistoryItem History.a_status].
      apply or_default_nonempty. discriminate.
    + reflexivity.
Qed.

Lemma ado_analysis_updates_history_witness :
  AdoServer.analyze_route
    {| AdoServer.service := devops;
       AdoServer.analyze := fun _ =>
         JS.Return {| History.overview_name := None;
                      History.overview_status := None |};
       AdoServer.now := "1732458240000";
       AdoServer.iso := "2024-11-24T14:24:00.000Z" |}
    "https://example.com/42" []
  = (AdoServer.BadRequest "Invalid URL", []).
Proof.
  apply ado_analysis_updates_history. vm_compute. reflexivity.
Defined.

Section TimeAgo.
Local Open Scope Z_scope.

Lemma interval_below (s size : Z) :
  0 < size -> s < size -> (1 <=? s / size) = false.
Proof.
  intros Hp Hlt. apply Z.leb_gt.
  apply Z.div_lt_upper_bound; lia.
Qed.

Lemma interval_reached (s size : Z) :
  0 < size -> size <= s -> (1 <=? s / size) = true.
Proof.
  intros Hp Hle. apply Z.leb_le.
  apply Z.div_le_lower_bound; lia.
Qed.

End TimeAgo.

(** X22. [getTimeAgo] names the largest of minute, hour, day, week, month
    (30 days) and year (365 days) that has fully elapsed, with the number
    of such units rounded down; under a minute, and for a date in the
    future, it answers "just now".  So the count never exceeds 59 minutes,
    23 hours, 6 days, 4 weeks or 12 months. *)
Theorem time_ago_units (now date : Z) :
  let seconds := ((now - date) / 1000)%Z in
  let ago := Client.getTimeAgo now date in
  ((seconds < 60)%Z -> ago = "just now")
  /\ ((60 <= seconds < 3600)%Z ->
      ago = Client.phrase (seconds / 60) "minute" /\ (seconds / 60 <= 59)%Z)
  /\ ((3600 <= seconds < 86400)%Z ->
      ago = Client.phrase (seconds / 3600) "hour" /\ (seconds / 3600 <= 23)%Z)
  /\ ((86400 <= seconds < 604800)%Z ->
      ago = Client.phrase (seconds / 86400) "day" /\ (seconds / 86400 <= 6)%Z)
  /\ ((604800 <= seconds < 2592000)%Z ->
      ago = Client.phrase (seconds / 604800) "week"
      /\ (seconds / 604800 <= 4)%Z)
  /\ ((2592000 <= seconds < 31536000)%Z ->
      ago = Client.phrase (seconds / 2592000) "month"
      /\ (seconds / 2592000 <= 12)%Z)
  /\ ((31536000 <= seconds)%Z ->
      ago = Client.phrase (seconds / 31536000) "year").
Proof.
  intros seconds ago. subst ago. unfold Client.getTimeAgo. fold seconds.
  generalize seconds as s. clear seconds. intros s.
  unfold Client.intervals. cbn [Client.scan].
  split; [intros H; rewrite !interval_below by lia; reflexivity|].
  split; [intros H; split;
    [rewrite 5!interval_below by lia; rewrite interval_reached by lia;
     reflexivity
    |assert (s / 60 < 60)%Z by (apply Z.div_lt_upper_bound; lia); lia]|].
  split; [intros H; split;
    [rewrite 4!interval_below by lia; rewrite interval_reached by lia;
     reflexivity
    |assert (s / 3600 < 24)%Z by (apply Z.div_lt_upper_bound; lia); lia]|].
  split; [intros H; split;
    [rewrite 3!interval_below by lia; rewrite interval_reached by lia;
     reflexivity
    |assert (s / 86400 < 7)%Z by (apply Z.div_lt_upper_bound; lia); lia]|].
  split; [intros H; split;
    [rewrite 2!interval_below by lia; rewrite interval_reached by lia;
     reflexivity
    |assert (s / 604800 < 5)%Z by (apply Z.div_lt_upper_bound; lia); lia]|].
  split; [intros H; split;
    [rewrite interval_below by lia; rewrite interval_reached by lia;
     reflexivity
    |assert (s / 2592000 < 13)%Z by (apply Z.div_lt_upper_bound; lia); lia]|].
  intros H. rewrite interval_reached by lia. reflexivity.
Qed.

Lemma time_ago_units_witness :
  Client.getTimeAgo 1732544640000 1732458240000 = "1 day ago"
  /\ Client.getTimeAgo 1732458240000 1732544640000 = "just now".
Proof.
  split.
  - destruct (time_ago_units 1732544640000 1732458240000)
      as (_ & _ & _ & Hday & _).
    rewrite (proj1 (Hday ltac:(vm_compute; split; [discriminate | reflexivity]))).
    vm_compute. reflexivity.
  - refine (proj1 (time_ago_units 1732458240000 1732544640000) _).
    vm_compute. reflexivity.
Defined.

Section BriefingText.
Import Regex Semantics Briefing.

Lemma lang_star_chr (g : bool) (p : ascii -> bool) (v : list ascii) :
  lang (Star g (Chr p)) v -> Forall (fun a => p a = true) v.
Proof.
  intros (ws & -> & Hws).
  induction Hws as [|x ws (b & -> & Hb) _ IH]; cbn; [constructor|].
  constructor; assumption.
Qed.

Lemma indexOf_spec (a : ascii) (l : list ascii) :
  match indexOf a l with
  | Some i => exists pre post,
                l = pre ++ a :: post /\ ~ In a pre /\ length pre = i
  | None => ~ In a l
  end.
Proof.
  induction l as [|b l IH]; cbn [indexOf]; [intros []|].
  destruct (Ascii.eqb b a) eqn:E.
  - apply Ascii.eqb_eq in E as ->. exists [], l. repeat split. intros [].
  - apply Ascii.eqb_neq in E.
    destruct (indexOf a l) as [i|]; cbn.
    + destruct IH as (pre & post & -> & Hpre & <-).
      exists (b :: pre), post. repeat split.
      intros [H|H]; [exact (E H) | exact (Hpre H)].
    + intros [H|H]; [exact (E H) | exact (IH H)].
Qed.

Lemma lastIndexOf_spec (a : ascii) (l : list ascii) :
  match lastIndexOf a l with
  | Some i => exists pre post,
                l = pre ++ a :: post /\ ~ In a post /\ length pre = i
  | None => ~ In a l
  end.
Proof.
  induction l as [|b l IH]; cbn [lastIndexOf]; [intros []|].
  destruct (lastIndexOf a l) as [i|].
  - destruct IH as (pre & post & -> & Hpost & <-).
    exists (b :: pre), post. repeat split. exact Hpost.
  - destruct (Ascii.eqb b a) eqn:E.
    + apply Ascii.eqb_eq in E as ->. exists [], l. repeat split. exact IH.
    + apply Ascii.eqb_neq in E.
      intros [H|H]; [exact (E H) | exact (IH H)].
Qed.

(** Two decompositions of one list at different places share the text
    between the places. *)
Lemma split_twice {A : Type} (x y : A) : forall (pre1 post1 pre2 post2 : list A),
  pre1 ++ x :: post1 = pre2 ++ y :: post2 ->
  length pre1 < length pre2 ->
  exists mid, pre2 = pre1 ++ x :: mid /\ post1 = mid ++ y :: post2.
Proof.
  induction pre1 as [|a pre1 IH]; intros post1 pre2 post2 H Hlt.
  - destruct pre2 as [|b pre2]; [cbn in Hlt; lia|].
    cbn [app] in H. injection H as -> ->. exists pre2. auto.
  - destruct pre2 as [|b pre2]; [cbn in Hlt; lia|].
    cbn [app] in H. injection H as -> H.
    destruct (IH post1 pre2 post2 H ltac:(cbn in Hlt; lia)) as (mid & -> & ->).
    exists mid. auto.
Qed.

(** The decomposition of a list at the first occurrence of an element,
    and at the last one, is unique. *)
Lemma split_first_unique {A : Type} (x : A) :
  forall pre1 post1 pre2 post2 : list A,
  pre1 ++ x :: post1 = pre2 ++ x :: post2 ->
  ~ In x pre1 -> ~ In x pre2 ->
  pre1 = pre2 /\ post1 = post2.
Proof.
  induction pre1 as [|a pre1 IH]; intros post1 pre2 post2 H H1 H2.
  - destruct pre2 as [|b pre2]; cbn [app] in H.
    + injection H as ->. auto.
    + injection H as <- _. exfalso. apply H2. left. reflexivity.
  - destruct pre2 as [|b pre2]; cbn [app] in H.
    + injection H as -> _. exfalso. apply H1. left. reflexivity.
    + injection H as <- H.
      destruct (IH post1 pre2 post2 H) as [-> ->]; [| |auto].
      * intros Hin. apply H1. right. exact Hin.
      * intros Hin. apply H2. right. exact Hin.
Qed.

Lemma split_last_unique {A : Type} (x : A)
    (pre1 post1 pre2 post2 : list A) :
  pre1 ++ x :: post1 = pre2 ++ x :: post2 ->
  ~ In x post1 -> ~ In x post2 ->
  pre1 = pre2 /\ post1 = post2.
Proof.
  intros H H1 H2.
  assert (Hrev : rev post1 ++ x :: rev pre1 = rev post2 ++ x :: rev pre2).
  { apply (f_equal (@rev A)) in H.
    rewrite !rev_app_distr in H. cbn [rev] in H.
    rewrite <- !app_assoc in H. exact H. }
  apply split_first_unique in Hrev as [E1 E2].
  - apply (f_equal (@rev A)) in E1, E2.
    rewrite !rev_involutive in E1, E2. auto.
  - intros Hin. apply H1, in_rev. exact Hin.
  - intros Hin. apply H2, in_rev. exact Hin.
Qed.

Lemma substring_middle (pre mid post : list ascii) :
  substring (length pre) (length pre + length mid) (pre ++ mid ++ post) = mid.
Proof.
  unfold substring.
  replace (length pre + length mid - length pre) with (length mid) by lia.
  rewrite drop_app_length, take_app_length. reflexivity.
Qed.

Lemma drop_space_fixed (a : ascii) (l : list ascii) :
  JS.is_space a = false -> JS.drop_space (a :: l) = a :: l.
Proof. intros H. cbn [JS.drop_space]. rewrite H. reflexivity. Qed.

(** A text that begins and ends with a character that is not white space
    is its own trimmed form. *)
Lemma trim_fixed (a b : ascii) (mid : list ascii) :
  JS.is_space a = false -> JS.is_space b = false ->
  JS.trim (string_of_list_ascii (a :: mid ++ [b]))
  = string_of_list_ascii (a :: mid ++ [b]).
Proof.
  intros Ha Hb. unfold JS.trim. rewrite list_ascii_of_string_of_list_ascii.
  rewrite (drop_space_fixed a _ Ha).
  change (a :: mid ++ [b]) with ((a :: mid) ++ [b]).
  rewrite rev_app_distr. cbn [rev app].
  rewrite (drop_space_fixed b _ Hb).
  change (b :: rev mid ++ [a]) with (rev [b] ++ rev (a :: mid)).
  rewrite <- rev_app_distr, rev_involutive. reflexivity.
Qed.

End BriefingText.

(** X23. The text that [analyze] hands to [JSON.parse].  When the answer
    holds a block fenced by three backquotes and [json], it is the body of
    a fenced block, trimmed.  Otherwise, when some opening brace is
    followed by a closing brace, it runs from the first opening brace to
    the last closing brace of the answer, both included; and when there is
    no such pair it is the whole answer, trimmed. *)
Theorem briefing_text_extraction (txt : string) :
  let l := list_ascii_of_string txt in
  (Regex.exec Briefing.fencePattern txt <> None ->
   exists pre ws1 body ws2 post,
     l = pre ++ list_ascii_of_string "```json" ++ ws1 ++ body ++ ws2
             ++ list_ascii_of_string "```" ++ post
     /\ Forall (fun a => JS.is_space a = true) ws1
     /\ Forall (fun a => JS.is_space a = true) ws2
     /\ Briefing.jsonStr txt = JS.trim (string_of_list_ascii body))
  /\ (Regex.exec Briefing.fencePattern txt = None ->
      (forall pre mid post,
         l = pre ++ "{"%char :: mid ++ "}"%char :: post ->
         ~ In "{"%char pre -> ~ In "}"%char post ->
         Briefing.jsonStr txt
         = string_of_list_ascii ("{"%char :: mid ++ ["}"%char]))
      /\ ((forall pre mid post,
             l <> pre ++ "{"%char :: mid ++ "}"%char :: post) ->
          Briefing.jsonStr txt = JS.trim txt)).
Proof.
  intros l. split; [|split].
  - unfold Briefing.jsonStr.
    destruct (Regex.exec Briefing.fencePattern txt) as [m|] eqn:E;
      [intros _ | intros H; congruence].
    apply exec_sound in E as (b' & pre & l' & i & e & Hl & _ & Hd).
    unfold Briefing.fencePattern in Hd. cbn [Regex.seqs] in Hd.
    destruct Hd as (s1 & c1 & H1 & s2 & c2 & H2 & s3 & c3 & H3 & s4 & c4 & H4
                    & H5).
    apply den_plain in H1 as (-> & w1 & R1 & L1); [|apply has_group_lit].
    apply den_plain in H2 as (-> & w2 & R2 & L2); [|reflexivity].
    apply den_captured in H3 as (w3 & -> & R3 & L3); [|reflexivity].
    apply den_plain in H4 as (-> & w4 & R4 & L4); [|reflexivity].
    apply den_plain in H5 as (-> & w5 & R5 & L5); [|apply has_group_lit].
    apply lang_lit in L1 as ->. apply lang_lit in L5 as ->.
    apply lang_star_chr in L2. apply lang_star_chr in L4.
    exists pre, w2, w3, w4, (Regex.rest e). cbn [Regex.group Nat.eqb].
    repeat split; try assumption.
    subst l. rewrite Hl. cbn [Regex.rest] in R1.
    rewrite R1, R2, R3, R4, R5. reflexivity.
  - intros pre mid post Hl Hpre Hpost. unfold Briefing.jsonStr. rewrite H.
    fold l.
    pose proof (indexOf_spec "{" l) as Hi.
    pose proof (lastIndexOf_spec "}" l) as Hj.
    destruct (Briefing.indexOf "{" l) as [i|];
      [|exfalso; apply Hi; rewrite Hl; apply in_or_app; right; left;
        reflexivity].
    destruct (Briefing.lastIndexOf "}" l) as [j|];
      [|exfalso; apply Hj; rewrite Hl; apply in_or_app; right; right;
        apply in_or_app; right; left; reflexivity].
    destruct Hi as (pre1 & post1 & Hl1 & Hn1 & <-).
    destruct Hj as (pre2 & post2 & Hl2 & Hn2 & <-).
    assert (pre1 = pre) as ->.
    { rewrite Hl in Hl1.
      exact (eq_sym (proj1 (split_first_unique _ _ _ _ _ Hl1 Hpre Hn1))). }
    assert (pre2 = pre ++ "{"%char :: mid) as ->.
    { rewrite Hl in Hl2.
      change (pre ++ "{"%char :: mid ++ "}"%char :: post)
        with (pre ++ ("{"%char :: mid) ++ "}"%char :: post) in Hl2.
      rewrite app_assoc in Hl2.
      exact (eq_sym (proj1 (split_last_unique _ _ _ _ _ Hl2 Hpost Hn2))). }
    rewrite length_app. cbn [length].
    replace (length pre <? length pre + S (length mid)) with true
      by (symmetry; apply Nat.ltb_lt; lia).
    rewrite Hl.
    replace (pre ++ "{"%char :: mid ++ "}"%char :: post)
      with (pre ++ ("{"%char :: mid ++ ["}"%char]) ++ post)
      by (cbn [app]; rewrite <- app_assoc; reflexivity).
    replace (length pre + S (length mid) + 1)
      with (length pre + length ("{"%char :: mid ++ ["}"%char]))
      by (cbn [length]; rewrite length_app; cbn [length]; lia).
    rewrite substring_middle. apply trim_fixed; reflexivity.
  - intros Hno. unfold Briefing.jsonStr. rewrite H. fold l.
    pose proof (indexOf_spec "{" l) as Hi.
    pose proof (lastIndexOf_spec "}" l) as Hj.
    destruct (Briefing.indexOf "{" l) as [i|]; [|reflexivity].
    destruct (Briefing.lastIndexOf "}" l) as [j|]; [|reflexivity].
    destruct (i <? j) eqn:Hij; [|reflexivity].
    apply Nat.ltb_lt in Hij.
    destruct Hi as (pre1 & post1 & Hl1 & _ & <-).
    destruct Hj as (pre2 & post2 & Hl2 & _ & <-).
    rewrite Hl1 in Hl2.
    destruct (split_twice _ _ _ _ _ _ Hl2 Hij) as (mid & _ & ->).
    exfalso. exact (Hno pre1 mid post2 Hl1).
Qed.

Lemma briefing_text_extraction_witness :
  Briefing.jsonStr "Here you go: {} Regards, {the model" = "{}".
Proof.
  refine (proj1 (proj2 (briefing_text_extraction _) _)
            (list_ascii_of_string "Here you go: ")
            []
            (list_ascii_of_string " Regards, {the model") _ _ _).
  - vm_compute. reflexivity.
  - vm_compute. reflexivity.
  - vm_compute. intuition discriminate.
  - vm_compute. intuition discriminate.
Defined.
